(** * Pro-Terra: heightfield erosion, terrain analysis and generation

    A shallow embedding of the numeric core of the repository:
    - [src/services/ErosionSimulator.js]   (module [ErosionSimulator]),
    - [src/services/HeightfieldService.js] (module [HeightfieldService]),
    - [src/services/HeightmapGenerationService.js]
      (module [HeightmapGenerationService]).

    Numbers.  JavaScript numbers are modelled as exact rationals [Q]: IEEE
    rounding, NaN and the infinities are not represented.  What is proved
    about comparisons, guards, indices, copies, clamps and signs holds of
    the floating-point program as it stands; what is proved about sums is
    exact in the model and holds of the program up to rounding, and is
    marked as such.  Grid dimensions,
    cell coordinates and array indices are integers [Z].  A [Float32Array]
    is a [list Q]; a write outside the array is dropped, as in JavaScript.
    A number written to an array cell or to a field of a droplet is kept in
    lowest terms ([Qred]): this fixes its representation, not its value.
    A read outside the array yields [undefined] in JavaScript (NaN once used
    in arithmetic); since the embedding has no NaN such a read ends the
    modelled run with the fault [OutOfRange], and a division by zero ends
    it with [NonFinite].  Neither is an exception of the program.  The
    exceptions are [TypeError] (member access on [undefined]), [RangeError]
    (a negative array length, or a length beyond the limit of the engine)
    and [Thrown] (a [throw] statement). *)

From Stdlib Require Import ZArith QArith Qround Qminmax Qabs Qpower Lia Lqa.
From stdpp Require Import base option list.

Set Default Proof Using "Type".
Open Scope Q_scope.

(** ** JavaScript runtime *)

Module JS.

Inductive fault := TypeError | RangeError | Thrown | OutOfRange | NonFinite.

Inductive res (A : Type) : Type :=
| Ok (a : A)
| Fault (e : fault).
Global Arguments Ok {A} a.
Global Arguments Fault {A} e.

#[global] Instance res_ret : MRet res := fun A a => Ok a.
#[global] Instance res_bind : MBind res := fun A B f m =>
  match m with
  | Ok a => f a
  | Fault e => Fault e
  end.

Definition is_Ok {A} (m : res A) : bool :=
  match m with Ok _ => true | Fault _ => false end.

(** The part of [Math] that is not rational arithmetic. *)
Class Runtime := { Math_sqrt : Q -> Q }.

Abbreviation Float32Array := (list Q).

(** [a[i]] in an arithmetic context. *)
Definition f32_get (a : Float32Array) (i : Z) : res Q :=
  if (i <? 0)%Z then Fault OutOfRange
  else match a !! Z.to_nat i with
       | Some v => Ok v
       | None => Fault OutOfRange
       end.

(** [a[i] = v]: ignored when [i] is not an index of [a]. *)
Definition f32_set (a : Float32Array) (i : Z) (v : Q) : Float32Array :=
  if (i <? 0)%Z then a else <[Z.to_nat i := Qred v]> a.

(** [new Float32Array(n)]: [n] zeros, [RangeError] for a negative length. *)
Definition f32_new (n : Z) : res Float32Array :=
  if (n <? 0)%Z then Fault RangeError else Ok (replicate (Z.to_nat n) 0%Q).

(** The limit of the engine on the length of a typed array:
    [new Float32Array(n)] throws a [RangeError] for a length beyond it
    (beyond 2^53 - 1 by the language, far earlier in practice).  [f32_new]
    leaves the limit out; it is used where the caller holds an array of that
    length already.  [f32_alloc] is the allocation of a length that is
    computed from a parameter. *)
Class Engine := { maxTypedArrayLength : Z }.

Definition f32_alloc `{Engine} (n : Z) : res Float32Array :=
  if (maxTypedArrayLength <? n)%Z then Fault RangeError else f32_new n.

(** [new Float32Array(n).fill(v)]. *)
Definition f32_filled (n : Z) (v : Q) : res Float32Array :=
  if (n <? 0)%Z then Fault RangeError else Ok (replicate (Z.to_nat n) v).

Definition Qltb (a b : Q) : bool := negb (Qle_bool b a).

(** [a / b] where [b] may be 0. *)
Definition Qdiv_js (a b : Q) : res Q :=
  if Qeq_bool b 0 then Fault NonFinite else Ok (a / b).


Fixpoint foldM {A B} (f : A -> B -> res A) (l : list B) (a : A) : res A :=
  match l with
  | [] => Ok a
  | b :: l' => a' ← f a b; foldM f l' a'
  end.

Fixpoint mapM {A B} (f : A -> res B) (l : list A) : res (list B) :=
  match l with
  | [] => Ok []
  | a :: l' => b ← f a; bs ← mapM f l'; Ok (b :: bs)
  end.

(** [Math.random]: either the engine's generator, an unknown sequence of
    draws read in order, or the generator installed by
    [ErosionSimulator.setSeed]. *)
Inductive RandomSource :=
| Native (draws : nat -> Q) (pos : nat)
| Lcg (s : Z).

Definition Math_random (r : RandomSource) : Q * RandomSource :=
  match r with
  | Native draws pos => (draws pos, Native draws (S pos))
  | Lcg s =>
      let s' := Z.rem (s * 16807) 2147483647 in
      (inject_Z s' / inject_Z 2147483647, Lcg s')
  end.

End JS.

Import JS.

(** ** src/services/ErosionSimulator.js *)

Module ErosionSimulator.

Record Params := {
  inertia : Q;
  friction : Q;
  sedimentCapacityFactor : Q;
  depositionRate : Q;
  evaporationRate : Q;
  minVolume : Q;
  initialVolume : Q;
  initialSpeed : Q;
  maxDropletLifetime : Q;
  slopeMapFactor : Q
}.

(** The defaults of the constructor's [Object.assign]. *)
Definition defaultParams : Params := {|
  inertia := 5 # 100;
  friction := 2 # 100;
  sedimentCapacityFactor := 4;
  depositionRate := 3 # 10;
  evaporationRate := 1 # 100;
  minVolume := 1 # 100;
  initialVolume := 1;
  initialSpeed := 1;
  maxDropletLifetime := 30;
  slopeMapFactor := 1 # 1000
|}.

Record Droplet := {
  x : Q;
  y : Q;
  dx : Q;
  dy : Q;
  speed : Q;
  water : Q;
  sediment : Q;
  lifetime : Z;
  alive : bool
}.

(** The fields of [this].  [droplets] and [dropletsActive] are undefined
    until [resetDroplets] runs. *)
Record t := {
  width : Z;
  height : Z;
  heightMap : Float32Array;
  params : Params;
  droplets : option (list Droplet);
  dropletsActive : option bool
}.

(** [constructor(width, height, heightMap, params)], with [params] the
    object after the merge with the defaults. *)
Definition constructor (w h : Z) (hm : Float32Array) (p : Params) : t := {|
  width := w;
  height := h;
  heightMap := hm;
  params := p;
  droplets := None;
  dropletsActive := None
|}.

Definition _createDroplet (this : t) (r : RandomSource) : Droplet * RandomSource :=
  let '(rx, r1) := Math_random r in
  let '(ry, r2) := Math_random r1 in
  ({| x := rx * inject_Z (width this - 2) + 1;
      y := ry * inject_Z (height this - 2) + 1;
      dx := 0;
      dy := 0;
      speed := initialSpeed (params this);
      water := initialVolume (params this);
      sediment := 0;
      lifetime := 0;
      alive := true |}, r2).

(** The loop of [resetDroplets]: [n] pushes ([n <= 0] pushes nothing). *)
Fixpoint createDroplets (this : t) (n : nat) (r : RandomSource)
  : list Droplet * RandomSource :=
  match n with
  | O => ([], r)
  | S n' =>
      let '(d, r1) := _createDroplet this r in
      let '(ds, r2) := createDroplets this n' r1 in
      (d :: ds, r2)
  end.

Definition resetDroplets (this : t) (numDroplets : Z) (r : RandomSource)
  : t * RandomSource :=
  let '(ds, r') := createDroplets this (Z.to_nat numDroplets) r in
  ({| width := width this;
      height := height this;
      heightMap := heightMap this;
      params := params this;
      droplets := Some ds;
      dropletsActive := Some true |}, r').

Definition set_heightMap (this : t) (hm : Float32Array) : t := {|
  width := width this;
  height := height this;
  heightMap := hm;
  params := params this;
  droplets := droplets this;
  dropletsActive := dropletsActive this
|}.

Definition set_dropletsActive (this : t) (b : bool) : t := {|
  width := width this;
  height := height this;
  heightMap := heightMap this;
  params := params this;
  droplets := droplets this;
  dropletsActive := Some b
|}.

(** [start(numDroplets, resetHeightmap, initialHeightMap)]. *)
Definition start (this : t) (numDroplets : Z) (resetHeightmap : bool)
    (initialHeightMap : option Float32Array) (r : RandomSource)
  : t * RandomSource :=
  let this1 :=
    match resetHeightmap, initialHeightMap with
    | true, Some hm => set_heightMap this hm
    | _, _ => this
    end in
  resetDroplets this1 numDroplets r.

Definition pause (this : t) : t := set_dropletsActive this false.
Definition resume (this : t) : t := set_dropletsActive this true.
Definition cloneHeightMap (this : t) : Float32Array := heightMap this.
Definition resetHeightMap (this : t) (hm : Float32Array) : t :=
  set_heightMap this hm.

(** [static setSeed(seed)]: the generator that replaces [Math.random]. *)
Definition setSeed (seed : Z) : RandomSource :=
  let s := Z.rem seed 2147483647 in
  Lcg (if (s <=? 0)%Z then s + 2147483646 else s)%Z.

Definition toIndex (w : Z) (x y : Z) : Z := y * w + x.

Definition _bilinearInterp (this : t) (hm : Float32Array) (x y : Q) : res Q :=
  let w := width this in
  let cellX := Qfloor x in
  let cellY := Qfloor y in
  let offX := x - inject_Z cellX in
  let offY := y - inject_Z cellY in
  if (cellX <? 0)%Z || (cellY <? 0)%Z || (cellX >=? w - 1)%Z
     || (cellY >=? height this - 1)%Z
  then Ok 0
  else
    h00 ← f32_get hm (toIndex w cellX cellY);
    h10 ← f32_get hm (toIndex w (cellX + 1) cellY);
    h01 ← f32_get hm (toIndex w cellX (cellY + 1));
    h11 ← f32_get hm (toIndex w (cellX + 1) (cellY + 1));
    Ok (h00 * (1 - offX) * (1 - offY) + h10 * offX * (1 - offY)
        + h01 * (1 - offX) * offY + h11 * offX * offY).

Definition _calcGradient (this : t) (hm : Float32Array) (x y : Q)
  : res (Q * Q) :=
  let w := width this in
  let cellX := Qfloor x in
  let cellY := Qfloor y in
  if (cellX <? 1)%Z || (cellY <? 1)%Z || (cellX >=? w - 2)%Z
     || (cellY >=? height this - 2)%Z
  then Ok (0, 0)
  else
    hL ← _bilinearInterp this hm (x - 1) y;
    hR ← _bilinearInterp this hm (x + 1) y;
    hD ← _bilinearInterp this hm x (y - 1);
    hU ← _bilinearInterp this hm x (y + 1);
    Ok ((hR - hL) * (1 # 2), (hU - hD) * (1 # 2)).

(** [heightMap[i] += v]. *)
Definition f32_add (hm : Float32Array) (i : Z) (v : Q) : res Float32Array :=
  a ← f32_get hm i; Ok (f32_set hm i (a + v)).

(** [heightMap[i] = Math.max(0, heightMap[i])]. *)
Definition f32_clamp0 (hm : Float32Array) (i : Z) : res Float32Array :=
  a ← f32_get hm i; Ok (f32_set hm i (Qmax 0 a)).

Definition _bilinearAdd (this : t) (hm : Float32Array) (x y : Z)
    (offX offY value : Q) : res Float32Array :=
  let w00 := (1 - offX) * (1 - offY) in
  let w10 := offX * (1 - offY) in
  let w01 := (1 - offX) * offY in
  let w11 := offX * offY in
  let w := width this in
  if (x >=? 0)%Z && (y >=? 0)%Z && (x <? w - 1)%Z && (y <? height this - 1)%Z
  then
    hm1 ← f32_add hm (toIndex w x y) (value * w00);
    hm2 ← f32_add hm1 (toIndex w (x + 1) y) (value * w10);
    hm3 ← f32_add hm2 (toIndex w x (y + 1)) (value * w01);
    hm4 ← f32_add hm3 (toIndex w (x + 1) (y + 1)) (value * w11);
    hm5 ← f32_clamp0 hm4 (toIndex w x y);
    hm6 ← f32_clamp0 hm5 (toIndex w (x + 1) y);
    hm7 ← f32_clamp0 hm6 (toIndex w x (y + 1));
    f32_clamp0 hm7 (toIndex w (x + 1) (y + 1))
  else Ok hm.

Definition _bilinearMin (this : t) (hm : Float32Array) (x y : Z) : res Q :=
  let w := width this in
  if (x >=? 0)%Z && (y >=? 0)%Z && (x <? w - 1)%Z && (y <? height this - 1)%Z
  then
    h00 ← f32_get hm (toIndex w x y);
    h10 ← f32_get hm (toIndex w (x + 1) y);
    h01 ← f32_get hm (toIndex w x (y + 1));
    h11 ← f32_get hm (toIndex w (x + 1) (y + 1));
    Ok (Qmin (Qmin (Qmin h00 h10) h01) h11)
  else Ok 0.

Definition set_motion (d : Droplet) (x' y' dx' dy' : Q) (alive' : bool)
  : Droplet := {|
  x := Qred x'; y := Qred y'; dx := Qred dx'; dy := Qred dy';
  speed := speed d; water := water d; sediment := sediment d;
  lifetime := lifetime d; alive := alive'
|}.

Definition set_speed (d : Droplet) (s : Q) : Droplet := {|
  x := x d; y := y d; dx := dx d; dy := dy d;
  speed := Qred s; water := water d; sediment := sediment d;
  lifetime := lifetime d; alive := alive d
|}.

Definition set_sediment (d : Droplet) (s : Q) : Droplet := {|
  x := x d; y := y d; dx := dx d; dy := dy d;
  speed := speed d; water := water d; sediment := Qred s;
  lifetime := lifetime d; alive := alive d
|}.

(** The "Erode or deposit" statement of [stepDroplets] (lines 126-138);
    [cellX], [cellY], [offX], [offY] are those computed at the start of
    the step. *)
Definition erodeOrDeposit (this : t) (hm : Float32Array) (d : Droplet)
    (cellX cellY : Z) (offX offY capacity newH : Q)
  : res (Droplet * Float32Array) :=
  let p := params this in
  if Qltb capacity (sediment d) then
    let deposit := (sediment d - capacity) * depositionRate p in
    hm' ← _bilinearAdd this hm cellX cellY offX offY deposit;
    Ok (set_sediment d (sediment d - deposit), hm')
  else
    let erode := Qmin ((capacity - sediment d) * depositionRate p) newH in
    if Qltb 0 erode then
      hm' ← _bilinearAdd this hm cellX cellY offX offY (- erode);
      Ok (set_sediment d (sediment d + erode), hm')
    else Ok (d, hm).

(** "Evaporate" and the kill test (lines 139-145). *)
Definition evaporateAndAge (this : t) (d : Droplet) : Droplet :=
  let p := params this in
  let water' := water d * (1 - evaporationRate p) in
  let lifetime' := (lifetime d + 1)%Z in
  {| x := x d; y := y d; dx := dx d; dy := dy d;
     speed := speed d; water := Qred water'; sediment := sediment d;
     lifetime := lifetime';
     alive :=
       if Qltb water' (minVolume p)
          || Qltb (maxDropletLifetime p) (inject_Z lifetime')
          || Qltb (speed d) (1 # 100)
       then false else alive d |}.

(** One pass through the body of the inner [for (step ...)] loop, for a
    droplet that is alive. *)
Definition stepDroplet `{Runtime} (this : t) (hm : Float32Array)
    (d : Droplet) : res (Droplet * Float32Array) :=
  let p := params this in
  let cellX := Qfloor (x d) in
  let cellY := Qfloor (y d) in
  let offX := x d - inject_Z cellX in
  let offY := y d - inject_Z cellY in
  h ← _bilinearInterp this hm (x d) (y d);
  grad ← _calcGradient this hm (x d) (y d);
  let dx1 := dx d * inertia p - fst grad * (1 - inertia p) in
  let dy1 := dy d * inertia p - snd grad * (1 - inertia p) in
  let len := Math_sqrt (dx1 * dx1 + dy1 * dy1) in
  let dx2 := if Qeq_bool len 0 then dx1 else dx1 / len in
  let dy2 := if Qeq_bool len 0 then dy1 else dy1 / len in
  let x' := x d + dx2 in
  let y' := y d + dy2 in
  if Qltb x' 1 || Qltb (inject_Z (width this - 2)) x'
     || Qltb y' 1 || Qltb (inject_Z (height this - 2)) y'
  then Ok (set_motion d x' y' dx2 dy2 false, hm)
  else
    let d1 := set_motion d x' y' dx2 dy2 (alive d) in
    newH ← _bilinearInterp this hm x' y';
    let deltaH := newH - h in
    let speed1 :=
      Math_sqrt (Qmax 0 (speed d1 * speed d1 + deltaH * - (981 # 100))) in
    let d2 := set_speed d1 (speed1 * (1 - friction p)) in
    let capacity :=
      Qmax (- deltaH) (1 # 100) * speed d2 * water d2
      * sedimentCapacityFactor p in
    '(d3, hm') ← erodeOrDeposit this hm d2 cellX cellY offX offY capacity newH;
    Ok (evaporateAndAge this d3, hm').

(** The outer loop of [stepDroplets] over the pool, from the current
    index on, with [activeCount] droplets stepped so far. *)
Fixpoint stepLoop `{Runtime} (this : t) (batchSize : Z) (ds : list Droplet)
    (activeCount : Z) (hm : Float32Array)
  : res (list Droplet * Float32Array) :=
  match ds with
  | [] => Ok ([], hm)
  | d :: rest =>
      if (activeCount <? batchSize)%Z then
        if alive d then
          '(d', hm1) ← stepDroplet this hm d;
          '(rest', hm2) ← stepLoop this batchSize rest (activeCount + 1)%Z hm1;
          Ok (d' :: rest', hm2)
        else
          '(rest', hm2) ← stepLoop this batchSize rest activeCount hm;
          Ok (d :: rest', hm2)
      else Ok (ds, hm)
  end.

(** [stepDroplets(batchSize)]: the simulator after the call and the value
    returned.  The [onStep] callback receives a copy of the heightmap and
    is not part of the simulator. *)
Definition stepDroplets `{Runtime} (this : t) (batchSize : Z)
  : res (bool * t) :=
  match droplets this with
  | None => Fault TypeError
  | Some ds =>
      '(ds', hm') ← stepLoop this batchSize ds 0%Z (heightMap this);
      Ok (existsb alive ds',
          {| width := width this;
             height := height this;
             heightMap := hm';
             params := params this;
             droplets := Some ds';
             dropletsActive := dropletsActive this |})
  end.

(** A run of [stepDroplets] calls, one per batch size. *)
Fixpoint stepMany `{Runtime} (this : t) (batches : list Z) : res t :=
  match batches with
  | [] => Ok this
  | b :: bs => '(_, this') ← stepDroplets this b; stepMany this' bs
  end.

End ErosionSimulator.

(** ** src/services/HeightfieldService.js *)

Module HeightfieldService.

Abbreviation Int32Array := (list Z).

Definition i32_get (a : Int32Array) (i : Z) : res Z :=
  if (i <? 0)%Z then Fault OutOfRange
  else match a !! Z.to_nat i with
       | Some v => Ok v
       | None => Fault OutOfRange
       end.

Definition i32_set (a : Int32Array) (i : Z) (v : Z) : Int32Array :=
  if (i <? 0)%Z then a else <[Z.to_nat i := v]> a.

(** The pairs [(dx, dy)] in the order of the two inner loops, without
    [(0, 0)]. *)
Definition neighbourOffsets : list (Z * Z) :=
  [(-1, -1); (0, -1); (1, -1); (-1, 0); (1, 0); (-1, 1); (0, 1); (1, 1)]%Z.

(** One iteration of the neighbour scan: the running [(minZ, minIdx)]. *)
Definition scanNeighbour (hm : Float32Array) (w h x y : Z)
    (acc : Q * Z) (d : Z * Z) : res (Q * Z) :=
  let nx := (x + fst d)%Z in
  let ny := (y + snd d)%Z in
  if (nx <? 0)%Z || (nx >=? w)%Z || (ny <? 0)%Z || (ny >=? h)%Z then Ok acc
  else
    let nIdx := (ny * w + nx)%Z in
    z ← f32_get hm nIdx;
    Ok (if Qltb z (fst acc) then (z, nIdx) else acc).

(** The downslope target of cell [(x, y)]. *)
Definition downslopeOf (hm : Float32Array) (w h x y : Z) : res Z :=
  let idx := (y * w + x)%Z in
  minZ ← f32_get hm idx;
  acc ← foldM (scanNeighbour hm w h x y) neighbourOffsets (minZ, idx);
  Ok (snd acc).

(** The first pair of loops: the [downslope] array. *)
Definition computeDownslope (hm : Float32Array) (w h : Z) : res Int32Array :=
  foldM (fun ds y =>
           foldM (fun ds x =>
                    m ← downslopeOf hm w h x y;
                    Ok (i32_set ds (y * w + x) m))
                 (seqZ 0 w) ds)
        (seqZ 0 h) (replicate (Z.to_nat (w * h)) 0%Z).

(** [Array.prototype.sort] is stable: an index is placed before the first
    later one whose height is not smaller.  Elements are pairs of an index
    and the height read for it. *)
Fixpoint insertByHeight (a : Z * Q) (l : list (Z * Q)) : list (Z * Q) :=
  match l with
  | [] => [a]
  | b :: l' =>
      if Qle_bool (snd a) (snd b) then a :: b :: l'
      else b :: insertByHeight a l'
  end.

Definition sortByHeight (l : list (Z * Q)) : list (Z * Q) :=
  foldr insertByHeight [] l.

(** The body of the accumulation loop for one index. *)
Definition accumulate (downslope : Int32Array) (flowMap : Float32Array)
    (idx : Z) : res Float32Array :=
  ds ← i32_get downslope idx;
  if (ds =? idx)%Z then Ok flowMap
  else
    f ← f32_get flowMap idx;
    t ← f32_get flowMap ds;
    Ok (f32_set flowMap ds (t + f)).

Definition computeFlowMap (hm : Float32Array) (w h : Z) : res Float32Array :=
  flowMap ← f32_filled (w * h) 1;
  downslope ← computeDownslope hm w h;
  let indices := seqZ 0 (w * h) in
  keyed ← mapM (fun i => z ← f32_get hm i; Ok (i, z)) indices;
  foldM (accumulate downslope) (map fst (sortByHeight keyed)) flowMap.

(** The flow summed over the sinks, the cells that are their own
    downslope target. *)
Fixpoint sinkFlowFrom (i : Z) (downslope : Int32Array)
    (flowMap : Float32Array) : Q :=
  match downslope, flowMap with
  | d :: ds, f :: fs =>
      (if (d =? i)%Z then f else 0) + sinkFlowFrom (i + 1)%Z ds fs
  | _, _ => 0
  end.

Definition sinkFlow (downslope : Int32Array) (flowMap : Float32Array) : Q :=
  sinkFlowFrom 0%Z downslope flowMap.

(** One assignment [map[dst] = map[src]] of the edge loops. *)
Definition copyCell (m : Float32Array) (dst src : Z) : res Float32Array :=
  v ← f32_get m src; Ok (f32_set m dst v).

(** The two edge loops shared by [computeSlopeMap] and
    [computeCurvatureMap]: first the top and bottom rows, then the left and
    right columns. *)
Definition copyEdges (m : Float32Array) (w h : Z) : res Float32Array :=
  m1 ← foldM (fun m x =>
                m' ← copyCell m x (w + x);
                copyCell m' ((h - 1) * w + x) ((h - 2) * w + x))
         (seqZ 0 w) m;
  foldM (fun m y =>
           m' ← copyCell m (y * w) (y * w + 1);
           copyCell m' (y * w + (w - 1)) (y * w + (w - 2)))
    (seqZ 0 h) m1.

(** The body of the interior loops of [computeSlopeMap].  The spacings
    [dx] and [dy] are computed before the loops in the source; they are
    used here only. *)
Definition slopeCell `{Runtime} (hm : Float32Array) (w h : Z)
    (worldWidth worldHeight : Q) (y : Z) (slopeMap : Float32Array) (x : Z)
  : res Float32Array :=
  dx ← Qdiv_js worldWidth (inject_Z (w - 1));
  dy ← Qdiv_js worldHeight (inject_Z (h - 1));
  let idx := (y * w + x)%Z in
  hE ← f32_get hm (idx + 1);
  hW ← f32_get hm (idx - 1);
  hN ← f32_get hm (idx - w);
  hS ← f32_get hm (idx + w);
  dzdx ← Qdiv_js (hE - hW) (2 * dx);
  dzdy ← Qdiv_js (hN - hS) (2 * dy);
  Ok (f32_set slopeMap idx (Math_sqrt (dzdx * dzdx + dzdy * dzdy))).

Definition computeSlopeMap `{Runtime} (hm : Float32Array) (w h : Z)
    (worldWidth worldHeight : Q) : res Float32Array :=
  slopeMap ← f32_new (w * h);
  interior ←
    foldM (fun m y => foldM (slopeCell hm w h worldWidth worldHeight y)
                        (seqZ 1 (w - 2)) m)
      (seqZ 1 (h - 2)) slopeMap;
  copyEdges interior w h.

(** The body of the interior loops of [computeCurvatureMap]. *)
Definition curvatureCell (hm : Float32Array) (w h : Z) (worldWidth : Q)
    (y : Z) (curvatureMap : Float32Array) (x : Z) : res Float32Array :=
  dd ← Qdiv_js worldWidth (inject_Z (w - 1));
  let idx := (y * w + x)%Z in
  zc ← f32_get hm idx;
  zx1 ← f32_get hm (idx + 1);
  zx0 ← f32_get hm (idx - 1);
  zy1 ← f32_get hm (idx + w);
  zy0 ← f32_get hm (idx - w);
  v ← Qdiv_js (zx1 + zx0 + zy1 + zy0 - 4 * zc) (dd * dd);
  Ok (f32_set curvatureMap idx v).

Definition computeCurvatureMap (hm : Float32Array) (w h : Z)
    (worldWidth worldHeight : Q) : res Float32Array :=
  curvatureMap ← f32_new (w * h);
  interior ←
    foldM (fun m y => foldM (curvatureCell hm w h worldWidth y)
                        (seqZ 1 (w - 2)) m)
      (seqZ 1 (h - 2)) curvatureMap;
  copyEdges interior w h.

End HeightfieldService.

(** ** src/services/HeightmapGenerationService.js *)

Module HeightmapGenerationService.

(** The object built by [new WorleyNoise(...)] and the [addPoint] calls,
    or the fallback object of the [catch] branch: its [points] property
    and [getEuclidean({x, y}, 1)], where [None] is [Infinity]. *)
Record WorleyInstance := {
  points : option (list (Q * Q));
  getEuclidean : Q -> Q -> option Q
}.

(** The imported packages [alea], [noisejs] and [worley-noise]:
    [Alea seed n] is the [n]-th number returned by the generator
    [Alea(seed)]; [simplex2 s x y] is [new Noise(s).simplex2(x, y)];
    [WorleyNoise numPoints seed dim pts] is the object after the
    constructor and one [addPoint] per element of [pts], or the exception
    thrown on the way. *)
Class NoiseLib := {
  Alea : Q -> nat -> Q;
  simplex2 : Q -> Q -> Q -> Q;
  perlin2 : Q -> Q -> Q -> Q;
  WorleyNoise : Z -> Z -> Q -> list (Q * Q) -> res WorleyInstance
}.

Class Trig := { Math_cos : Q -> Q; Math_sin : Q -> Q }.

(** [effectiveParams]: the parameters after the merge with the defaults. *)
Record Params := {
  seed : Q;
  octaves : Z;
  ridgedOffset : Q;
  gain : Q;
  lacunarity : Q;
  amplitude : Q;
  domainWarpStrength : Q;
  domainWarpFreq : Q;
  frequency : Q;
  worleyPoints : Q;
  worleySeed : Q;
  worleyDimension : Q;
  windDirection : Q;
  meshResolution : Z;
  size : Q;
  applySmoothing : bool;
  smoothIterations : Z;
  smoothFactor : Q
}.

(** The object returned by [generateTerrainInternal]. *)
Record Heightfield := {
  heightmap : Float32Array;
  width : Z;
  height : Z
}.

Definition clamp01Internal (v : Q) : Q := Qmax 0 (Qmin 1 v).

(** [THREE.MathUtils.lerp]. *)
Definition lerp (x y t : Q) : Q := (1 - t) * x + t * y.

Definition kernelEntry (x y : Z) (weight : Q) : Z * Z * Q := (x, y, weight).

Definition smoothKernel : list (Z * Z * Q) :=
  [kernelEntry (-1) (-1) (1 # 2); kernelEntry 0 (-1) 1;
   kernelEntry 1 (-1) (1 # 2);
   kernelEntry (-1) 0 1; kernelEntry 1 0 1;
   kernelEntry (-1) 1 (1 # 2); kernelEntry 0 1 1; kernelEntry 1 1 (1 # 2)].

(** One kernel entry of the second neighbour loop: the running
    [(currentSum, currentTotalWeight)]. *)
Definition smoothNeighbour (currentPassZ : Float32Array) (mapWidth mapHeight x y : Z)
    (acc : Q * Q) (k : Z * Z * Q) : res (Q * Q) :=
  let '(kx, ky, weight) := k in
  let nx := (x + kx)%Z in
  let ny := (y + ky)%Z in
  if (nx >=? 0)%Z && (nx <? mapWidth)%Z && (ny >=? 0)%Z && (ny <? mapHeight)%Z
  then
    z ← f32_get currentPassZ (ny * mapWidth + nx);
    Ok (fst acc + z * weight, snd acc + weight)
  else Ok acc.

(** The body of the loop over [i] of one smoothing pass.  The first
    neighbour loop of the source computes [sum] and [totalWeight], which
    are not used; it is left out.  With [mapWidth = 0] the coordinates
    are NaN and no neighbour passes the bounds test. *)
Definition smoothCell (currentPassZ : Float32Array) (mapWidth mapHeight : Z)
    (factor : Q) (tempPositionsZ : Float32Array) (i : Z) : res Float32Array :=
  let x := Z.rem i mapWidth in
  let y := (i / mapWidth)%Z in
  c ← f32_get currentPassZ i;
  acc ← (if (mapWidth =? 0)%Z then Ok (c, 1)
         else foldM (smoothNeighbour currentPassZ mapWidth mapHeight x y)
                smoothKernel (c, 1));
  let avg := fst acc / snd acc in
  Ok (f32_set tempPositionsZ i (lerp c avg factor)).

Definition smoothPass (mapWidth mapHeight : Z) (factor : Q)
    (tempPositionsZ : Float32Array) (iter : Z) : res Float32Array :=
  let currentPassZ := tempPositionsZ in
  foldM (smoothCell currentPassZ mapWidth mapHeight factor)
    (seqZ 0 (Z.of_nat (length tempPositionsZ))) tempPositionsZ.

(** [applySmoothingInternal]: the array [vertexPositions] after the call.
    [vertexPositions.length / 3] is the array length of the copy (rounded
    down) and the bound of the loops over [i] (rounded up). *)
Definition applySmoothingInternal (vertexPositions : Float32Array)
    (mapWidth mapHeight : Z) (smoothIterations : Z) (smoothFactor : Q)
  : res Float32Array :=
  let len := Z.of_nat (length vertexPositions) in
  let cells := seqZ 0 ((len + 2) / 3) in
  tempPositionsZ ←
    foldM (fun tmp i => z ← f32_get vertexPositions (i * 3 + 2);
                        Ok (f32_set tmp i z))
      cells (replicate (Z.to_nat (len / 3)) 0);
  let iterations := if (smoothIterations =? 0)%Z then 1%Z else smoothIterations in
  let factor := if Qeq_bool smoothFactor 0 then 1 # 2 else smoothFactor in
  smoothed ← foldM (smoothPass mapWidth mapHeight factor)
               (seqZ 0 iterations) tempPositionsZ;
  foldM (fun vp i => z ← f32_get smoothed i; Ok (f32_set vp (i * 3 + 2) z))
    cells vertexPositions.

Definition createWorleyPointsInternal `{NoiseLib} (count : Z) (seed : Q)
  : list (Q * Q) :=
  map (fun i => (Alea seed (2 * i), Alea seed (2 * i + 1)))
      (seq 0 (Z.to_nat count)).

(** [getEuclidean] of the fallback object; [None] is [Infinity]. *)
Definition nearestDistance `{Runtime} (pts : list (Q * Q)) (px py : Q)
  : option Q :=
  foldl (fun minDist pt =>
           let dx := px - fst pt in
           let dy := py - snd pt in
           let dist := Math_sqrt (dx * dx + dy * dy) in
           Some (match minDist with
                 | None => dist
                 | Some m => Qmin m dist
                 end))
        None pts.

Definition fallbackWorley `{Runtime} (pts : list (Q * Q)) : WorleyInstance := {|
  points := Some pts;
  getEuclidean := nearestDistance pts
|}.

(** The [try ... catch] that builds [worleyInstance]. *)
Definition initWorley `{Runtime} `{NoiseLib} (p : Params) : WorleyInstance :=
  let numWorleyPoints := Z.max 128 (Z.min 4096 (Qfloor (worleyPoints p))) in
  let worleySeedActual :=
    if Qeq_bool (worleySeed p) 0 then seed p else worleySeed p in
  let worleyPointsArray :=
    createWorleyPointsInternal numWorleyPoints worleySeedActual in
  let attempt :=
    inst ← WorleyNoise (Z.of_nat (length worleyPointsArray))
              (Qfloor worleySeedActual) (worleyDimension p) worleyPointsArray;
    match points inst with
    | None | Some [] => Fault Thrown
    | Some _ => Ok inst
    end in
  match attempt with
  | Ok inst => inst
  | Fault _ => fallbackWorley worleyPointsArray
  end.

Definition ridge (offset v : Q) : Q :=
  let r := offset - Qabs v in r * r.

(** One pass of the loop over the octaves: the running
    [(h, currentAmp, currentFreq)]. *)
Definition octave `{NoiseLib} (p : Params) (noiseSeed : Q)
    (worleyInstance : WorleyInstance) (dirX dirY worldX worldY : Q)
    (st : Q * Q * Q) (o : nat) : res (Q * Q * Q) :=
  let '(h, currentAmp, currentFreq) := st in
  let worldSize := size p in
  let warpNoiseFreq := domainWarpFreq p * Qpower (lacunarity p) (Z.of_nat o) in
  let warpNoiseAmp := domainWarpStrength p * currentAmp in
  let warpOffsetX :=
    simplex2 noiseSeed (worldX * warpNoiseFreq) (worldY * warpNoiseFreq)
    * warpNoiseAmp * dirX in
  let warpOffsetY :=
    simplex2 noiseSeed (worldX * warpNoiseFreq + 100)
      (worldY * warpNoiseFreq + 100)
    * warpNoiseAmp * dirY in
  let warpedX := worldX + warpOffsetX in
  let warpedY := worldY + warpOffsetY in
  let vSimplex :=
    simplex2 noiseSeed (warpedX * currentFreq) (warpedY * currentFreq) in
  let vPerlin :=
    perlin2 noiseSeed (warpedX * currentFreq) (warpedY * currentFreq) in
  qx ← Qdiv_js warpedX worldSize;
  qy ← Qdiv_js warpedY worldSize;
  let normX := clamp01Internal (qx + (1 # 2)) in
  let normY := clamp01Internal (qy + (1 # 2)) in
  e ← match getEuclidean worleyInstance normX normY with
      | Some e => Ok e
      | None => Fault NonFinite
      end;
  let vWorley := 1 - 2 * e in
  let v :=
    (ridge (ridgedOffset p) vSimplex + ridge (ridgedOffset p) vPerlin
     + ridge (ridgedOffset p) vWorley) / 3 in
  let microDetail :=
    simplex2 noiseSeed (warpedX * currentFreq * 4) (warpedY * currentFreq * 4)
    * (1 # 10) in
  let v' := v + microDetail in
  Ok (h + v' * currentAmp, currentAmp * gain p, currentFreq * lacunarity p).

(** The body of the first pair of loops for cell [(ix, iy)]: the running
    [(heightmapArray, vertexPositionsForSmoothing)]. *)
Definition sampleCell `{NoiseLib} (p : Params) (noiseSeed : Q)
    (worleyInstance : WorleyInstance) (dirX dirY : Q) (gridWidth gridHeight : Z)
    (iy : Z) (arrays : Float32Array * Float32Array) (ix : Z)
  : res (Float32Array * Float32Array) :=
  let '(heightmapArray, vps) := arrays in
  fx ← Qdiv_js (inject_Z ix) (inject_Z (gridWidth - 1));
  fy ← Qdiv_js (inject_Z iy) (inject_Z (gridHeight - 1));
  let worldX := (fx - (1 # 2)) * size p in
  let worldY := (fy - (1 # 2)) * size p in
  st ← foldM (octave p noiseSeed worleyInstance dirX dirY worldX worldY)
        (seq 0 (Z.to_nat (octaves p))) (0, 1, frequency p);
  let h := fst (fst st) in
  let valueIndex := (iy * gridWidth + ix)%Z in
  let heightmapArray' := f32_set heightmapArray valueIndex (h * amplitude p) in
  let vps1 := f32_set vps (valueIndex * 3 + 0) (inject_Z ix) in
  let vps2 := f32_set vps1 (valueIndex * 3 + 1) (inject_Z iy) in
  z ← f32_get heightmapArray' valueIndex;
  Ok (heightmapArray', f32_set vps2 (valueIndex * 3 + 2) z).

(** The body of the edge-blending loops for cell [(ix, iy)]. *)
Definition blendCell (gridWidth gridHeight : Z) (iy : Z) (vps : Float32Array)
    (ix : Z) : res Float32Array :=
  let margin := 1%Z in
  let edgeDistX := Z.min ix (gridWidth - 1 - ix) in
  let edgeDistY := Z.min iy (gridHeight - 1 - iy) in
  let edgeDist := Z.min edgeDistX edgeDistY in
  if (edgeDist <? margin)%Z then
    let t := inject_Z edgeDist / inject_Z margin in
    let valueIndex := (iy * gridWidth + ix)%Z in
    z ← f32_get vps (valueIndex * 3 + 2);
    Ok (f32_set vps (valueIndex * 3 + 2) (z * t))
  else Ok vps.

Definition generateTerrainInternal `{Engine} `{Runtime} `{Trig} `{NoiseLib}
    (p : Params)
  : res Heightfield :=
  let gridWidth := (meshResolution p + 1)%Z in
  let gridHeight := (meshResolution p + 1)%Z in
  let noiseSeed := Alea (seed p) 0 in
  let worleyInstance := initWorley p in
  let dirX := Math_cos (windDirection p) in
  let dirY := Math_sin (windDirection p) in
  heightmapArray ← f32_alloc (gridWidth * gridHeight);
  vps ← f32_alloc (gridWidth * gridHeight * 3);
  arrays ←
    foldM (fun arrays iy =>
             foldM (sampleCell p noiseSeed worleyInstance dirX dirY
                      gridWidth gridHeight iy)
                   (seqZ 0 gridWidth) arrays)
          (seqZ 0 gridHeight) (heightmapArray, vps);
  blended ←
    foldM (fun vps iy => foldM (blendCell gridWidth gridHeight iy)
                           (seqZ 0 gridWidth) vps)
          (seqZ 0 gridHeight) (snd arrays);
  smoothed ←
    (if applySmoothing p
     then applySmoothingInternal blended gridWidth gridHeight
            (smoothIterations p) (smoothFactor p)
     else Ok blended);
  final ←
    foldM (fun hm i => z ← f32_get smoothed (i * 3 + 2); Ok (f32_set hm i z))
      (seqZ 0 (gridWidth * gridHeight)) (fst arrays);
  Ok {| heightmap := final; width := gridWidth; height := gridHeight |}.

End HeightmapGenerationService.

(** ** A runtime and sample inputs for evaluation *)

(** A square root that is exact on the squares of rationals (and rounds the
    numerator and the denominator down elsewhere). *)
Definition Qsqrt (q : Q) : Q :=
  let r := Qred q in Z.sqrt (Qnum r) # Pos.sqrt (Qden r).

Definition squareRootRuntime : Runtime := {| Math_sqrt := Qsqrt |}.

(** An engine that allocates typed arrays of up to 2^32 - 1 numbers. *)
Definition sampleEngine : Engine := {| maxTypedArrayLength := 4294967295 |}.

(** A [Math.random] that returns [q] at every draw. *)
Definition constantDraws (q : Q) : RandomSource := Native (fun _ => q) 0.

(** A 6 x 6 heightfield of zeros, one droplet started at (2, 2). *)
Definition flatSimulator : ErosionSimulator.t :=
  fst (ErosionSimulator.start
         (ErosionSimulator.constructor 6 6 (replicate 36 0)
            ErosionSimulator.defaultParams)
         1 false None (constantDraws (1 # 4))).

(** A 6 x 6 checkerboard of heights 0 and 2 (cell (x, y) holds 2 when x + y
    is odd), one droplet started at (5/2, 5/2). *)
Definition checkerboard : Float32Array :=
  [0; 2; 0; 2; 0; 2;
   2; 0; 2; 0; 2; 0;
   0; 2; 0; 2; 0; 2;
   2; 0; 2; 0; 2; 0;
   0; 2; 0; 2; 0; 2;
   2; 0; 2; 0; 2; 0].

Definition checkerboardSimulator : ErosionSimulator.t :=
  fst (ErosionSimulator.start
         (ErosionSimulator.constructor 6 6 checkerboard
            ErosionSimulator.defaultParams)
         1 false None (constantDraws (3 # 8))).

(** Cosine and sine by their Taylor polynomials of degree 6 and 7. *)
Definition taylorTrig : HeightmapGenerationService.Trig := {|
  HeightmapGenerationService.Math_cos := fun a =>
    1 - a * a / 2 + a * a * a * a / 24 - a * a * a * a * a * a / 720;
  HeightmapGenerationService.Math_sin := fun a =>
    a - a * a * a / 6 + a * a * a * a * a / 120
    - a * a * a * a * a * a * a / 5040
|}.

(** A stand-in for the noise packages: the generator returns 1/2, 1/3,
    1/4, ..., the gradient noises are 0 everywhere and the cellular-noise
    constructor throws, which selects the fallback. *)
Definition stubNoise : HeightmapGenerationService.NoiseLib := {|
  HeightmapGenerationService.Alea := fun _ n => 1 # Pos.of_nat (n + 2);
  HeightmapGenerationService.simplex2 := fun _ _ _ => 0;
  HeightmapGenerationService.perlin2 := fun _ _ _ => 0;
  HeightmapGenerationService.WorleyNoise := fun _ _ _ _ => Fault Thrown
|}.

(** The default generation parameters of the module, with a seed and a
    mesh resolution; pi / 4 is given to 12 digits. *)
Definition generationParams (seed : Q) (meshResolution : Z)
  : HeightmapGenerationService.Params := {|
  HeightmapGenerationService.seed := seed;
  HeightmapGenerationService.octaves := 6;
  HeightmapGenerationService.ridgedOffset := 1 # 2;
  HeightmapGenerationService.gain := 1 # 2;
  HeightmapGenerationService.lacunarity := 2;
  HeightmapGenerationService.amplitude := 1;
  HeightmapGenerationService.domainWarpStrength := 35 # 100;
  HeightmapGenerationService.domainWarpFreq := 8 # 100;
  HeightmapGenerationService.frequency := 15 # 100;
  HeightmapGenerationService.worleyPoints := 1024;
  HeightmapGenerationService.worleySeed := 0;
  HeightmapGenerationService.worleyDimension := 2;
  HeightmapGenerationService.windDirection := 785398163397 # 1000000000000;
  HeightmapGenerationService.meshResolution := meshResolution;
  HeightmapGenerationService.size := 1000;
  HeightmapGenerationService.applySmoothing := true;
  HeightmapGenerationService.smoothIterations := 1;
  HeightmapGenerationService.smoothFactor := 1 # 2
|}.

(** A 3 x 3 heightfield that is the plane [x + y]. *)
Definition slopedField : Float32Array := [0; 1; 2; 1; 2; 3; 2; 3; 4].

(** A 2 x 2 grid of vertices (x, y, height) with heights 0, 1, 1, 0. *)
Definition sampleVertices : Float32Array :=
  [0; 0; 0;  1; 0; 1;  0; 1; 1;  1; 1; 0].

(** Generation parameters with one octave, the smallest set of feature
    points and smoothing switched off. *)
Definition unsmoothedParams (meshResolution : Z)
  : HeightmapGenerationService.Params := {|
  HeightmapGenerationService.seed := 1;
  HeightmapGenerationService.octaves := 1;
  HeightmapGenerationService.ridgedOffset := 1 # 2;
  HeightmapGenerationService.gain := 1 # 2;
  HeightmapGenerationService.lacunarity := 2;
  HeightmapGenerationService.amplitude := 1;
  HeightmapGenerationService.domainWarpStrength := 35 # 100;
  HeightmapGenerationService.domainWarpFreq := 8 # 100;
  HeightmapGenerationService.frequency := 15 # 100;
  HeightmapGenerationService.worleyPoints := 0;
  HeightmapGenerationService.worleySeed := 0;
  HeightmapGenerationService.worleyDimension := 2;
  HeightmapGenerationService.windDirection := 0;
  HeightmapGenerationService.meshResolution := meshResolution;
  HeightmapGenerationService.size := 1000;
  HeightmapGenerationService.applySmoothing := false;
  HeightmapGenerationService.smoothIterations := 1;
  HeightmapGenerationService.smoothFactor := 1 # 2
|}.

(** * Properties *)

Import ErosionSimulator.

(** The data-model invariant of a heightfield held by a simulator. *)
Definition wellFormed (this : ErosionSimulator.t) (hm : Float32Array) : Prop :=
  Z.of_nat (length hm) = (width this * height this)%Z.

(** ** Typed arrays *)

Lemma f32_get_in_range (a : Float32Array) (i : Z) :
  (0 <= i < Z.of_nat (length a))%Z ->
  exists v, a !! Z.to_nat i = Some v /\ f32_get a i = Ok v.
Proof.
  intros Hi. unfold f32_get.
  destruct (Z.ltb_spec i 0); [lia|].
  destruct (lookup_lt_is_Some_2 a (Z.to_nat i)) as [v Hv]; [lia|].
  exists v. by rewrite Hv.
Qed.

Lemma f32_set_length (a : Float32Array) (i : Z) (v : Q) :
  length (f32_set a i v) = length a.
Proof.
  unfold f32_set. destruct (i <? 0)%Z; [done|]. by rewrite length_insert.
Qed.

Lemma Qltb_lt (a b : Q) : Qltb a b = true <-> a < b.
Proof.
  unfold Qltb. rewrite negb_true_iff.
  split.
  - intros Hf. apply Qnot_le_lt. intros Hle.
    apply Qle_bool_iff in Hle. congruence.
  - intros Hlt. destruct (Qle_bool b a) eqn:E; [|done].
    apply Qle_bool_iff in E. lra.
Qed.

Lemma Qltb_ge (a b : Q) : Qltb a b = false <-> b <= a.
Proof.
  unfold Qltb. rewrite negb_false_iff. apply Qle_bool_iff.
Qed.

(** ** Interpolation and gradient *)

(** The guard of [_bilinearInterp]: the cell of [(x, y)] has no four
    corners inside the grid. *)
Definition outOfRange (this : ErosionSimulator.t) (x y : Q) : Prop :=
  (Qfloor x < 0 \/ Qfloor y < 0 \/ Qfloor x >= width this - 1
   \/ Qfloor y >= height this - 1)%Z.

Lemma interp_guard_true (this : ErosionSimulator.t) (x y : Q) :
  outOfRange this x y ->
  (Qfloor x <? 0)%Z || (Qfloor y <? 0)%Z || (Qfloor x >=? width this - 1)%Z
  || (Qfloor y >=? height this - 1)%Z = true.
Proof.
  unfold outOfRange. intros Hout.
  repeat rewrite orb_true_iff.
  rewrite !Z.ltb_lt, !Z.geb_le. lia.
Qed.

Lemma interp_guard_false (this : ErosionSimulator.t) (x y : Q) :
  (Qfloor x <? 0)%Z || (Qfloor y <? 0)%Z || (Qfloor x >=? width this - 1)%Z
  || (Qfloor y >=? height this - 1)%Z = false ->
  (0 <= Qfloor x < width this - 1 /\ 0 <= Qfloor y < height this - 1)%Z.
Proof.
  repeat rewrite orb_false_iff.
  rewrite !Z.ltb_ge. intros [[[? ?] Hx] Hy].
  destruct (Z.geb_spec (Qfloor x) (width this - 1)); [done|].
  destruct (Z.geb_spec (Qfloor y) (height this - 1)); [done|]. lia.
Qed.

(** The four corners of a cell that passes the guard are indices of a
    well-formed heightfield. *)
Lemma corners_in_range (this : ErosionSimulator.t) (hm : Float32Array) (cx cy : Z) :
  wellFormed this hm ->
  (0 <= cx < width this - 1)%Z -> (0 <= cy < height this - 1)%Z ->
  (0 <= toIndex (width this) cx cy < Z.of_nat (length hm)
   /\ 0 <= toIndex (width this) (cx + 1) cy < Z.of_nat (length hm)
   /\ 0 <= toIndex (width this) cx (cy + 1) < Z.of_nat (length hm)
   /\ 0 <= toIndex (width this) (cx + 1) (cy + 1) < Z.of_nat (length hm))%Z.
Proof.
  unfold wellFormed, toIndex. intros -> Hx Hy. nia.
Qed.

Lemma bilinearInterp_total (this : ErosionSimulator.t) (hm : Float32Array) (x y : Q) :
  wellFormed this hm -> exists v, _bilinearInterp this hm x y = Ok v.
Proof.
  intros Hwf. unfold _bilinearInterp.
  destruct (_ || _ || _ || _) eqn:Hg; [by eexists|].
  apply interp_guard_false in Hg as [Hx Hy].
  destruct (corners_in_range this hm _ _ Hwf Hx Hy) as (H00 & H10 & H01 & H11).
  destruct (f32_get_in_range _ _ H00) as (h00 & _ & ->).
  destruct (f32_get_in_range _ _ H10) as (h10 & _ & ->).
  destruct (f32_get_in_range _ _ H01) as (h01 & _ & ->).
  destruct (f32_get_in_range _ _ H11) as (h11 & _ & ->).
  by eexists.
Qed.

Lemma calcGradient_total (this : ErosionSimulator.t) (hm : Float32Array) (x y : Q) :
  wellFormed this hm -> exists g, _calcGradient this hm x y = Ok g.
Proof.
  intros Hwf. unfold _calcGradient.
  destruct (_ || _ || _ || _); [by eexists|].
  destruct (bilinearInterp_total this hm (x - 1) y Hwf) as [hL ->].
  destruct (bilinearInterp_total this hm (x + 1) y Hwf) as [hR ->].
  destruct (bilinearInterp_total this hm x (y - 1) Hwf) as [hD ->].
  destruct (bilinearInterp_total this hm x (y + 1) Hwf) as [hU ->].
  by eexists.
Qed.

Lemma bilinearInterp_outOfRange (this : ErosionSimulator.t) (hm : Float32Array) (x y : Q) :
  outOfRange this x y -> _bilinearInterp this hm x y = Ok 0.
Proof.
  intros Hout. unfold _bilinearInterp.
  by rewrite (interp_guard_true this x y Hout).
Qed.

Lemma calcGradient_outOfRange (this : ErosionSimulator.t) (hm : Float32Array) (x y : Q) :
  outOfRange this x y -> _calcGradient this hm x y = Ok (0, 0).
Proof.
  unfold outOfRange, _calcGradient. intros Hout.
  assert ((Qfloor x <? 1)%Z || (Qfloor y <? 1)%Z
          || (Qfloor x >=? width this - 2)%Z
          || (Qfloor y >=? height this - 2)%Z = true) as ->; [|done].
  repeat rewrite orb_true_iff.
  rewrite !Z.ltb_lt, !Z.geb_le. lia.
Qed.

(** C8.  On a well-formed heightfield the interpolation and gradient helpers
    return a value for every rational query point: no read falls outside
    the array and nothing is thrown.  For a point outside the interpolable
    range the interpolated height is 0 and the gradient is (0, 0). *)
Theorem interp_and_gradient_safe (this : ErosionSimulator.t)
    (hm : Float32Array) (x y : Q) :
  wellFormed this hm ->
  (exists v, _bilinearInterp this hm x y = Ok v)
  /\ (exists g, _calcGradient this hm x y = Ok g)
  /\ (outOfRange this x y ->
      _bilinearInterp this hm x y = Ok 0
      /\ _calcGradient this hm x y = Ok (0, 0)).
Proof.
  intros Hwf. split; [|split].
  - by apply bilinearInterp_total.
  - by apply calcGradient_total.
  - intros Hout. split.
    + by apply bilinearInterp_outOfRange.
    + by apply calcGradient_outOfRange.
Qed.

(** C10.  The interpolated height is 0 at every point whose cell lies on
    the last column or the last row, whatever the heights stored there. *)
Theorem interp_zero_on_last_row_and_column (this : ErosionSimulator.t)
    (hm : Float32Array) (x y : Q) :
  (Qfloor x >= width this - 1 \/ Qfloor y >= height this - 1)%Z ->
  _bilinearInterp this hm x y = Ok 0.
Proof.
  intros Hlast. apply bilinearInterp_outOfRange.
  unfold outOfRange. tauto.
Qed.

(** ** Bilinear mass transfer *)

Definition sumQ (l : list Q) : Q := foldr Qplus 0 l.

Lemma f32_add_lookup (hm : Float32Array) (i : Z) (v a : Q) :
  (0 <= i)%Z -> hm !! Z.to_nat i = Some a ->
  f32_add hm i v = Ok (<[Z.to_nat i := Qred (a + v)]> hm).
Proof.
  intros Hi Ha. unfold f32_add, f32_get, f32_set.
  destruct (Z.ltb_spec i 0); [lia|]. by rewrite Ha.
Qed.

Lemma f32_clamp0_lookup (hm : Float32Array) (i : Z) (a : Q) :
  (0 <= i)%Z -> hm !! Z.to_nat i = Some a ->
  f32_clamp0 hm i = Ok (<[Z.to_nat i := Qred (Qmax 0 a)]> hm).
Proof.
  intros Hi Ha. unfold f32_clamp0, f32_get, f32_set.
  destruct (Z.ltb_spec i 0); [lia|]. by rewrite Ha.
Qed.

Lemma bilinearAdd_guard (this : ErosionSimulator.t) (x y : Z) :
  (0 <= x < width this - 1)%Z -> (0 <= y < height this - 1)%Z ->
  (x >=? 0)%Z && (y >=? 0)%Z && (x <? width this - 1)%Z
  && (y <? height this - 1)%Z = true.
Proof.
  intros Hx Hy. repeat rewrite andb_true_iff.
  rewrite !Z.geb_le, !Z.ltb_lt. lia.
Qed.

(** Looking up an index in a stack of point updates. *)
Ltac lookup_updates :=
  repeat (rewrite list_lookup_insert; rewrite ?length_insert;
          case_decide; [try (exfalso; lia)|try (exfalso; lia)]);
  try done.

(** The content of a cell holding [a] after [+= v] and the clamp. *)
Definition clampAdd (a v : Q) : Q := Qred (Qmax 0 (Qred (a + v))).

Lemma clampAdd_eq (a v : Q) : clampAdd a v == Qmax 0 (a + v).
Proof.
  unfold clampAdd. rewrite Qred_correct.
  apply Q.max_compat; [reflexivity|apply Qred_correct].
Qed.

Lemma clampAdd_nonneg (a v : Q) : 0 <= clampAdd a v.
Proof. rewrite clampAdd_eq. apply Q.le_max_l. Qed.

(** Inside the grid [_bilinearAdd] replaces each of the four corners [a]
    by [max 0 (a + value * weight)] and leaves every other cell alone. *)
Lemma bilinearAdd_inside (this : ErosionSimulator.t) (hm : Float32Array)
    (x y : Z) (offX offY value : Q) :
  wellFormed this hm ->
  (0 <= x < width this - 1)%Z -> (0 <= y < height this - 1)%Z ->
  let n00 := Z.to_nat (toIndex (width this) x y) in
  let n10 := Z.to_nat (toIndex (width this) (x + 1) y) in
  let n01 := Z.to_nat (toIndex (width this) x (y + 1)) in
  let n11 := Z.to_nat (toIndex (width this) (x + 1) (y + 1)) in
  exists a00 a10 a01 a11,
    hm !! n00 = Some a00 /\ hm !! n10 = Some a10
    /\ hm !! n01 = Some a01 /\ hm !! n11 = Some a11
    /\ _bilinearAdd this hm x y offX offY value =
       Ok (<[n11 := clampAdd a11 (value * (offX * offY))]>
           (<[n01 := clampAdd a01 (value * ((1 - offX) * offY))]>
            (<[n10 := clampAdd a10 (value * (offX * (1 - offY)))]>
             (<[n00 := clampAdd a00 (value * ((1 - offX) * (1 - offY)))]> hm)))).
Proof.
  intros Hwf Hx Hy n00 n10 n01 n11.
  destruct (corners_in_range this hm _ _ Hwf Hx Hy) as (H00 & H10 & H01 & H11).
  destruct (f32_get_in_range _ _ H00) as (a00 & L00 & _).
  destruct (f32_get_in_range _ _ H10) as (a10 & L10 & _).
  destruct (f32_get_in_range _ _ H01) as (a01 & L01 & _).
  destruct (f32_get_in_range _ _ H11) as (a11 & L11 & _).
  exists a00, a10, a01, a11. repeat (split; [done|]).
  assert (n00 <> n10 /\ n00 <> n01 /\ n00 <> n11 /\ n10 <> n01 /\ n10 <> n11
          /\ n01 <> n11) as (D1 & D2 & D3 & D4 & D5 & D6).
  { unfold n00, n10, n01, n11, toIndex in *. lia. }
  assert (n00 < length hm /\ n10 < length hm /\ n01 < length hm
          /\ n11 < length hm)%nat as (B00 & B10 & B01 & B11).
  { unfold n00, n10, n01, n11. lia. }
  unfold _bilinearAdd. rewrite (bilinearAdd_guard this x y Hx Hy).
  rewrite (f32_add_lookup hm _ _ a00) by (done || lia). simpl.
  fold n00.
  rewrite (f32_add_lookup _ _ _ a10) by (lia || (fold n10; lookup_updates)).
  simpl. fold n10.
  rewrite (f32_add_lookup _ _ _ a01) by (lia || (fold n01; lookup_updates)).
  simpl. fold n01.
  rewrite (f32_add_lookup _ _ _ a11) by (lia || (fold n11; lookup_updates)).
  simpl. fold n11.
  rewrite (f32_clamp0_lookup _ _ (Qred (a00 + value * ((1 - offX) * (1 - offY)))))
    by (lia || (fold n00; lookup_updates)).
  simpl. fold n00.
  rewrite (f32_clamp0_lookup _ _ (Qred (a10 + value * (offX * (1 - offY)))))
    by (lia || (fold n10; lookup_updates)).
  simpl. fold n10.
  rewrite (f32_clamp0_lookup _ _ (Qred (a01 + value * ((1 - offX) * offY))))
    by (lia || (fold n01; lookup_updates)).
  simpl. fold n01.
  rewrite (f32_clamp0_lookup _ _ (Qred (a11 + value * (offX * offY))))
    by (lia || (fold n11; lookup_updates)).
  fold n11. f_equal.
  apply list_eq. intros j.
  destruct (decide (j = n11)) as [->|]; [by lookup_updates|].
  destruct (decide (j = n01)) as [->|]; [by lookup_updates|].
  destruct (decide (j = n10)) as [->|]; [by lookup_updates|].
  destruct (decide (j = n00)) as [->|]; [by lookup_updates|].
  by lookup_updates.
Qed.

Lemma bilinearAdd_outside (this : ErosionSimulator.t) (hm : Float32Array)
    (x y : Z) (offX offY value : Q) :
  ~ ((0 <= x < width this - 1)%Z /\ (0 <= y < height this - 1)%Z) ->
  _bilinearAdd this hm x y offX offY value = Ok hm.
Proof.
  intros Hout. unfold _bilinearAdd.
  destruct (_ && _ && _ && _) eqn:Hg; [|done].
  repeat rewrite andb_true_iff in Hg.
  rewrite !Z.geb_le, !Z.ltb_lt in Hg. lia.
Qed.

(** The cells written by [_bilinearAdd this hm x y ...]. *)
Definition touchedBy (this : ErosionSimulator.t) (x y : Z) (j : nat) : Prop :=
  ((0 <= x < width this - 1)%Z /\ (0 <= y < height this - 1)%Z)
  /\ (j = Z.to_nat (toIndex (width this) x y)
      \/ j = Z.to_nat (toIndex (width this) (x + 1) y)
      \/ j = Z.to_nat (toIndex (width this) x (y + 1))
      \/ j = Z.to_nat (toIndex (width this) (x + 1) (y + 1))).

#[local] Instance touchedBy_dec this x y j : Decision (touchedBy this x y j).
Proof. unfold touchedBy. apply _. Defined.

Lemma Qmax_0_nonneg (a : Q) : 0 <= Qmax 0 a.
Proof. apply Q.le_max_l. Qed.

Lemma bilinearAdd_clamps (this : ErosionSimulator.t) (hm : Float32Array)
    (x y : Z) (offX offY value : Q) :
  wellFormed this hm ->
  exists hm',
    _bilinearAdd this hm x y offX offY value = Ok hm'
    /\ length hm' = length hm
    /\ forall j v, hm' !! j = Some v ->
         (touchedBy this x y j -> 0 <= v)
         /\ (~ touchedBy this x y j -> hm !! j = Some v).
Proof.
  intros Hwf.
  destruct (decide ((0 <= x < width this - 1)%Z
                    /\ (0 <= y < height this - 1)%Z)) as [[Hx Hy]|Hout].
  - destruct (bilinearAdd_inside this hm x y offX offY value Hwf Hx Hy)
      as (a00 & a10 & a01 & a11 & L00 & L10 & L01 & L11 & ->).
    eexists. split; [done|]. split; [by rewrite !length_insert|].
    intros j v. unfold touchedBy.
    repeat (rewrite list_lookup_insert; rewrite ?length_insert;
            case_decide).
    all: intros Hv; split; intros Ht.
    all: try (injection Hv as <-; apply clampAdd_nonneg).
    all: try done.
    all: exfalso; apply lookup_lt_Some in L00, L10, L01, L11.
    all: try (apply Ht; split; [done|lia]).
    all: destruct Ht as [_ Ht]; lia.
  - exists hm. split; [by apply bilinearAdd_outside|]. split; [done|].
    intros j v Hv. split; [|done].
    intros [Hin _]. done.
Qed.

Lemma bilinearAdd_nonneg (this : ErosionSimulator.t) (hm : Float32Array)
    (x y : Z) (offX offY value : Q) :
  wellFormed this hm -> Forall (Qle 0) hm ->
  exists hm',
    _bilinearAdd this hm x y offX offY value = Ok hm'
    /\ length hm' = length hm /\ Forall (Qle 0) hm'.
Proof.
  intros Hwf Hnn.
  destruct (bilinearAdd_clamps this hm x y offX offY value Hwf)
    as (hm' & Heq & Hlen & Hcells).
  exists hm'. repeat (split; [done|]).
  apply Forall_lookup. intros j v Hv.
  destruct (Hcells j v Hv) as [Ht Hu].
  destruct (decide (touchedBy this x y j)) as [Hin|Hout]; [by apply Ht|].
  by apply (Forall_lookup_1 _ _ _ _ Hnn (Hu Hout)).
Qed.

(** ** Non-negative heights *)

(** What a step keeps true of the heightfield of simulator [this]. *)
Definition nonnegField (this : ErosionSimulator.t) (hm : Float32Array) : Prop :=
  wellFormed this hm /\ Forall (Qle 0) hm.

Lemma nonnegField_same_length (this : ErosionSimulator.t) (hm hm' : Float32Array) :
  wellFormed this hm -> length hm' = length hm -> Forall (Qle 0) hm' ->
  nonnegField this hm'.
Proof.
  unfold nonnegField, wellFormed. intros Hwf Hlen Hnn.
  split; [by rewrite Hlen|done].
Qed.

Lemma bilinearAdd_keeps (this : ErosionSimulator.t) (hm : Float32Array)
    (x y : Z) (offX offY value : Q) :
  nonnegField this hm ->
  exists hm',
    _bilinearAdd this hm x y offX offY value = Ok hm' /\ nonnegField this hm'.
Proof.
  intros [Hwf Hnn].
  destruct (bilinearAdd_nonneg this hm x y offX offY value Hwf Hnn)
    as (hm' & Heq & Hlen & Hnn').
  exists hm'. split; [done|]. by eapply nonnegField_same_length.
Qed.

Lemma erodeOrDeposit_keeps (this : ErosionSimulator.t) (hm : Float32Array)
    (d : Droplet) (cellX cellY : Z) (offX offY capacity newH : Q) :
  nonnegField this hm ->
  exists d' hm',
    erodeOrDeposit this hm d cellX cellY offX offY capacity newH = Ok (d', hm')
    /\ nonnegField this hm'.
Proof.
  intros Hinv. unfold erodeOrDeposit.
  destruct (Qltb capacity (sediment d)).
  - edestruct (bilinearAdd_keeps this hm cellX cellY offX offY) as (hm' & -> & Hinv');
      [done|].
    by eexists _, _.
  - destruct (Qltb 0 _); [|by eexists _, _].
    edestruct (bilinearAdd_keeps this hm cellX cellY offX offY) as (hm' & -> & Hinv');
      [done|].
    by eexists _, _.
Qed.

Lemma stepDroplet_keeps `{Runtime} (this : ErosionSimulator.t)
    (hm : Float32Array) (d : Droplet) :
  nonnegField this hm ->
  exists d' hm', stepDroplet this hm d = Ok (d', hm') /\ nonnegField this hm'.
Proof.
  intros Hinv. unfold stepDroplet.
  destruct (bilinearInterp_total this hm (x d) (y d) (proj1 Hinv)) as [h ->].
  destruct (calcGradient_total this hm (x d) (y d) (proj1 Hinv)) as [g ->].
  simpl.
  destruct (_ || _ || _ || _); [by eexists _, _|].
  match goal with
  | |- context [_bilinearInterp this hm ?a ?b] =>
      destruct (bilinearInterp_total this hm a b (proj1 Hinv)) as [newH ->]
  end.
  simpl.
  match goal with
  | |- context [erodeOrDeposit this hm ?d2 ?cx ?cy ?ox ?oy ?cap ?nh] =>
      destruct (erodeOrDeposit_keeps this hm d2 cx cy ox oy cap nh Hinv)
        as (d3 & hm' & -> & Hinv')
  end.
  by eexists _, _.
Qed.

Lemma stepLoop_keeps `{Runtime} (this : ErosionSimulator.t) (batchSize : Z)
    (ds : list Droplet) :
  forall (activeCount : Z) (hm : Float32Array),
    nonnegField this hm ->
    exists ds' hm',
      stepLoop this batchSize ds activeCount hm = Ok (ds', hm')
      /\ nonnegField this hm'.
Proof.
  induction ds as [|d rest IH]; intros activeCount hm Hinv; simpl.
  - by eexists _, _.
  - destruct (activeCount <? batchSize)%Z; [|by eexists _, _].
    destruct (alive d).
    + destruct (stepDroplet_keeps this hm d Hinv) as (d' & hm1 & -> & Hinv1).
      simpl.
      destruct (IH (activeCount + 1)%Z hm1 Hinv1) as (rest' & hm2 & -> & Hinv2).
      by eexists _, _.
    + destruct (IH activeCount hm Hinv) as (rest' & hm2 & -> & Hinv2).
      by eexists _, _.
Qed.

Lemma stepDroplets_keeps `{Runtime} (this : ErosionSimulator.t) (batchSize : Z) :
  is_Some (droplets this) -> nonnegField this (heightMap this) ->
  exists b this',
    stepDroplets this batchSize = Ok (b, this')
    /\ is_Some (droplets this') /\ nonnegField this' (heightMap this').
Proof.
  intros [ds Hds] Hinv. unfold stepDroplets. rewrite Hds.
  destruct (stepLoop_keeps this batchSize ds 0%Z _ Hinv) as (ds' & hm' & -> & Hinv').
  eexists _, _. split; [done|]. split; [done|]. done.
Qed.

(** C1.  On a started simulator whose heightfield is well formed and has no
    negative cell, every sequence of [stepDroplets] calls runs to the end
    and leaves no negative cell.  [_bilinearAdd] itself, on any well-formed
    heightfield, leaves each cell it touches at or above 0 and every other
    cell as it was. *)
Theorem heights_stay_nonnegative `{Runtime} (this : ErosionSimulator.t) :
  (forall batches : list Z,
     is_Some (droplets this) ->
     wellFormed this (heightMap this) ->
     Forall (Qle 0) (heightMap this) ->
     exists this',
       stepMany this batches = Ok this'
       /\ Forall (Qle 0) (heightMap this'))
  /\ (forall (hm : Float32Array) (x y : Z) (offX offY value : Q),
        wellFormed this hm ->
        exists hm',
          _bilinearAdd this hm x y offX offY value = Ok hm'
          /\ forall j v, hm' !! j = Some v ->
               (touchedBy this x y j -> 0 <= v)
               /\ (~ touchedBy this x y j -> hm !! j = Some v)).
Proof.
  split.
  - intros batches. revert this.
    induction batches as [|b bs IH]; intros this Hds Hwf Hnn; simpl.
    + by exists this.
    + destruct (stepDroplets_keeps this b Hds (conj Hwf Hnn))
        as (r & this1 & -> & Hds1 & Hwf1 & Hnn1).
      simpl. by apply IH.
  - intros hm x y offX offY value Hwf.
    destruct (bilinearAdd_clamps this hm x y offX offY value Hwf)
      as (hm' & Heq & _ & Hcells).
    by exists hm'.
Qed.

(** ** Mass transfer of one deposit or erosion *)

Lemma sumQ_insert (l : list Q) (n : nat) (a v : Q) :
  l !! n = Some a -> sumQ (<[n := v]> l) == sumQ l - a + v.
Proof.
  revert n. induction l as [|b l IH]; intros [|n] Hn; simpl in *; try done.
  - injection Hn as ->. ring.
  - rewrite (IH n Hn). ring.
Qed.

Lemma bilinearAdd_sum (this : ErosionSimulator.t) (hm : Float32Array)
    (x y : Z) (offX offY value : Q) :
  wellFormed this hm ->
  (0 <= x < width this - 1)%Z -> (0 <= y < height this - 1)%Z ->
  exists a00 a10 a01 a11 hm',
    hm !! Z.to_nat (toIndex (width this) x y) = Some a00
    /\ hm !! Z.to_nat (toIndex (width this) (x + 1) y) = Some a10
    /\ hm !! Z.to_nat (toIndex (width this) x (y + 1)) = Some a01
    /\ hm !! Z.to_nat (toIndex (width this) (x + 1) (y + 1)) = Some a11
    /\ _bilinearAdd this hm x y offX offY value = Ok hm'
    /\ sumQ hm' ==
       sumQ hm
       + (Qmax 0 (a00 + value * ((1 - offX) * (1 - offY))) - a00)
       + (Qmax 0 (a10 + value * (offX * (1 - offY))) - a10)
       + (Qmax 0 (a01 + value * ((1 - offX) * offY)) - a01)
       + (Qmax 0 (a11 + value * (offX * offY)) - a11).
Proof.
  intros Hwf Hx Hy.
  destruct (bilinearAdd_inside this hm x y offX offY value Hwf Hx Hy)
    as (a00 & a10 & a01 & a11 & L00 & L10 & L01 & L11 & Heq).
  exists a00, a10, a01, a11. eexists.
  split; [exact L00|]. split; [exact L10|].
  split; [exact L01|]. split; [exact L11|].
  split; [exact Heq|].
  destruct (corners_in_range this hm _ _ Hwf Hx Hy) as (H00 & H10 & H01 & H11).
  assert (Z.to_nat (toIndex (width this) x y)
          <> Z.to_nat (toIndex (width this) (x + 1) y)
          /\ Z.to_nat (toIndex (width this) x y)
             <> Z.to_nat (toIndex (width this) x (y + 1))
          /\ Z.to_nat (toIndex (width this) x y)
             <> Z.to_nat (toIndex (width this) (x + 1) (y + 1))
          /\ Z.to_nat (toIndex (width this) (x + 1) y)
             <> Z.to_nat (toIndex (width this) x (y + 1))
          /\ Z.to_nat (toIndex (width this) (x + 1) y)
             <> Z.to_nat (toIndex (width this) (x + 1) (y + 1))
          /\ Z.to_nat (toIndex (width this) x (y + 1))
             <> Z.to_nat (toIndex (width this) (x + 1) (y + 1)))
    as (D1 & D2 & D3 & D4 & D5 & D6).
  { unfold toIndex in *. lia. }
  rewrite (sumQ_insert _ _ a11) by lookup_updates.
  rewrite (sumQ_insert _ _ a01) by lookup_updates.
  rewrite (sumQ_insert _ _ a10) by lookup_updates.
  rewrite (sumQ_insert _ _ a00) by lookup_updates.
  rewrite !clampAdd_eq. ring.
Qed.

(** The offsets of a point inside its cell, and the bilinear weights. *)
Lemma offset_range (x : Q) : 0 <= x - inject_Z (Qfloor x) < 1.
Proof.
  pose proof (Qfloor_le x) as Hle. pose proof (Qlt_floor x) as Hlt.
  rewrite inject_Z_plus in Hlt. change (inject_Z 1) with 1 in Hlt.
  split; lra.
Qed.

Lemma weights (ox oy : Q) :
  0 <= ox < 1 -> 0 <= oy < 1 ->
  0 <= (1 - ox) * (1 - oy) /\ 0 <= ox * (1 - oy)
  /\ 0 <= (1 - ox) * oy /\ 0 <= ox * oy
  /\ (1 - ox) * (1 - oy) + ox * (1 - oy) + (1 - ox) * oy + ox * oy == 1.
Proof.
  intros Hx Hy. repeat split; try (apply Qmult_le_0_compat; lra). ring.
Qed.

Lemma interior_cell (this : ErosionSimulator.t) (x y : Q) :
  1 <= x <= inject_Z (width this - 2) ->
  1 <= y <= inject_Z (height this - 2) ->
  (0 <= Qfloor x < width this - 1)%Z /\ (0 <= Qfloor y < height this - 1)%Z.
Proof.
  intros [Hx1 Hx2] [Hy1 Hy2].
  apply Qfloor_resp_le in Hx1, Hx2, Hy1, Hy2.
  rewrite Qfloor_Z in Hx2, Hy2.
  change (Qfloor 1) with 1%Z in Hx1, Hy1. lia.
Qed.

(** The sum of the four corner changes of [_bilinearAdd], for a transfer
    [v] split into shares [p00 + p10 + p01 + p11]. *)
Lemma corner_changes_deposit (a00 a10 a01 a11 p00 p10 p01 p11 : Q) :
  0 <= a00 -> 0 <= a10 -> 0 <= a01 -> 0 <= a11 ->
  0 <= p00 -> 0 <= p10 -> 0 <= p01 -> 0 <= p11 ->
  (Qmax 0 (a00 + p00) - a00) + (Qmax 0 (a10 + p10) - a10)
  + (Qmax 0 (a01 + p01) - a01) + (Qmax 0 (a11 + p11) - a11)
  == p00 + p10 + p01 + p11.
Proof.
  intros.
  rewrite (Q.max_r 0 (a00 + p00)) by lra.
  rewrite (Q.max_r 0 (a10 + p10)) by lra.
  rewrite (Q.max_r 0 (a01 + p01)) by lra.
  rewrite (Q.max_r 0 (a11 + p11)) by lra.
  ring.
Qed.

Lemma corner_change_erosion (a e w : Q) :
  0 <= a -> 0 <= e * w ->
  - (e * w) <= Qmax 0 (a + - e * w) - a <= 0
  /\ (e * w <= a -> Qmax 0 (a + - e * w) - a == - (e * w)).
Proof.
  intros Ha Hp.
  assert (- e * w == - (e * w)) as Hneg by ring.
  destruct (Q.max_spec 0 (a + - e * w)) as [[Hlt ->]|[Hle ->]]; split; lra.
Qed.

(** C2 (amended).  Up to floating-point rounding, that is, for the exact
    numbers of the model: for a droplet in the interior of a well-formed
    heightfield without negative cells, one deposit raises the sum of all
    cells by the deposited amount.  One erosion lowers the sum by at most
    the eroded amount, and by that amount when each of the four touched
    cells holds at least the eroded amount, so that none is clamped at 0. *)
Theorem deposit_exact_erosion_bounded (this : ErosionSimulator.t)
    (hm : Float32Array) (d : Droplet) (capacity newH : Q) :
  wellFormed this hm -> Forall (Qle 0) hm ->
  1 <= x d <= inject_Z (width this - 2) ->
  1 <= y d <= inject_Z (height this - 2) ->
  0 <= depositionRate (params this) ->
  exists d' hm',
    erodeOrDeposit this hm d (Qfloor (x d)) (Qfloor (y d))
      (x d - inject_Z (Qfloor (x d))) (y d - inject_Z (Qfloor (y d)))
      capacity newH = Ok (d', hm')
    /\ (capacity < sediment d ->
        sumQ hm' ==
        sumQ hm + (sediment d - capacity) * depositionRate (params this)
        /\ sediment d' ==
           sediment d - (sediment d - capacity) * depositionRate (params this))
    /\ (sediment d <= capacity ->
        let eroded := sediment d' - sediment d in
        eroded ==
        Qmax 0 (Qmin ((capacity - sediment d) * depositionRate (params this))
                  newH)
        /\ sumQ hm - eroded <= sumQ hm' <= sumQ hm
        /\ ((forall j a, touchedBy this (Qfloor (x d)) (Qfloor (y d)) j ->
                         hm !! j = Some a -> eroded <= a) ->
            sumQ hm' == sumQ hm - eroded)).
Proof.
  intros Hwf Hnn Hx Hy Hrate.
  destruct (interior_cell this (x d) (y d) Hx Hy) as [Hcx Hcy].
  pose proof (offset_range (x d)) as Hox.
  pose proof (offset_range (y d)) as Hoy.
  set (ox := x d - inject_Z (Qfloor (x d))) in *.
  set (oy := y d - inject_Z (Qfloor (y d))) in *.
  destruct (weights ox oy Hox Hoy) as (W00 & W10 & W01 & W11 & Wsum).
  unfold erodeOrDeposit.
  destruct (Qltb capacity (sediment d)) eqn:Hcmp.
  - (* deposit *)
    apply Qltb_lt in Hcmp.
    set (v := (sediment d - capacity) * depositionRate (params this)).
    assert (0 <= v) as Hv by (apply Qmult_le_0_compat; lra).
    destruct (bilinearAdd_sum this hm (Qfloor (x d)) (Qfloor (y d)) ox oy v
                Hwf Hcx Hcy)
      as (a00 & a10 & a01 & a11 & hm' & L00 & L10 & L01 & L11 & -> & Hsum).
    eexists _, hm'. split; [done|]. split; [|intros; lra].
    intros _. simpl. split; [|apply Qred_correct].
    pose proof (Forall_lookup_1 _ _ _ _ Hnn L00).
    pose proof (Forall_lookup_1 _ _ _ _ Hnn L10).
    pose proof (Forall_lookup_1 _ _ _ _ Hnn L01).
    pose proof (Forall_lookup_1 _ _ _ _ Hnn L11).
    pose proof (Qmult_le_0_compat _ _ Hv W00) as P00.
    pose proof (Qmult_le_0_compat _ _ Hv W10) as P10.
    pose proof (Qmult_le_0_compat _ _ Hv W01) as P01.
    pose proof (Qmult_le_0_compat _ _ Hv W11) as P11.
    assert (v * ((1 - ox) * (1 - oy)) + v * (ox * (1 - oy))
            + v * ((1 - ox) * oy) + v * (ox * oy) == v) as Hshares by ring.
    pose proof (corner_changes_deposit a00 a10 a01 a11 _ _ _ _
                  ltac:(done) ltac:(done) ltac:(done) ltac:(done)
                  P00 P10 P01 P11) as Hc.
    rewrite Hsum. lra.
  - (* erosion *)
    apply Qltb_ge in Hcmp.
    set (e := Qmin ((capacity - sediment d) * depositionRate (params this)) newH).
    destruct (Qltb 0 e) eqn:He.
    + apply Qltb_lt in He.
      destruct (bilinearAdd_sum this hm (Qfloor (x d)) (Qfloor (y d)) ox oy (- e)
                  Hwf Hcx Hcy)
        as (a00 & a10 & a01 & a11 & hm' & L00 & L10 & L01 & L11 & -> & Hsum).
      eexists _, hm'. split; [done|]. split; [intros; lra|].
      intros _. simpl.
      pose proof (Qred_correct (sediment d + e)) as Hsed.
      pose proof (Forall_lookup_1 _ _ _ _ Hnn L00) as A00.
      pose proof (Forall_lookup_1 _ _ _ _ Hnn L10) as A10.
      pose proof (Forall_lookup_1 _ _ _ _ Hnn L01) as A01.
      pose proof (Forall_lookup_1 _ _ _ _ Hnn L11) as A11.
      assert (0 <= e) as He' by lra.
      pose proof (Qmult_le_0_compat _ _ He' W00) as P00.
      pose proof (Qmult_le_0_compat _ _ He' W10) as P10.
      pose proof (Qmult_le_0_compat _ _ He' W01) as P01.
      pose proof (Qmult_le_0_compat _ _ He' W11) as P11.
      assert (e * ((1 - ox) * (1 - oy)) + e * (ox * (1 - oy))
              + e * ((1 - ox) * oy) + e * (ox * oy) == e) as Hshares by ring.
      destruct (corner_change_erosion a00 e _ A00 P00) as [B00 E00].
      destruct (corner_change_erosion a10 e _ A10 P10) as [B10 E10].
      destruct (corner_change_erosion a01 e _ A01 P01) as [B01 E01].
      destruct (corner_change_erosion a11 e _ A11 P11) as [B11 E11].
      rewrite (Q.max_r 0 e) by lra.
      split; [lra|]. split; [rewrite Hsum; lra|].
      intros Henough.
      assert (touchedBy this (Qfloor (x d)) (Qfloor (y d))
                (Z.to_nat (toIndex (width this) (Qfloor (x d)) (Qfloor (y d)))))
        as T00 by (unfold touchedBy; tauto).
      assert (touchedBy this (Qfloor (x d)) (Qfloor (y d))
                (Z.to_nat (toIndex (width this) (Qfloor (x d) + 1) (Qfloor (y d)))))
        as T10 by (unfold touchedBy; tauto).
      assert (touchedBy this (Qfloor (x d)) (Qfloor (y d))
                (Z.to_nat (toIndex (width this) (Qfloor (x d)) (Qfloor (y d) + 1))))
        as T01 by (unfold touchedBy; tauto).
      assert (touchedBy this (Qfloor (x d)) (Qfloor (y d))
                (Z.to_nat (toIndex (width this) (Qfloor (x d) + 1) (Qfloor (y d) + 1))))
        as T11 by (unfold touchedBy; tauto).
      pose proof (Henough _ _ T00 L00) as G00.
      pose proof (Henough _ _ T10 L10) as G10.
      pose proof (Henough _ _ T01 L01) as G01.
      pose proof (Henough _ _ T11 L11) as G11.
      rewrite Hsum.
      rewrite E00 by lra. rewrite E10 by lra.
      rewrite E01 by lra. rewrite E11 by lra.
      lra.
    + apply Qltb_ge in He.
      exists d, hm. split; [done|]. split; [intros; lra|].
      intros _. simpl.
      rewrite (Q.max_l 0 e) by lra.
      split; [lra|]. split; [lra|]. intros _. lra.
Qed.

(** C2 (as stated, refuted).  On the checkerboard heightfield the droplet
    at (5/2, 5/2) erodes 147/12500 in its first step, yet the sum of all
    cells falls by 147/25000 only: the two corner cells at height 0 are
    clamped. *)
Lemma erosion_removes_less_than_eroded :
  Forall (Qle 0) checkerboard
  /\ exists this' d,
       @stepDroplets squareRootRuntime checkerboardSimulator 1 = Ok (true, this')
       /\ droplets this' = Some [d]
       /\ sediment d == 147 # 12500
       /\ sumQ (heightMap checkerboardSimulator) - sumQ (heightMap this')
          == 147 # 25000.
Proof.
  split.
  - unfold checkerboard. repeat (constructor; [by vm_compute|]). constructor.
  - eexists _, _. split; [vm_compute; reflexivity|].
    split; [reflexivity|]. split; reflexivity.
Qed.

(** ** Droplet creation *)

(** C9.  A droplet can start inside the border zone in which the first
    step kills it.  With the draw 99/100 on a 10 x 10 grid of zeros,
    [start] places the droplet at x = 8.92, beyond width - 2 = 8, the bound
    of the test in [stepDroplets]; the first step kills the droplet before
    it has moved or aged, and [stepDroplets] reports that none is alive. *)
Lemma start_position_beyond_margin :
  let this := fst (start (constructor 10 10 (replicate 100 0) defaultParams)
                     1 false None (constantDraws (99 # 100))) in
  0 <= 99 # 100 < 1
  /\ exists d,
       droplets this = Some [d]
       /\ x d == 892 # 100
       /\ ~ x d <= inject_Z (10 - 2)
       /\ exists this' d',
            @stepDroplets squareRootRuntime this 1 = Ok (false, this')
            /\ droplets this' = Some [d']
            /\ x d' == 892 # 100
            /\ lifetime d' = 0%Z
            /\ alive d' = false.
Proof.
  intros this. split; [split; by vm_compute|].
  eexists. split; [reflexivity|]. split; [reflexivity|].
  split; [by vm_compute|].
  eexists _, _. split; [vm_compute; reflexivity|].
  split; [reflexivity|]. split; [reflexivity|]. by split.
Qed.

(** ** Behaviour at concrete inputs *)

(** C4.  A paused simulator still steps: after [pause], [stepDroplets]
    advances the droplet and changes the heightfield. *)
Lemma paused_simulator_still_steps :
  dropletsActive (pause checkerboardSimulator) = Some false
  /\ exists this' d,
       @stepDroplets squareRootRuntime (pause checkerboardSimulator) 1
       = Ok (true, this')
       /\ droplets this' = Some [d]
       /\ lifetime d = 1%Z
       /\ water d == 99 # 100
       /\ heightMap this' <> heightMap (pause checkerboardSimulator).
Proof.
  split; [reflexivity|].
  eexists _, _. split; [vm_compute; reflexivity|].
  split; [reflexivity|]. split; [reflexivity|]. split; [reflexivity|].
  by vm_compute.
Qed.

(** C5.  With the default parameters (maxDropletLifetime = 30) the droplet
    on the flat heightfield is still alive after 30 steps, and dies in its
    31st. *)
Lemma droplet_alive_after_max_lifetime :
  maxDropletLifetime (params flatSimulator) == 30
  /\ (exists this' d,
        @stepMany squareRootRuntime flatSimulator (replicate 30 1%Z) = Ok this'
        /\ droplets this' = Some [d]
        /\ lifetime d = 30%Z /\ alive d = true)
  /\ (exists this' d,
        @stepMany squareRootRuntime flatSimulator (replicate 31 1%Z) = Ok this'
        /\ droplets this' = Some [d]
        /\ lifetime d = 31%Z /\ alive d = false).
Proof.
  split; [reflexivity|]. split.
  - eexists _, _. split; [vm_compute; reflexivity|]. by repeat split.
  - eexists _, _. split; [vm_compute; reflexivity|]. by repeat split.
Qed.

Import HeightfieldService.

(** C3.  On the 3 x 3 heightfield 0..8 the only sink is cell 0, and the
    flow accumulated there is 4, not the 9 cells of the grid. *)
Lemma flow_at_sinks_is_not_cell_count :
  computeDownslope [0; 1; 2; 3; 4; 5; 6; 7; 8] 3 3
  = Ok [0; 0; 1; 0; 0; 1; 3; 3; 4]%Z
  /\ computeFlowMap [0; 1; 2; 3; 4; 5; 6; 7; 8] 3 3
     = Ok [4; 3; 1; 3; 2; 1; 1; 1; 1]
  /\ sinkFlow [0; 0; 1; 0; 0; 1; 3; 3; 4]%Z [4; 3; 1; 3; 2; 1; 1; 1; 1] == 4
  /\ ~ sinkFlow [0; 0; 1; 0; 0; 1; 3; 3; 4]%Z [4; 3; 1; 3; 2; 1; 1; 1; 1]
       == inject_Z (3 * 3).
Proof.
  split; [by vm_compute|]. split; [by vm_compute|].
  split; [by vm_compute|]. by vm_compute.
Qed.

(** ** Loops in the fault monad *)

Lemma foldM_invariant {A B} (P : A -> Prop) (f : A -> B -> res A) (l : list B) :
  (forall a b, b ∈ l -> P a -> exists a', f a b = Ok a' /\ P a') ->
  forall a, P a -> exists a', foldM f l a = Ok a' /\ P a'.
Proof.
  induction l as [|b l IH]; intros Hf a Ha; simpl.
  - by exists a.
  - destruct (Hf a b ltac:(left) Ha) as (a1 & -> & Ha1). simpl.
    apply IH; [|done]. intros a2 b2 Hin. apply Hf. by right.
Qed.





(** ** Heightmap generation *)

Module Gen := HeightmapGenerationService.




















(** ** The theorems at concrete inputs *)

Lemma checkerboard_nonneg : Forall (Qle 0) checkerboard.
Proof.
  unfold checkerboard. repeat (constructor; [by vm_compute|]). constructor.
Qed.

Lemma heights_stay_nonnegative_witness :
  exists this',
    @stepMany squareRootRuntime checkerboardSimulator [1; 1]%Z = Ok this'
    /\ Forall (Qle 0) (heightMap this').
Proof.
  apply (proj1 (@heights_stay_nonnegative squareRootRuntime checkerboardSimulator)
           [1; 1]%Z).
  - by eexists.
  - reflexivity.
  - exact checkerboard_nonneg.
Defined.

Lemma deposit_exact_erosion_bounded_witness :
  let this := constructor 6 6 checkerboard defaultParams in
  let d := {| x := 5 # 2; y := 5 # 2; dx := 0; dy := 0; speed := 1;
              water := 1; sediment := 1; lifetime := 0; alive := true |} in
  exists d' hm',
    erodeOrDeposit this checkerboard d 2 2 (1 # 2) (1 # 2) 0 1 = Ok (d', hm')
    /\ sumQ hm' == sumQ checkerboard + (3 # 10).
Proof.
  intros this d.
  destruct (deposit_exact_erosion_bounded this checkerboard d 0 1)
    as (d' & hm' & Heq & Hdep & _).
  - reflexivity.
  - exact checkerboard_nonneg.
  - by vm_compute.
  - by vm_compute.
  - by vm_compute.
  - exists d', hm'. split; [exact Heq|].
    destruct Hdep as [Hsum _]; [by vm_compute|].
    rewrite Hsum. by vm_compute.
Defined.

Lemma interp_and_gradient_safe_witness :
  let this := constructor 3 3 [5; 5; 5; 5; 5; 5; 5; 5; 5] defaultParams in
  _bilinearInterp this (heightMap this) 5 1 = Ok 0
  /\ _calcGradient this (heightMap this) 5 1 = Ok (0, 0).
Proof.
  intros this.
  apply (interp_and_gradient_safe this (heightMap this) 5 1).
  - reflexivity.
  - unfold outOfRange. right. right. left. by vm_compute.
Defined.

Lemma interp_zero_on_last_row_and_column_witness :
  let this := constructor 3 3 [5; 5; 5; 5; 5; 5; 5; 5; 5] defaultParams in
  _bilinearInterp this (heightMap this) 2 1 = Ok 0.
Proof.
  intros this.
  apply (interp_zero_on_last_row_and_column this (heightMap this) 2 1).
  left. by vm_compute.
Defined.


(** * Further properties of the code *)

(** ** One step of one droplet *)

(** The interior region outside of which a droplet is killed. *)
Definition inInterior (this : ErosionSimulator.t) (d : Droplet) : Prop :=
  1 <= x d <= inject_Z (width this - 2)
  /\ 1 <= y d <= inject_Z (height this - 2).

(** How [stepDroplet] relates a droplet to its successor: it is killed at
    the border before anything else changes, or it ages by one step inside
    the interior and survives only below the thresholds of the kill test. *)
Definition stepOutcome (this : ErosionSimulator.t) (d d' : Droplet) : Prop :=
  (alive d' = false /\ lifetime d' = lifetime d
   /\ speed d' = speed d /\ water d' = water d /\ sediment d' = sediment d)
  \/ (lifetime d' = (lifetime d + 1)%Z
      /\ inInterior this d'
      /\ water d' == water d * (1 - evaporationRate (params this))
      /\ (alive d' = true ->
          alive d = true
          /\ inject_Z (lifetime d') <= maxDropletLifetime (params this)
          /\ minVolume (params this) <= water d'
          /\ 1 # 100 <= speed d')).

Lemma erodeOrDeposit_frame (this : ErosionSimulator.t) (hm : Float32Array)
    (d : Droplet) (cellX cellY : Z) (offX offY capacity newH : Q) :
  wellFormed this hm ->
  exists d' hm',
    erodeOrDeposit this hm d cellX cellY offX offY capacity newH = Ok (d', hm')
    /\ length hm' = length hm
    /\ x d' = x d /\ y d' = y d /\ dx d' = dx d /\ dy d' = dy d
    /\ speed d' = speed d /\ water d' = water d
    /\ lifetime d' = lifetime d /\ alive d' = alive d.
Proof.
  intros Hwf. unfold erodeOrDeposit.
  destruct (Qltb capacity (sediment d)).
  - edestruct (bilinearAdd_clamps this hm cellX cellY offX offY)
      as (hm' & -> & Hlen & _); [done|].
    eexists _, _. split; [done|]. by repeat split.
  - destruct (Qltb 0 _).
    + edestruct (bilinearAdd_clamps this hm cellX cellY offX offY)
        as (hm' & -> & Hlen & _); [done|].
      eexists _, _. split; [done|]. by repeat split.
    + eexists _, _. split; [done|]. by repeat split.
Qed.

Lemma stepDroplet_spec `{Runtime} (this : ErosionSimulator.t)
    (hm : Float32Array) (d : Droplet) :
  wellFormed this hm ->
  exists d' hm',
    stepDroplet this hm d = Ok (d', hm')
    /\ length hm' = length hm
    /\ stepOutcome this d d'.
Proof.
  intros Hwf. unfold stepDroplet.
  destruct (bilinearInterp_total this hm (x d) (y d) Hwf) as [h ->].
  destruct (calcGradient_total this hm (x d) (y d) Hwf) as [g ->].
  cbn [mbind res_bind].
  match goal with
  | |- context [if ?c then Ok (set_motion d ?x' ?y' ?a ?b false, hm) else _] =>
      destruct c eqn:Hkill
  end.
  - eexists _, _. split; [done|]. split; [done|]. left. by repeat split.
  - repeat rewrite orb_false_iff in Hkill.
    destruct Hkill as [[[Hx1 Hx2] Hy1] Hy2].
    apply Qltb_ge in Hx1, Hx2, Hy1, Hy2.
    match goal with
    | |- context [_bilinearInterp this hm ?a ?b] =>
        destruct (bilinearInterp_total this hm a b Hwf) as [newH ->]
    end.
    cbn [mbind res_bind].
    match goal with
    | |- context [erodeOrDeposit this hm ?d2 ?cx ?cy ?ox ?oy ?cap ?nh] =>
        destruct (erodeOrDeposit_frame this hm d2 cx cy ox oy cap nh Hwf)
          as (d3 & hm' & -> & Hlen & Ex & Ey & _ & _ & Es & Ew & El & Ea)
    end.
    cbn [mbind res_bind].
    eexists _, _. split; [done|]. split; [done|]. right.
    unfold evaporateAndAge. cbn [lifetime alive x y water speed].
    rewrite El, Ew, Ex, Ey, Ea. cbn [lifetime alive x y water speed set_speed set_motion].
    split; [done|]. split.
    { unfold inInterior. cbn [x y]. rewrite !Qred_correct. lra. }
    split; [apply Qred_correct|].
    match goal with
    | |- (if ?c then false else _) = true -> _ => destruct c eqn:Hdie
    end; [done|].
    intros Halive. split; [done|].
    repeat rewrite orb_false_iff in Hdie.
    destruct Hdie as [[Hw Hl] Hs].
    apply Qltb_ge in Hw, Hl, Hs.
    rewrite Qred_correct. rewrite Es in Hs. cbn [speed set_speed] in Hs.
    split; [done|]. split; [done|].
    rewrite Es. cbn [speed set_speed]. exact Hs.
Qed.

(** ** One batch *)

(** A droplet of the pool before and after [stepDroplets]: untouched, or
    alive before and stepped once. *)
Definition poolStep (this : ErosionSimulator.t) (d d' : Droplet) : Prop :=
  d' = d \/ (alive d = true /\ stepOutcome this d d').

Lemma stepLoop_spec `{Runtime} (this : ErosionSimulator.t) (batchSize : Z)
    (ds : list Droplet) :
  forall (activeCount : Z) (hm : Float32Array),
    wellFormed this hm ->
    exists ds' hm',
      stepLoop this batchSize ds activeCount hm = Ok (ds', hm')
      /\ length hm' = length hm
      /\ Forall2 (poolStep this) ds ds'
      /\ ((activeCount + Z.of_nat (length ds) <= batchSize)%Z ->
          Forall2 (fun d d' => alive d = true -> stepOutcome this d d') ds ds').
Proof.
  induction ds as [|d rest IH]; intros activeCount hm Hwf; simpl.
  - eexists _, _. split; [done|]. split; [done|]. split; [constructor|].
    intros _. constructor.
  - destruct (Z.ltb_spec activeCount batchSize) as [Hlt|Hge].
    + destruct (alive d) eqn:Ha.
      * destruct (stepDroplet_spec this hm d Hwf) as (d' & hm1 & -> & Hlen1 & Hout).
        cbn [mbind res_bind].
        assert (wellFormed this hm1) as Hwf1.
        { unfold wellFormed in *. by rewrite Hlen1. }
        destruct (IH (activeCount + 1)%Z hm1 Hwf1)
          as (rest' & hm2 & -> & Hlen2 & Hrest & Hfull).
        cbn [mbind res_bind].
        eexists _, _. split; [done|]. split; [by rewrite Hlen2|].
        split.
        { constructor; [|done]. right. by split. }
        intros Hb. constructor; [done|]. apply Hfull. lia.
      * destruct (IH activeCount hm Hwf)
          as (rest' & hm2 & -> & Hlen2 & Hrest & Hfull).
        cbn [mbind res_bind].
        eexists _, _. split; [done|]. split; [done|].
        split.
        { constructor; [|done]. by left. }
        intros Hb. constructor; [by rewrite Ha|]. apply Hfull. lia.
    + eexists _, _. split; [done|]. split; [done|]. split.
      * apply Forall2_same_length_lookup_2; [done|].
        intros i d1 d2 H1 H2. left. congruence.
      * intros Hb. lia.
Qed.

(** X1.  [stepDroplets] keeps the dimensions, the parameters, the pause
    flag, the length of the heightfield and the size of the pool; it
    returns whether a droplet is alive afterwards; it leaves every dead
    droplet as it is and revives none. *)
Theorem stepDroplets_frame `{Runtime} (this : ErosionSimulator.t)
    (ds : list Droplet) (batchSize : Z) :
  wellFormed this (heightMap this) -> droplets this = Some ds ->
  exists r this' ds',
    stepDroplets this batchSize = Ok (r, this')
    /\ width this' = width this /\ height this' = height this
    /\ params this' = params this
    /\ dropletsActive this' = dropletsActive this
    /\ length (heightMap this') = length (heightMap this)
    /\ droplets this' = Some ds'
    /\ r = existsb alive ds'
    /\ length ds' = length ds
    /\ Forall2 (fun d d' => (alive d = false -> d' = d)
                            /\ (alive d' = true -> alive d = true)) ds ds'.
Proof.
  intros Hwf Hds. unfold stepDroplets. rewrite Hds.
  destruct (stepLoop_spec this batchSize ds 0%Z _ Hwf)
    as (ds' & hm' & -> & Hlen & Hstep & _).
  cbn [mbind res_bind].
  eexists _, _, ds'. split; [done|]. cbn.
  repeat (split; [done|]).
  split; [symmetry; by eapply Forall2_length|].
  eapply Forall2_impl; [exact Hstep|].
  intros d d' [->|[Ha Hout]]; [done|].
  split; [congruence|]. intros _. done.
Qed.

Lemma stepDroplets_full_batch `{Runtime} (this : ErosionSimulator.t)
    (ds : list Droplet) (batchSize : Z) :
  wellFormed this (heightMap this) -> droplets this = Some ds ->
  (Z.of_nat (length ds) <= batchSize)%Z ->
  exists r this' ds',
    stepDroplets this batchSize = Ok (r, this')
    /\ wellFormed this' (heightMap this')
    /\ params this' = params this
    /\ width this' = width this /\ height this' = height this
    /\ droplets this' = Some ds'
    /\ r = existsb alive ds'
    /\ length ds' = length ds
    /\ Forall2 (fun d d' => if alive d then stepOutcome this d d' else d' = d)
         ds ds'.
Proof.
  intros Hwf Hds Hb. unfold stepDroplets. rewrite Hds.
  destruct (stepLoop_spec this batchSize ds 0%Z _ Hwf)
    as (ds' & hm' & -> & Hlen & Hstep & Hfull).
  cbn [mbind res_bind].
  eexists _, _, ds'. split; [done|]. cbn.
  split; [unfold wellFormed in *; cbn; by rewrite Hlen|].
  repeat (split; [done|]).
  split; [symmetry; by eapply Forall2_length|].
  specialize (Hfull ltac:(lia)).
  apply Forall2_same_length_lookup_2; [by eapply Forall2_length|].
  intros i d d' Hd Hd'.
  pose proof (Forall2_lookup_lr _ _ _ _ _ _ Hstep Hd Hd') as Hp.
  pose proof (Forall2_lookup_lr _ _ _ _ _ _ Hfull Hd Hd') as Hf.
  destruct (alive d) eqn:Ha; [by apply Hf|].
  destruct Hp as [->|[Ha' _]]; [done|congruence].
Qed.

(** X2.  After a batch that is at least as large as the pool, every droplet
    that is alive lies in the interior region, has been stepped no more
    than [maxDropletLifetime] times, holds at least [minVolume] water and
    moves at speed 0.01 or more. *)
Theorem survivors_are_inside_and_within_limits `{Runtime}
    (this : ErosionSimulator.t) (ds : list Droplet) (batchSize : Z) :
  wellFormed this (heightMap this) -> droplets this = Some ds ->
  (Z.of_nat (length ds) <= batchSize)%Z ->
  exists r this' ds',
    stepDroplets this batchSize = Ok (r, this')
    /\ droplets this' = Some ds'
    /\ Forall (fun d' =>
                 alive d' = true ->
                 inInterior this d'
                 /\ inject_Z (lifetime d') <= maxDropletLifetime (params this)
                 /\ minVolume (params this) <= water d'
                 /\ 1 # 100 <= speed d') ds'.
Proof.
  intros Hwf Hds Hb.
  destruct (stepDroplets_full_batch this ds batchSize Hwf Hds Hb)
    as (r & this' & ds' & Heq & _ & _ & _ & _ & Hds' & _ & _ & Hstep).
  exists r, this', ds'. split; [done|]. split; [done|].
  apply Forall_lookup. intros i d' Hd' Ha'.
  destruct (Forall2_lookup_r _ _ _ _ _ Hstep Hd') as (d & Hd & Hout).
  destruct (alive d) eqn:Ha; [|congruence].
  destruct Hout as [(Hdead & _)|(_ & Hin & _ & Hlim)]; [congruence|].
  destruct (Hlim Ha') as (_ & Hl & Hw & Hs). done.
Qed.

(** The pool after [k] full batches: a droplet that is still alive has
    been stepped [k] times. *)
Definition steppedAtLeast (k : Z) (ds : list Droplet) : Prop :=
  Forall (fun d => alive d = true -> (k <= lifetime d)%Z) ds.

Definition withinLifetime (this : ErosionSimulator.t) (ds : list Droplet) : Prop :=
  Forall (fun d => alive d = true ->
            inject_Z (lifetime d) <= maxDropletLifetime (params this)) ds.

Lemma full_batch_ages `{Runtime} (this : ErosionSimulator.t)
    (ds : list Droplet) (b k : Z) :
  wellFormed this (heightMap this) -> droplets this = Some ds ->
  (Z.of_nat (length ds) <= b)%Z -> steppedAtLeast k ds ->
  exists r this' ds',
    stepDroplets this b = Ok (r, this')
    /\ wellFormed this' (heightMap this')
    /\ params this' = params this
    /\ droplets this' = Some ds'
    /\ r = existsb alive ds'
    /\ length ds' = length ds
    /\ steppedAtLeast (k + 1) ds'
    /\ withinLifetime this ds'.
Proof.
  intros Hwf Hds Hb Hk.
  destruct (stepDroplets_full_batch this ds b Hwf Hds Hb)
    as (r & this1 & ds1 & Heq & Hwf1 & Hp1 & _ & _ & Hds1 & Hr & Hlen1 & Hstep).
  exists r, this1, ds1. repeat (split; [done|]).
  split; apply Forall_lookup; intros i d' Hd' Ha'.
  all: destruct (Forall2_lookup_r _ _ _ _ _ Hstep Hd') as (d & Hd & Hout).
  all: destruct (alive d) eqn:Ha; [|congruence].
  all: destruct Hout as [(Hdead & _)|(Hl & _ & _ & Hlim)]; [congruence|].
  - pose proof (Forall_lookup_1 _ _ _ _ Hk Hd Ha). lia.
  - by destruct (Hlim Ha') as (_ & Hle & _).
Qed.

Lemma stepMany_full_batches `{Runtime} (batches : list Z) :
  forall (this : ErosionSimulator.t) (ds : list Droplet) (k : Z),
    wellFormed this (heightMap this) -> droplets this = Some ds ->
    Forall (fun b => (Z.of_nat (length ds) <= b)%Z) batches ->
    steppedAtLeast k ds -> withinLifetime this ds ->
    exists this' ds',
      stepMany this batches = Ok this'
      /\ droplets this' = Some ds'
      /\ steppedAtLeast (k + Z.of_nat (length batches)) ds'
      /\ withinLifetime this ds'.
Proof.
  induction batches as [|b bs IH]; intros this ds k Hwf Hds Hbs Hk Hmax; simpl.
  - exists this, ds. split; [done|]. split; [done|].
    split; [by rewrite Z.add_0_r|done].
  - apply Forall_cons in Hbs as [Hb Hbs].
    destruct (full_batch_ages this ds b k Hwf Hds Hb Hk)
      as (r & this1 & ds1 & -> & Hwf1 & Hp1 & Hds1 & _ & Hlen1 & Hk1 & Hmax1).
    cbn [mbind res_bind].
    destruct (IH this1 ds1 (k + 1)%Z Hwf1 Hds1) as
      (this' & ds' & -> & Hds' & Hk' & Hmax').
    { by rewrite Hlen1. }
    { done. }
    { unfold withinLifetime in *. by rewrite Hp1. }
    exists this', ds'. split; [done|]. split; [done|].
    split.
    + replace (k + Z.of_nat (S (length bs)))%Z
        with (k + 1 + Z.of_nat (length bs))%Z by lia. done.
    + unfold withinLifetime in *. by rewrite <- Hp1.
Qed.

(** X3.  Run to completion: when every batch is at least as large as the
    pool, a pool of droplets that have not been stepped before is all dead
    after any number of batches greater than [maxDropletLifetime], and a
    further call returns [false].  With an integer [maxDropletLifetime]
    this is [maxDropletLifetime + 1] batches. *)
Theorem all_droplets_dead_after_lifetime `{Runtime}
    (this : ErosionSimulator.t) (ds : list Droplet) (b : Z) (bs : list Z) :
  wellFormed this (heightMap this) -> droplets this = Some ds ->
  Forall (fun d => (0 <= lifetime d)%Z) ds ->
  Forall (fun b' => (Z.of_nat (length ds) <= b')%Z) (b :: bs) ->
  maxDropletLifetime (params this) < inject_Z (Z.of_nat (length (b :: bs))) ->
  exists this' ds',
    stepMany this (b :: bs) = Ok this'
    /\ droplets this' = Some ds'
    /\ Forall (fun d => alive d = false) ds'
    /\ exists this'', stepDroplets this' b = Ok (false, this'').
Proof.
  intros Hwf Hds Hfresh Hbs Hmax.
  apply Forall_cons in Hbs as [Hb Hbs].
  assert (steppedAtLeast 0 ds) as Hk0.
  { eapply Forall_impl; [exact Hfresh|]. by intros d Hd _. }
  destruct (full_batch_ages this ds b 0 Hwf Hds Hb Hk0)
    as (r & this1 & ds1 & Heq1 & Hwf1 & Hp1 & Hds1 & _ & Hlen1 & Hk1 & Hmax1).
  destruct (stepMany_full_batches bs this1 ds1 (0 + 1)%Z Hwf1 Hds1) as
    (this' & ds' & Heq' & Hds' & Hk' & Hmax').
  { by rewrite Hlen1. }
  { done. }
  { unfold withinLifetime in *. by rewrite Hp1. }
  assert (Forall (fun d => alive d = false) ds') as Hdead.
  { apply Forall_lookup. intros i d Hd.
    destruct (alive d) eqn:Ha; [|done]. exfalso.
    pose proof (Forall_lookup_1 _ _ _ _ Hk' Hd Ha) as Hge.
    pose proof (Forall_lookup_1 _ _ _ _ Hmax' Hd Ha) as Hle.
    rewrite Hp1 in Hle.
    assert (inject_Z (Z.of_nat (length (b :: bs))) <= inject_Z (lifetime d)) as Hq.
    { rewrite <- Zle_Qle. simpl length. lia. }
    lra. }
  exists this', ds'. simpl. rewrite Heq1. cbn [mbind res_bind].
  split; [done|]. split; [done|]. split; [done|].
  unfold stepDroplets. rewrite Hds'.
  assert (forall ac hm, stepLoop this' b ds' ac hm = Ok (ds', hm)) as Hloop.
  { clear -Hdead. induction ds' as [|d rest IH]; intros ac hm; simpl; [done|].
    apply Forall_cons in Hdead as [Hd Hrest].
    destruct (ac <? b)%Z; [|done]. rewrite Hd. by rewrite (IH Hrest). }
  rewrite Hloop. cbn [mbind res_bind]. eexists. f_equal. f_equal.
  clear -Hdead. induction ds' as [|d rest IH]; simpl; [done|].
  apply Forall_cons in Hdead as [-> Hrest]. by apply IH.
Qed.

(** ** The seeded generator *)

(** The source after [n] draws. *)
Fixpoint afterDraws (r : RandomSource) (n : nat) : RandomSource :=
  match n with
  | O => r
  | S n' => snd (Math_random (afterDraws r n'))
  end.

Definition draw (r : RandomSource) (n : nat) : Q :=
  fst (Math_random (afterDraws r n)).

Lemma lcg_step_positive (s : Z) :
  (1 <= s < 2147483647)%Z ->
  (1 <= Z.rem (s * 16807) 2147483647 < 2147483647)%Z.
Proof.
  intros Hs.
  pose proof (Z.rem_bound_pos (s * 16807) 2147483647 ltac:(lia) ltac:(lia))
    as [Hlo Hhi].
  split; [|done].
  destruct (Z.eq_dec (Z.rem (s * 16807) 2147483647) 0%Z) as [Hz|]; [|lia].
  exfalso. apply Z.rem_divide in Hz; [|lia].
  rewrite Z.mul_comm in Hz.
  apply Z.gauss in Hz; [|by vm_compute].
  apply Z.divide_pos_le in Hz; lia.
Qed.

Lemma lcg_state (s : Z) (n : nat) :
  exists s', afterDraws (Lcg s) n = Lcg s'
             /\ ((1 <= s < 2147483647)%Z -> (1 <= s' < 2147483647)%Z)
             /\ (s = 0%Z -> s' = 0%Z).
Proof.
  induction n as [|n (s' & IH & Hpos & Hzero)]; simpl.
  - by exists s.
  - rewrite IH. simpl. eexists. split; [done|].
    split.
    + intros Hs. by apply lcg_step_positive, Hpos.
    + intros Hs. by rewrite (Hzero Hs).
Qed.

Lemma setSeed_state (seed : Z) :
  exists s, setSeed seed = Lcg s
            /\ (0 <= s < 2147483647)%Z
            /\ (s = 0%Z <-> Z.rem seed 2147483647 = (-2147483646)%Z).
Proof.
  unfold setSeed. eexists. split; [done|].
  pose proof (Z.rem_bound_abs seed 2147483647 ltac:(lia)) as Habs.
  destruct (Z.leb_spec (Z.rem seed 2147483647) 0%Z); lia.
Qed.

(** X4.  After [setSeed(seed)], for every integer seed, every draw of
    [Math.random] lies in [0, 1).  The draws are all positive, except for
    the seeds whose remainder by 2147483647 is -2147483646: for these the
    generator is stuck and every draw is 0. *)
Theorem seeded_draws (seed : Z) (n : nat) :
  0 <= draw (setSeed seed) n < 1
  /\ (Z.rem seed 2147483647 <> (-2147483646)%Z -> 0 < draw (setSeed seed) n)
  /\ (Z.rem seed 2147483647 = (-2147483646)%Z -> draw (setSeed seed) n == 0).
Proof.
  destruct (setSeed_state seed) as (s & Hseed & Hs & Hzero).
  unfold draw. rewrite Hseed.
  destruct (lcg_state s n) as (s' & -> & Hpos & Hstuck). simpl.
  assert (0 <= s' < 2147483647)%Z as Hs'.
  { destruct (Z.eq_dec s 0%Z) as [Hz|Hnz]; [rewrite (Hstuck Hz); lia|].
    assert (1 <= s < 2147483647)%Z as Hs1 by lia. specialize (Hpos Hs1). lia. }
  pose proof (Z.rem_bound_pos (s' * 16807) 2147483647 ltac:(lia) ltac:(lia))
    as [Hlo Hhi].
  split; [|split].
  - unfold Qdiv, Qle, Qlt, Qmult, Qinv, inject_Z. simpl. lia.
  - intros Hseed'.
    assert (1 <= s < 2147483647)%Z as Hs1 by lia.
    pose proof (lcg_step_positive s' (Hpos Hs1)) as Hstep.
    unfold Qdiv, Qlt, Qmult, Qinv, inject_Z. simpl. lia.
  - intros Hseed'. apply Hzero in Hseed'. rewrite (Hstuck Hseed').
    reflexivity.
Qed.

(** ** Interpolation is a weighted mean *)

Lemma bilinearInterp_inside (this : ErosionSimulator.t) (hm : Float32Array)
    (x y : Q) :
  wellFormed this hm -> ~ outOfRange this x y ->
  exists h00 h10 h01 h11,
    hm !! Z.to_nat (toIndex (width this) (Qfloor x) (Qfloor y)) = Some h00
    /\ hm !! Z.to_nat (toIndex (width this) (Qfloor x + 1) (Qfloor y)) = Some h10
    /\ hm !! Z.to_nat (toIndex (width this) (Qfloor x) (Qfloor y + 1)) = Some h01
    /\ hm !! Z.to_nat (toIndex (width this) (Qfloor x + 1) (Qfloor y + 1))
       = Some h11
    /\ _bilinearInterp this hm x y =
       Ok (h00 * (1 - (x - inject_Z (Qfloor x))) * (1 - (y - inject_Z (Qfloor y)))
           + h10 * (x - inject_Z (Qfloor x)) * (1 - (y - inject_Z (Qfloor y)))
           + h01 * (1 - (x - inject_Z (Qfloor x))) * (y - inject_Z (Qfloor y))
           + h11 * (x - inject_Z (Qfloor x)) * (y - inject_Z (Qfloor y))).
Proof.
  intros Hwf Hin. unfold outOfRange in Hin.
  assert ((0 <= Qfloor x < width this - 1)%Z
          /\ (0 <= Qfloor y < height this - 1)%Z) as [Hx Hy] by lia.
  destruct (corners_in_range this hm _ _ Hwf Hx Hy) as (H00 & H10 & H01 & H11).
  destruct (f32_get_in_range _ _ H00) as (h00 & L00 & G00).
  destruct (f32_get_in_range _ _ H10) as (h10 & L10 & G10).
  destruct (f32_get_in_range _ _ H01) as (h01 & L01 & G01).
  destruct (f32_get_in_range _ _ H11) as (h11 & L11 & G11).
  exists h00, h10, h01, h11. repeat (split; [done|]).
  unfold _bilinearInterp.
  destruct (_ || _ || _ || _) eqn:Hg.
  - repeat rewrite orb_true_iff in Hg.
    rewrite !Z.ltb_lt, !Z.geb_le in Hg. lia.
  - by rewrite G00, G10, G01, G11.
Qed.

Lemma weighted_mean_bounds (h00 h10 h01 h11 ox oy lo hi : Q) :
  0 <= ox < 1 -> 0 <= oy < 1 ->
  lo <= h00 <= hi -> lo <= h10 <= hi -> lo <= h01 <= hi -> lo <= h11 <= hi ->
  lo <= h00 * (1 - ox) * (1 - oy) + h10 * ox * (1 - oy)
        + h01 * (1 - ox) * oy + h11 * ox * oy <= hi.
Proof.
  intros Hx Hy H00 H10 H01 H11.
  destruct (weights ox oy Hx Hy) as (W00 & W10 & W01 & W11 & _).
  set (v := h00 * (1 - ox) * (1 - oy) + h10 * ox * (1 - oy)
            + h01 * (1 - ox) * oy + h11 * ox * oy).
  assert (v == lo + ((h00 - lo) * ((1 - ox) * (1 - oy))
                     + (h10 - lo) * (ox * (1 - oy))
                     + (h01 - lo) * ((1 - ox) * oy)
                     + (h11 - lo) * (ox * oy))) as Hlo by (unfold v; ring).
  assert (v == hi - ((hi - h00) * ((1 - ox) * (1 - oy))
                     + (hi - h10) * (ox * (1 - oy))
                     + (hi - h01) * ((1 - ox) * oy)
                     + (hi - h11) * (ox * oy))) as Hhi by (unfold v; ring).
  pose proof (Qmult_le_0_compat (h00 - lo) _ ltac:(lra) W00).
  pose proof (Qmult_le_0_compat (h10 - lo) _ ltac:(lra) W10).
  pose proof (Qmult_le_0_compat (h01 - lo) _ ltac:(lra) W01).
  pose proof (Qmult_le_0_compat (h11 - lo) _ ltac:(lra) W11).
  pose proof (Qmult_le_0_compat (hi - h00) _ ltac:(lra) W00).
  pose proof (Qmult_le_0_compat (hi - h10) _ ltac:(lra) W10).
  pose proof (Qmult_le_0_compat (hi - h01) _ ltac:(lra) W01).
  pose proof (Qmult_le_0_compat (hi - h11) _ ltac:(lra) W11).
  split; lra.
Qed.

(** X5.  Interpolation keeps the sign of the data.  On a well-formed
    heightfield [_bilinearInterp] returns a height at every point; the
    height is never negative when no cell is negative, and never positive
    when no cell is positive.  (The four weights are products of numbers in
    [0, 1], so this does not depend on rounding.) *)
Theorem interp_keeps_sign (this : ErosionSimulator.t) (hm : Float32Array)
    (x y : Q) :
  wellFormed this hm ->
  exists v, _bilinearInterp this hm x y = Ok v
            /\ (Forall (Qle 0) hm -> 0 <= v)
            /\ (Forall (fun a => a <= 0) hm -> v <= 0).
Proof.
  intros Hwf.
  destruct (decide (outOfRange this x y)) as [Hout|Hin].
  - exists 0. split; [by apply bilinearInterp_outOfRange|].
    split; intros _; apply Qle_refl.
  - destruct (bilinearInterp_inside this hm x y Hwf Hin)
      as (h00 & h10 & h01 & h11 & L00 & L10 & L01 & L11 & ->).
    eexists. split; [done|]. split; intros Hs.
    + pose proof (Forall_lookup_1 _ _ _ _ Hs L00) as A00.
      pose proof (Forall_lookup_1 _ _ _ _ Hs L10) as A10.
      pose proof (Forall_lookup_1 _ _ _ _ Hs L01) as A01.
      pose proof (Forall_lookup_1 _ _ _ _ Hs L11) as A11.
      simpl in A00, A10, A01, A11.
      apply (weighted_mean_bounds h00 h10 h01 h11 _ _ 0 (h00 + h10 + h01 + h11));
        try apply offset_range; split; lra.
    + pose proof (Forall_lookup_1 _ _ _ _ Hs L00) as A00.
      pose proof (Forall_lookup_1 _ _ _ _ Hs L10) as A10.
      pose proof (Forall_lookup_1 _ _ _ _ Hs L01) as A01.
      pose proof (Forall_lookup_1 _ _ _ _ Hs L11) as A11.
      simpl in A00, A10, A01, A11.
      apply (weighted_mean_bounds h00 h10 h01 h11 _ _ (h00 + h10 + h01 + h11) 0);
        try apply offset_range; split; lra.
Qed.

(** ** The smallest corner *)

(** X7.  For a cell inside a well-formed heightfield, [_bilinearMin] is
    the height of one of the four corners of the cell, and no corner is
    lower.  For a cell outside the grid, or in its last row or column, it
    is 0 and no cell is read. *)
Theorem bilinearMin_is_lowest_corner (this : ErosionSimulator.t)
    (hm : Float32Array) (cx cy : Z) :
  wellFormed this hm ->
  ((0 <= cx < width this - 1)%Z /\ (0 <= cy < height this - 1)%Z ->
   exists m,
     _bilinearMin this hm cx cy = Ok m
     /\ (forall j a, touchedBy this cx cy j -> hm !! j = Some a -> m <= a)
     /\ exists j a, touchedBy this cx cy j /\ hm !! j = Some a /\ m == a)
  /\ (~ ((0 <= cx < width this - 1)%Z /\ (0 <= cy < height this - 1)%Z) ->
      _bilinearMin this hm cx cy = Ok 0).
Proof.
  intros Hwf. split.
  - intros [Hx Hy].
    unfold _bilinearMin. rewrite (bilinearAdd_guard this _ _ Hx Hy).
    destruct (corners_in_range this hm _ _ Hwf Hx Hy) as (H00 & H10 & H01 & H11).
    destruct (f32_get_in_range _ _ H00) as (h00 & L00 & ->).
    destruct (f32_get_in_range _ _ H10) as (h10 & L10 & ->).
    destruct (f32_get_in_range _ _ H01) as (h01 & L01 & ->).
    destruct (f32_get_in_range _ _ H11) as (h11 & L11 & ->).
    cbn [mbind res_bind].
    set (m := Qmin (Qmin (Qmin h00 h10) h01) h11).
    assert (m <= h00 /\ m <= h10 /\ m <= h01 /\ m <= h11) as (B00 & B10 & B01 & B11).
    { unfold m.
      pose proof (Q.le_min_l (Qmin (Qmin h00 h10) h01) h11).
      pose proof (Q.le_min_r (Qmin (Qmin h00 h10) h01) h11).
      pose proof (Q.le_min_l (Qmin h00 h10) h01).
      pose proof (Q.le_min_r (Qmin h00 h10) h01).
      pose proof (Q.le_min_l h00 h10).
      pose proof (Q.le_min_r h00 h10).
      repeat split; lra. }
    exists m. split; [done|]. split.
    + intros j a [_ [-> | [-> | [-> | ->]]]] Ha.
      * assert (a = h00) as -> by congruence. done.
      * assert (a = h10) as -> by congruence. done.
      * assert (a = h01) as -> by congruence. done.
      * assert (a = h11) as -> by congruence. done.
    + assert (m == h00 \/ m == h10 \/ m == h01 \/ m == h11) as Hone.
      { unfold m.
        destruct (Q.min_spec (Qmin (Qmin h00 h10) h01) h11) as [[_ E1]|[_ E1]];
          [|right; right; right; exact E1].
        destruct (Q.min_spec (Qmin h00 h10) h01) as [[_ E2]|[_ E2]];
          [|right; right; left; by rewrite E1, E2].
        destruct (Q.min_spec h00 h10) as [[_ E3]|[_ E3]];
          [left|right; left]; by rewrite E1, E2, E3. }
      destruct Hone as [E | [E | [E | E]]].
      * exists (Z.to_nat (toIndex (width this) cx cy)), h00.
        split; [unfold touchedBy; tauto|]. by split.
      * exists (Z.to_nat (toIndex (width this) (cx + 1) cy)), h10.
        split; [unfold touchedBy; tauto|]. by split.
      * exists (Z.to_nat (toIndex (width this) cx (cy + 1))), h01.
        split; [unfold touchedBy; tauto|]. by split.
      * exists (Z.to_nat (toIndex (width this) (cx + 1) (cy + 1))), h11.
        split; [unfold touchedBy; tauto|]. by split.
  - intros Hout. unfold _bilinearMin.
    destruct (_ && _ && _ && _) eqn:Hg; [|done].
    repeat rewrite andb_true_iff in Hg.
    rewrite !Z.geb_le, !Z.ltb_lt in Hg. lia.
Qed.

(** ** Steepest-descent routing *)

Lemma foldM_prefix_invariant {A B} (P : list B -> A -> Prop)
    (f : A -> B -> res A) (l : list B) (a : A) :
  P [] a ->
  (forall pre b a, b ∈ l -> P pre a -> exists a', f a b = Ok a' /\ P (pre ++ [b]) a') ->
  exists a', foldM f l a = Ok a' /\ P l a'.
Proof.
  intros Ha Hf.
  assert (forall suf pre a0, (forall b, b ∈ suf -> b ∈ l) -> P pre a0 ->
            exists a', foldM f suf a0 = Ok a' /\ P (pre ++ suf) a') as Hgen.
  { induction suf as [|b suf IH]; intros pre a0 Hsub Hp; simpl.
    - exists a0. by rewrite app_nil_r.
    - destruct (Hf pre b a0 (Hsub b ltac:(left)) Hp) as (a1 & -> & Hp1).
      cbn [mbind res_bind].
      destruct (IH (pre ++ [b]) a1) as (a' & Heq & Hp'); [|done|].
      { intros b' Hb'. apply Hsub. by right. }
      exists a'. split; [done|]. by rewrite <- app_assoc in Hp'. }
  destruct (Hgen l [] a) as (a' & Heq & Hp); [done|done|].
  by exists a'.
Qed.

Definition inGrid (w h x y : Z) : Prop := (0 <= x < w /\ 0 <= y < h)%Z.

(** The height stored for cell [(x, y)]. *)
Definition heightAt (hm : Float32Array) (w x y : Z) : option Q :=
  hm !! Z.to_nat (y * w + x).

(** [(mx, my)] is cell [(x, y)] or one of its neighbours in the grid, it
    is the cell itself or strictly lower, and none of the neighbours of
    [(x, y)] at the offsets [offs] is lower than it. *)
Definition lowestAmong (hm : Float32Array) (w h x y : Z)
    (offs : list (Z * Z)) (mx my : Z) : Prop :=
  inGrid w h mx my /\ (-1 <= mx - x <= 1)%Z /\ (-1 <= my - y <= 1)%Z
  /\ exists zm zi,
       heightAt hm w mx my = Some zm /\ heightAt hm w x y = Some zi
       /\ (((mx = x /\ my = y) /\ zm = zi) \/ zm < zi)
       /\ forall d z, d ∈ offs -> inGrid w h (x + fst d) (y + snd d) ->
                      heightAt hm w (x + fst d) (y + snd d) = Some z -> zm <= z.

Lemma cell_index_bound (w h x y : Z) :
  inGrid w h x y -> (0 <= y * w + x < w * h)%Z.
Proof. unfold inGrid. intros [Hx Hy]. nia. Qed.

Lemma cell_index_in_range (hm : Float32Array) (w h x y : Z) :
  Z.of_nat (length hm) = (w * h)%Z -> inGrid w h x y ->
  (0 <= y * w + x < Z.of_nat (length hm))%Z.
Proof. unfold inGrid. intros -> [Hx Hy]. nia. Qed.

Lemma neighbourOffsets_bounds (d : Z * Z) :
  d ∈ neighbourOffsets ->
  (-1 <= fst d <= 1)%Z /\ (-1 <= snd d <= 1)%Z.
Proof.
  unfold neighbourOffsets. intros Hd.
  repeat (apply elem_of_cons in Hd as [->|Hd]; [simpl; lia|]).
  by apply elem_of_nil in Hd.
Qed.

Lemma downslopeOf_spec (hm : Float32Array) (w h x y : Z) :
  Z.of_nat (length hm) = (w * h)%Z -> inGrid w h x y ->
  exists mx my,
    downslopeOf hm w h x y = Ok (my * w + mx)%Z
    /\ lowestAmong hm w h x y neighbourOffsets mx my.
Proof.
  intros Hlen Hin. unfold downslopeOf.
  destruct (f32_get_in_range hm (y * w + x)
              (cell_index_in_range hm w h x y Hlen Hin)) as (zi & Lzi & ->).
  cbn [mbind res_bind].
  destruct (foldM_prefix_invariant
              (fun pre (acc : Q * Z) =>
                 exists mx my, snd acc = (my * w + mx)%Z
                   /\ heightAt hm w mx my = Some (fst acc)
                   /\ lowestAmong hm w h x y pre mx my)
              (scanNeighbour hm w h x y) neighbourOffsets (zi, (y * w + x)%Z))
    as (acc & -> & mx & my & Hidx & _ & Hlow).
  - exists x, y. split; [done|]. split; [done|].
    split; [done|]. split; [lia|]. split; [lia|].
    exists zi, zi. split; [done|]. split; [done|]. split; [by left|].
    intros d z Hd. by apply elem_of_nil in Hd.
  - intros pre d [z0 i0] Hd%neighbourOffsets_bounds (mx & my & Hidx & Hz0 & Hg & Hdx & Hdy & zm & zi' & Hzm & Hzi' & Hcmp & Hmin).
    simpl in Hidx, Hz0. subst i0.
    assert (zm = z0) as -> by congruence.
    assert (zi' = zi) as -> by (unfold heightAt in Hzi'; congruence).
    unfold scanNeighbour.
    destruct (_ || _ || _ || _) eqn:Hguard.
    + exists (z0, (my * w + mx)%Z). split; [done|].
      exists mx, my. split; [done|]. split; [done|].
      split; [done|]. split; [done|]. split; [done|].
      exists z0, zi. repeat (split; [done|]).
      intros d' z Hd' Hin' Hz. apply elem_of_app in Hd' as [Hd'|Hd'].
      * by eapply Hmin.
      * apply list_elem_of_singleton in Hd' as ->. exfalso.
        repeat rewrite orb_true_iff in Hguard.
        rewrite !Z.ltb_lt, !Z.geb_le in Hguard. unfold inGrid in Hin'. lia.
    + repeat rewrite orb_false_iff in Hguard.
      rewrite !Z.ltb_ge in Hguard. destruct Hguard as [[[Gx1 Gx2] Gy1] Gy2].
      destruct (Z.geb_spec (x + fst d) w); [done|].
      destruct (Z.geb_spec (y + snd d) h); [done|].
      assert (inGrid w h (x + fst d) (y + snd d)) as Hnin by (unfold inGrid; lia).
      destruct (f32_get_in_range hm ((y + snd d) * w + (x + fst d))
                  (cell_index_in_range hm w h _ _ Hlen Hnin)) as (z & Lz & ->).
      cbn [mbind res_bind fst snd].
      destruct (Qltb z z0) eqn:Hlt.
      * apply Qltb_lt in Hlt.
        eexists. split; [done|]. cbn [fst snd].
        exists (x + fst d)%Z, (y + snd d)%Z. split; [done|]. split; [done|].
        split; [done|]. split; [|split].
        { lia. }
        { lia. }
        exists z, zi. split; [done|]. split; [done|]. split.
        { right. destruct Hcmp as [[_ ->]|Hc]; lra. }
        intros d' z' Hd' Hin' Hz'. apply elem_of_app in Hd' as [Hd'|Hd'].
        -- pose proof (Hmin d' z' Hd' Hin' Hz'). lra.
        -- apply list_elem_of_singleton in Hd' as ->.
           unfold heightAt in Hz'. assert (z' = z) as -> by congruence. lra.
      * apply Qltb_ge in Hlt.
        eexists. split; [done|]. cbn [fst snd].
        exists mx, my. split; [done|]. split; [done|].
        split; [done|]. split; [done|]. split; [done|].
        exists z0, zi. repeat (split; [done|]).
        intros d' z' Hd' Hin' Hz'. apply elem_of_app in Hd' as [Hd'|Hd'].
        -- by eapply Hmin.
        -- apply list_elem_of_singleton in Hd' as ->.
           unfold heightAt in Hz'. assert (z' = z) as -> by congruence. done.
  - simpl in Hidx. exists mx, my. cbn [mbind res_bind]. rewrite Hidx. done.
Qed.

(** The entry of [downslope] for cell [(x, y)] is a lowest neighbour. *)
Definition routed (hm : Float32Array) (w h : Z) (ds : Int32Array) (x y : Z)
  : Prop :=
  exists mx my,
    ds !! Z.to_nat (y * w + x) = Some (my * w + mx)%Z
    /\ lowestAmong hm w h x y neighbourOffsets mx my.

Lemma routed_after_write (hm : Float32Array) (w h : Z) (ds : Int32Array)
    (x y mx my x' y' : Z) :
  Z.of_nat (length ds) = (w * h)%Z ->
  inGrid w h x y -> inGrid w h x' y' ->
  lowestAmong hm w h x y neighbourOffsets mx my ->
  (routed hm w h ds x' y' \/ (x' = x /\ y' = y)) ->
  routed hm w h (i32_set ds (y * w + x) (my * w + mx)) x' y'.
Proof.
  intros Hlen Hin Hin' Hlow Hold. unfold routed, i32_set.
  pose proof (cell_index_bound w h x y Hin) as Hr.
  pose proof (cell_index_bound w h x' y' Hin') as Hr'.
  destruct (Z.ltb_spec (y * w + x) 0); [lia|].
  destruct (decide (x' = x /\ y' = y)) as [[-> ->]|Hne].
  - exists mx, my. split; [|done].
    apply list_lookup_insert_eq. lia.
  - destruct Hold as [(mx' & my' & Hl & Hlow')|?]; [|done].
    exists mx', my'. split; [|done].
    rewrite list_lookup_insert_ne; [done|].
    unfold inGrid in *. intros Heq.
    assert (y * w + x = y' * w + x')%Z as Heq' by lia.
    apply Hne.
    assert (y' = y) as -> by nia.
    split; [lia|done].
Qed.

Lemma i32_set_length (a : Int32Array) (i v : Z) :
  length (i32_set a i v) = length a.
Proof. unfold i32_set. destruct (i <? 0)%Z; [done|]. by rewrite length_insert. Qed.

Lemma computeDownslope_spec (hm : Float32Array) (w h : Z) :
  Z.of_nat (length hm) = (w * h)%Z ->
  exists ds,
    computeDownslope hm w h = Ok ds
    /\ length ds = length hm
    /\ forall x y, inGrid w h x y -> routed hm w h ds x y.
Proof.
  intros Hlen. unfold computeDownslope.
  destruct (foldM_prefix_invariant
              (fun (pre : list Z) (ds : Int32Array) =>
                 length ds = length hm
                 /\ forall x y, y ∈ pre -> inGrid w h x y -> routed hm w h ds x y)
              (fun ds y =>
                 foldM (fun ds x => m ← downslopeOf hm w h x y;
                                    Ok (i32_set ds (y * w + x) m))
                   (seqZ 0 w) ds)
              (seqZ 0 h) (replicate (Z.to_nat (w * h)) 0%Z))
    as (ds & -> & Hlen' & Hall).
  - split; [rewrite length_replicate; lia|].
    intros x y Hy. by apply elem_of_nil in Hy.
  - intros rows y ds0 Hy%elem_of_seqZ [Hlen0 Hrows].
    destruct (foldM_prefix_invariant
                (fun (pre : list Z) (ds : Int32Array) =>
                   length ds = length hm
                   /\ (forall x' y', y' ∈ rows -> inGrid w h x' y' ->
                                     routed hm w h ds x' y')
                   /\ forall x', x' ∈ pre -> inGrid w h x' y ->
                                 routed hm w h ds x' y)
                (fun ds x => m ← downslopeOf hm w h x y;
                             Ok (i32_set ds (y * w + x) m))
                (seqZ 0 w) ds0)
      as (ds1 & -> & Hlen1 & Hrows1 & Hcols1).
    + split; [done|]. split; [done|].
      intros x' Hx'. by apply elem_of_nil in Hx'.
    + intros cols x ds2 Hx%elem_of_seqZ (Hlen2 & Hrows2 & Hcols2).
      assert (inGrid w h x y) as Hin by (unfold inGrid; lia).
      destruct (downslopeOf_spec hm w h x y Hlen Hin) as (mx & my & -> & Hlow).
      cbn [mbind res_bind]. eexists. split; [done|].
      split; [by rewrite i32_set_length|].
      assert (Z.of_nat (length ds2) = (w * h)%Z) as Hl2 by (by rewrite Hlen2).
      split.
      * intros x' y' Hy' Hin'.
        apply (routed_after_write hm w h ds2 x y mx my x' y'); try done.
        left. by apply Hrows2.
      * intros x' Hx' Hin'. apply elem_of_app in Hx' as [Hx'|Hx'].
        -- apply (routed_after_write hm w h ds2 x y mx my x' y); try done.
           left. by apply Hcols2.
        -- apply list_elem_of_singleton in Hx' as ->.
           apply (routed_after_write hm w h ds2 x y mx my x y); try done.
           by right.
    + eexists. split; [done|]. split; [done|].
      intros x' y' Hy' Hin'. apply elem_of_app in Hy' as [Hy'|Hy'].
      * by apply Hrows1.
      * apply list_elem_of_singleton in Hy' as ->.
        apply Hcols1; [|done]. apply elem_of_seqZ. unfold inGrid in Hin'. lia.
  - exists ds. split; [done|]. split; [done|].
    intros x y Hin. apply Hall; [|done].
    apply elem_of_seqZ. unfold inGrid in Hin. lia.
Qed.

(** X8.  For a heightfield of [width * height] cells [computeFlowMap]'s
    routing table is complete: the downslope target of every cell is the
    cell itself or one of its (up to 8) neighbours inside the grid; a
    target other than the cell is strictly lower than the cell, and no
    neighbour is lower than the target.  A cell without a strictly lower
    neighbour, such as a cell of a plateau, is its own target. *)
Theorem downslope_is_steepest_descent (hm : Float32Array) (w h : Z) :
  Z.of_nat (length hm) = (w * h)%Z ->
  exists ds,
    computeDownslope hm w h = Ok ds
    /\ length ds = length hm
    /\ forall x y, inGrid w h x y ->
         exists mx my zm zi,
           ds !! Z.to_nat (y * w + x) = Some (my * w + mx)%Z
           /\ inGrid w h mx my
           /\ (-1 <= mx - x <= 1)%Z /\ (-1 <= my - y <= 1)%Z
           /\ heightAt hm w mx my = Some zm /\ heightAt hm w x y = Some zi
           /\ ((mx = x /\ my = y) \/ zm < zi)
           /\ (forall dx dy z,
                 (-1 <= dx <= 1)%Z -> (-1 <= dy <= 1)%Z ->
                 inGrid w h (x + dx) (y + dy) ->
                 heightAt hm w (x + dx) (y + dy) = Some z -> zm <= z)
           /\ ((forall dx dy z,
                  (-1 <= dx <= 1)%Z -> (-1 <= dy <= 1)%Z ->
                  inGrid w h (x + dx) (y + dy) ->
                  heightAt hm w (x + dx) (y + dy) = Some z -> zi <= z) ->
               mx = x /\ my = y).
Proof.
  intros Hlen.
  destruct (computeDownslope_spec hm w h Hlen) as (ds & Heq & Hlen' & Hall).
  exists ds. split; [done|]. split; [done|].
  intros x y Hin.
  destruct (Hall x y Hin)
    as (mx & my & Hl & Hg & Hdx & Hdy & zm & zi & Hzm & Hzi & Hcmp & Hmin).
  exists mx, my, zm, zi. repeat (split; [done|]).
  split; [destruct Hcmp as [[? _]|?]; [by left|by right]|].
  split.
  - intros dx dy z Hx Hy Hin' Hz.
    destruct (decide (dx = 0 /\ dy = 0)%Z) as [[-> ->]|Hne].
    + rewrite !Z.add_0_r in Hz. assert (z = zi) as -> by congruence.
      destruct Hcmp as [[_ ->]|?]; lra.
    + apply (Hmin (dx, dy) z); [|done|done].
      unfold neighbourOffsets.
      assert (dx = -1 \/ dx = 0 \/ dx = 1)%Z as Hcx by lia.
      assert (dy = -1 \/ dy = 0 \/ dy = 1)%Z as Hcy by lia.
      destruct Hcx as [-> | [-> | ->]], Hcy as [-> | [-> | ->]];
        try (exfalso; apply Hne; done);
        repeat (first [by left | right]).
  - intros Hflat. destruct Hcmp as [[? _]|Hlt]; [done|]. exfalso.
    pose proof (Hflat (mx - x)%Z (my - y)%Z zm Hdx Hdy) as Hle.
    replace (x + (mx - x))%Z with mx in Hle by lia.
    replace (y + (my - y))%Z with my in Hle by lia.
    specialize (Hle Hg Hzm). lra.
Qed.

(** ** Flow accumulation *)

Lemma foldM_split_invariant {A B} (P : list B -> A -> Prop)
    (f : A -> B -> res A) (l : list B) (a : A) :
  P [] a ->
  (forall pre b suf a, l = pre ++ b :: suf -> P pre a ->
                       exists a', f a b = Ok a' /\ P (pre ++ [b]) a') ->
  exists a', foldM f l a = Ok a' /\ P l a'.
Proof.
  intros Ha Hf.
  assert (forall suf pre a0, l = pre ++ suf -> P pre a0 ->
            exists a', foldM f suf a0 = Ok a' /\ P (pre ++ suf) a') as Hgen.
  { induction suf as [|b suf IH]; intros pre a0 Hl Hp; simpl.
    - exists a0. by rewrite app_nil_r.
    - destruct (Hf pre b suf a0 Hl Hp) as (a1 & -> & Hp1).
      cbn [mbind res_bind].
      destruct (IH (pre ++ [b]) a1) as (a' & Heq & Hp'); [|done|].
      { by rewrite <- app_assoc. }
      exists a'. split; [done|]. by rewrite <- app_assoc in Hp'. }
  destruct (Hgen l [] a) as (a' & Heq & Hp); [done|done|].
  by exists a'.
Qed.

Lemma mapM_total {A B} (f : A -> res B) (g : A -> B) (l : list A) :
  (forall a, a ∈ l -> f a = Ok (g a)) -> mapM f l = Ok (map g l).
Proof.
  induction l as [|a l IH]; intros Hf; simpl; [done|].
  rewrite (Hf a) by left. cbn [mbind res_bind].
  rewrite IH; [done|]. intros a' Ha'. apply Hf. by right.
Qed.

(** Ascending order of the heights read for the indices. *)
Fixpoint ascending (l : list (Z * Q)) : Prop :=
  match l with
  | [] => True
  | a :: l' => Forall (fun b => snd a <= snd b) l' /\ ascending l'
  end.

Lemma insertByHeight_perm (a : Z * Q) (l : list (Z * Q)) :
  insertByHeight a l ≡ₚ a :: l.
Proof.
  induction l as [|b l IH]; simpl; [done|].
  destruct (Qle_bool (snd a) (snd b)); [done|].
  rewrite IH. apply Permutation_swap.
Qed.

Lemma sortByHeight_perm (l : list (Z * Q)) : sortByHeight l ≡ₚ l.
Proof.
  induction l as [|a l IH]; simpl; [done|].
  rewrite insertByHeight_perm. by rewrite IH.
Qed.

Lemma insertByHeight_ascending (a : Z * Q) (l : list (Z * Q)) :
  ascending l -> ascending (insertByHeight a l).
Proof.
  induction l as [|b l IH]; simpl; [done|].
  intros [Hb Hl].
  destruct (Qle_bool (snd a) (snd b)) eqn:Hcmp; simpl.
  - apply Qle_bool_iff in Hcmp. split; [|done].
    constructor; [done|].
    eapply Forall_impl; [exact Hb|]. simpl. intros c Hc. lra.
  - assert (snd b <= snd a) as Hba.
    { destruct (Qlt_le_dec (snd b) (snd a)) as [?|Hle]; [lra|].
      apply Qle_bool_iff in Hle. congruence. }
    split; [|by apply IH].
    rewrite insertByHeight_perm. by constructor.
Qed.

Lemma sortByHeight_ascending (l : list (Z * Q)) : ascending (sortByHeight l).
Proof.
  induction l as [|a l IH]; simpl; [done|]. by apply insertByHeight_ascending.
Qed.

Lemma ascending_prefix (pre suf : list (Z * Q)) (a : Z * Q) :
  ascending (pre ++ a :: suf) -> Forall (fun b => snd b <= snd a) pre.
Proof.
  induction pre as [|b pre IH]; simpl; [done|].
  intros [Hb Hrest]. constructor; [|by apply IH].
  apply Forall_app in Hb as [_ Hb]. by apply Forall_cons in Hb as [Hb _].
Qed.

(** The number of cells of [l] other than [c] whose downslope target is
    [c]. *)
Fixpoint countDonors (ds : Int32Array) (c : Z) (l : list Z) : Z :=
  match l with
  | [] => 0
  | j :: l' =>
      ((if match ds !! Z.to_nat j with
            | Some t => (t =? c)%Z && negb (j =? c)%Z
            | None => false
            end
        then 1 else 0) + countDonors ds c l')%Z
  end.

Lemma countDonors_app (ds : Int32Array) (c : Z) (l1 l2 : list Z) :
  countDonors ds c (l1 ++ l2) = (countDonors ds c l1 + countDonors ds c l2)%Z.
Proof. induction l1 as [|j l1 IH]; simpl; [done|]. rewrite IH. lia. Qed.

Lemma countDonors_perm (ds : Int32Array) (c : Z) (l1 l2 : list Z) :
  l1 ≡ₚ l2 -> countDonors ds c l1 = countDonors ds c l2.
Proof.
  induction 1; simpl; lia.
Qed.

Lemma countDonors_none (ds : Int32Array) (c : Z) (l : list Z) :
  (forall j, j ∈ l -> ds !! Z.to_nat j = Some c -> j = c) ->
  countDonors ds c l = 0%Z.
Proof.
  induction l as [|j l IH]; intros Hnone; simpl; [done|].
  rewrite IH by (intros j' Hj'; apply Hnone; by right).
  destruct (ds !! Z.to_nat j) as [t|] eqn:Ht; [|done].
  destruct (Z.eqb_spec t c) as [->|]; [|done].
  rewrite (Hnone j ltac:(left) Ht). by rewrite Z.eqb_refl.
Qed.

Lemma foldM_map {A B C} (f : A -> B -> res A) (g : C -> B) (l : list C) (a : A) :
  foldM f (map g l) a = foldM (fun a c => f a (g c)) l a.
Proof.
  revert a. induction l as [|c l IH]; intros a; simpl; [done|].
  destruct (f a (g c)); simpl; [apply IH|done].
Qed.

(** The routing table read by index. *)
Lemma target_by_index (hm : Float32Array) (w h : Z) (ds : Int32Array) :
  (0 <= w)%Z -> (0 <= h)%Z -> Z.of_nat (length hm) = (w * h)%Z ->
  (forall x y, inGrid w h x y -> routed hm w h ds x y) ->
  forall idx, (0 <= idx < w * h)%Z ->
    exists t zt zi,
      ds !! Z.to_nat idx = Some t /\ (0 <= t < w * h)%Z
      /\ hm !! Z.to_nat t = Some zt /\ hm !! Z.to_nat idx = Some zi
      /\ (t = idx \/ zt < zi).
Proof.
  intros Hw Hh Hlen Hall idx Hidx.
  assert (0 < w)%Z as Hw' by nia.
  pose proof (Z.div_mod idx w ltac:(lia)) as Hdm.
  pose proof (Z.mod_pos_bound idx w Hw') as Hmod.
  assert (0 <= idx / w < h)%Z as Hdiv.
  { split; [apply Z.div_pos; lia|]. apply Z.div_lt_upper_bound; lia. }
  assert (inGrid w h (idx mod w) (idx / w)) as Hin by (unfold inGrid; lia).
  assert (idx / w * w + idx mod w = idx)%Z as Hrow by lia.
  destruct (Hall _ _ Hin)
    as (mx & my & Hl & Hg & _ & _ & zm & zi & Hzm & Hzi & Hcmp & _).
  unfold heightAt in Hzm, Hzi. rewrite Hrow in Hl, Hzi.
  exists (my * w + mx)%Z, zm, zi. split; [done|].
  split; [by apply cell_index_bound|]. split; [done|]. split; [done|].
  destruct Hcmp as [[[-> ->] _]|Hlt]; [left; lia|by right].
Qed.

Lemma computeFlowMap_spec (hm : Float32Array) (w h : Z) :
  (0 <= w)%Z -> (0 <= h)%Z -> Z.of_nat (length hm) = (w * h)%Z ->
  exists ds fm,
    computeDownslope hm w h = Ok ds
    /\ computeFlowMap hm w h = Ok fm
    /\ length fm = length hm
    /\ forall c, (0 <= c < w * h)%Z ->
         exists v, fm !! Z.to_nat c = Some v
                   /\ v == inject_Z (1 + countDonors ds c (seqZ 0 (w * h))).
Proof.
  intros Hw Hh Hlen.
  destruct (computeDownslope_spec hm w h Hlen) as (ds & Hds & Hdslen & Hall).
  pose proof (target_by_index hm w h ds Hw Hh Hlen Hall) as Htarget.
  exists ds. unfold computeFlowMap, f32_filled. rewrite Hds.
  destruct (Z.ltb_spec (w * h) 0); [lia|].
  cbn [mbind res_bind].
  set (hkey := fun i : Z => default 0 (hm !! Z.to_nat i)).
  rewrite (mapM_total _ (fun i => (i, hkey i))).
  2:{ intros i Hi%elem_of_seqZ.
      destruct (f32_get_in_range hm i) as (z & Lz & ->); [lia|].
      cbn [mbind res_bind]. unfold hkey. by rewrite Lz. }
  cbn [mbind res_bind]. rewrite foldM_map.
  set (keyed := map (fun i => (i, hkey i)) (seqZ 0 (w * h))).
  pose proof (sortByHeight_perm keyed) as Hperm.
  pose proof (sortByHeight_ascending keyed) as Hasc.
  assert (forall p, p ∈ sortByHeight keyed ->
            (0 <= fst p < w * h)%Z /\ snd p = hkey (fst p)) as Hmem.
  { intros p Hp. rewrite Hperm in Hp. unfold keyed in Hp.
    apply list_elem_of_In, in_map_iff in Hp as (i & <- & Hi).
    apply list_elem_of_In, elem_of_seqZ in Hi. simpl. split; [lia|done]. }
  destruct (foldM_split_invariant
              (fun (pre : list (Z * Q)) (fm : Float32Array) =>
                 length fm = length hm
                 /\ forall c, (0 <= c < w * h)%Z ->
                      exists v, fm !! Z.to_nat c = Some v
                                /\ v == inject_Z (1 + countDonors ds c (map fst pre)))
              (fun fm p => accumulate ds fm (fst p))
              (sortByHeight keyed) (replicate (Z.to_nat (w * h)) 1))
    as (fm & -> & Hfmlen & Hfm).
  - split; [rewrite length_replicate; lia|].
    intros c Hc. exists 1. split; [|done].
    apply lookup_replicate. split; [done|lia].
  - intros pre [idx k] suf fm Hsplit [Hfmlen Hfm].
    destruct (Hmem (idx, k)) as [Hidx Hk].
    { rewrite Hsplit. apply elem_of_app. right. left. }
    simpl in Hidx, Hk.
    destruct (Htarget idx Hidx) as (t & zt & zi & Lt & Ht & Lzt & Lzi & Hcmp).
    assert (forall c, countDonors ds c (map fst (pre ++ [(idx, k)]))
                      = (countDonors ds c (map fst pre)
                         + if (t =? c)%Z && negb (idx =? c)%Z then 1 else 0)%Z)
      as Hcount.
    { intros c. rewrite map_app, countDonors_app. simpl. rewrite Lt. lia. }
    unfold accumulate, i32_get. cbn [fst].
    destruct (Z.ltb_spec idx 0); [lia|]. rewrite Lt. cbn [mbind res_bind].
    destruct (Z.eqb_spec t idx) as [->|Hne].
    + eexists. split; [done|]. split; [done|].
      intros c Hc. destruct (Hfm c Hc) as (v & Lv & Hv).
      exists v. split; [done|]. rewrite Hcount, Hv.
      destruct (Z.eqb_spec idx c); simpl; f_equiv; lia.
    + destruct Hcmp as [?|Hlt]; [done|].
      destruct (Hfm idx Hidx) as (f & Lf & Hf).
      destruct (Hfm t Ht) as (vt & Lvt & Hvt).
      assert (countDonors ds idx (map fst pre) = 0%Z) as Hzero.
      { apply countDonors_none. intros j Hj Lj.
        apply list_elem_of_In, in_map_iff in Hj as (q & <- & Hq).
        apply list_elem_of_In in Hq.
        destruct (Hmem q) as [Hqr Hqk].
        { rewrite Hsplit. apply elem_of_app. by left. }
        destruct (Z.eq_dec (fst q) idx) as [|Hneq]; [done|]. exfalso.
        destruct (Htarget (fst q) Hqr) as (t' & zt' & zq & Lt' & _ & Lzt' & Lzq & Hcmp').
        assert (t' = idx) as -> by congruence.
        destruct Hcmp' as [?|Hlt']; [done|].
        rewrite Hsplit in Hasc. apply ascending_prefix in Hasc.
        pose proof (proj1 (Forall_forall _ _) Hasc q Hq) as Hle.
        simpl in Hle. rewrite Hqk, Hk in Hle. unfold hkey in Hle.
        rewrite Lzq, Lzi in Hle. simpl in Hle.
        assert (zt' = zi) as -> by congruence. lra. }
      rewrite Hzero in Hf.
      unfold f32_get. destruct (Z.ltb_spec idx 0); [lia|].
      destruct (Z.ltb_spec t 0); [lia|]. rewrite Lf. cbn [mbind res_bind].
      destruct (Z.ltb_spec t 0); [lia|]. rewrite Lvt. cbn [mbind res_bind].
      eexists. split; [done|]. split; [by rewrite f32_set_length|].
      intros c Hc. unfold f32_set. destruct (Z.ltb_spec t 0); [lia|].
      rewrite Hcount.
      destruct (Z.eqb_spec t c) as [->|Hc'].
      * exists (Qred (vt + f)). split.
        { apply list_lookup_insert_eq. lia. }
        rewrite Qred_correct, Hvt, Hf.
        destruct (Z.eqb_spec idx c); [lia|]. simpl.
        rewrite <- inject_Z_plus. f_equiv. lia.
      * destruct (Hfm c Hc) as (v & Lv & Hv).
        exists v. split; [|rewrite Hv; simpl; f_equiv; lia].
        rewrite list_lookup_insert_ne; [done|lia].
  - exists fm. split; [done|]. split; [done|]. split; [done|].
    intros c Hc. destruct (Hfm c Hc) as (v & Lv & Hv).
    exists v. split; [done|]. rewrite Hv. f_equiv. f_equal.
    apply countDonors_perm. rewrite Hperm. unfold keyed.
    rewrite map_map. simpl. by rewrite map_id.
Qed.

(** X9.  What [computeFlowMap] returns, for a heightfield of
    [width * height] cells: an array of the same length in which the flow
    of a cell is 1 plus the number of other cells whose downslope target it
    is.  Flow is passed on one cell only: the cells are visited in
    ascending order of height, so each cell hands down its initial flow of
    1 before it receives anything. *)
Theorem flow_counts_direct_donors (hm : Float32Array) (w h : Z) :
  (0 <= w)%Z -> (0 <= h)%Z -> Z.of_nat (length hm) = (w * h)%Z ->
  exists ds fm,
    computeDownslope hm w h = Ok ds
    /\ computeFlowMap hm w h = Ok fm
    /\ length fm = length hm
    /\ forall c, (0 <= c < w * h)%Z ->
         exists v, fm !! Z.to_nat c = Some v
                   /\ v == inject_Z (1 + countDonors ds c (seqZ 0 (w * h))).
Proof. exact (computeFlowMap_spec hm w h). Qed.

(** X10.  On a plateau, a heightfield whose cells all hold the same
    height, no cell routes to another: the routing table is the identity
    and every flow is 1. *)
Theorem plateau_has_unit_flow (c : Q) (w h : Z) :
  (0 <= w)%Z -> (0 <= h)%Z ->
  exists ds fm,
    computeDownslope (replicate (Z.to_nat (w * h)) c) w h = Ok ds
    /\ computeFlowMap (replicate (Z.to_nat (w * h)) c) w h = Ok fm
    /\ forall i, (0 <= i < w * h)%Z ->
         ds !! Z.to_nat i = Some i
         /\ exists v, fm !! Z.to_nat i = Some v /\ v == 1.
Proof.
  intros Hw Hh.
  set (hm := replicate (Z.to_nat (w * h)) c).
  assert (Z.of_nat (length hm) = (w * h)%Z) as Hlen.
  { unfold hm. rewrite length_replicate. nia. }
  destruct (computeFlowMap_spec hm w h Hw Hh Hlen) as (ds & fm & Hds & Hfm & _ & Hflow).
  destruct (computeDownslope_spec hm w h Hlen) as (ds' & Hds' & _ & Hall).
  assert (ds' = ds) as -> by congruence.
  pose proof (target_by_index hm w h ds Hw Hh Hlen Hall) as Htarget.
  assert (forall i, (0 <= i < w * h)%Z -> ds !! Z.to_nat i = Some i) as Hid.
  { intros i Hi.
    destruct (Htarget i Hi) as (t & zt & zi & Lt & _ & Lzt & Lzi & Hcmp).
    apply lookup_replicate in Lzt as [-> _], Lzi as [-> _].
    destruct Hcmp as [->|Hlt]; [done|lra]. }
  exists ds, fm. split; [done|]. split; [done|].
  intros i Hi. split; [by apply Hid|].
  destruct (Hflow i Hi) as (v & Lv & Hv).
  exists v. split; [done|]. rewrite Hv.
  rewrite countDonors_none; [done|].
  intros j Hj%elem_of_seqZ Lj.
  rewrite Hid in Lj by lia. congruence.
Qed.

(** ** The cellular-noise fallback *)

Lemma nearestDistance_finite `{Runtime} (pts : list (Q * Q)) (px py : Q) :
  pts <> [] -> exists dist, Gen.nearestDistance pts px py = Some dist.
Proof.
  unfold Gen.nearestDistance. intros Hne.
  destruct pts as [|pt pts]; [done|]. cbn [foldl].
  match goal with
  | |- context [foldl ?f (Some ?m) pts] => generalize m
  end.
  induction pts as [|pt' pts IH]; intros m; cbn [foldl]; [by eexists|].
  apply IH. done.
Qed.

Lemma createWorleyPointsInternal_length `{Gen.NoiseLib} (count : Z) (seed : Q) :
  length (Gen.createWorleyPointsInternal count seed) = Z.to_nat count.
Proof.
  unfold Gen.createWorleyPointsInternal.
  by rewrite length_map, length_seq.
Qed.

(** The arguments of the constructor call in [generateTerrainInternal] and
    the call itself. *)
Definition worleySeedActual (p : Gen.Params) : Q :=
  if Qeq_bool (Gen.worleySeed p) 0 then Gen.seed p else Gen.worleySeed p.

Definition worleyPointsArray `{Gen.NoiseLib} (p : Gen.Params) : list (Q * Q) :=
  Gen.createWorleyPointsInternal
    (Z.max 128 (Z.min 4096 (Qfloor (Gen.worleyPoints p)))) (worleySeedActual p).

Definition worleyCall `{Gen.NoiseLib} (p : Gen.Params) : res Gen.WorleyInstance :=
  Gen.WorleyNoise (Z.of_nat (length (worleyPointsArray p)))
    (Qfloor (worleySeedActual p)) (Gen.worleyDimension p) (worleyPointsArray p).

Lemma initWorley_spec `{Runtime} `{Gen.NoiseLib} (p : Gen.Params) :
  (exists pts, Gen.points (Gen.initWorley p) = Some pts /\ pts <> [])
  /\ (forall inst pt pts,
        worleyCall p = Ok inst -> Gen.points inst = Some (pt :: pts) ->
        Gen.initWorley p = inst)
  /\ (match worleyCall p with
      | Ok inst => Gen.points inst = None \/ Gen.points inst = Some []
      | Fault _ => True
      end ->
      Gen.initWorley p = Gen.fallbackWorley (worleyPointsArray p)
      /\ (128 <= length (worleyPointsArray p) <= 4096)%nat
      /\ forall px py, exists dist,
           Gen.getEuclidean (Gen.initWorley p) px py = Some dist).
Proof.
  assert (128 <= length (worleyPointsArray p) <= 4096)%nat as Hlen.
  { unfold worleyPointsArray. rewrite createWorleyPointsInternal_length. lia. }
  assert (worleyPointsArray p <> []) as Hne.
  { intros Heq. rewrite Heq in Hlen. simpl in Hlen. lia. }
  assert (Gen.initWorley p
          = match worleyCall p with
            | Ok inst => match Gen.points inst with
                         | Some (_ :: _) => inst
                         | _ => Gen.fallbackWorley (worleyPointsArray p)
                         end
            | Fault _ => Gen.fallbackWorley (worleyPointsArray p)
            end) as Hinit.
  { unfold Gen.initWorley, worleyCall, worleyPointsArray, worleySeedActual.
    destruct (Gen.WorleyNoise _ _ _ _) as [inst|e]; cbn [mbind res_bind]; [|done].
    by destruct (Gen.points inst) as [[|pt l]|]. }
  rewrite Hinit. split; [|split].
  - destruct (worleyCall p) as [inst|e]; [|by eexists].
    destruct (Gen.points inst) as [[|pt l]|] eqn:Hp; [by eexists|..|by eexists].
    exists (pt :: l). by rewrite Hp.
  - intros inst pt pts -> Hp. by rewrite Hp.
  - intros Hcall.
    assert (match worleyCall p with
            | Ok inst => match Gen.points inst with
                         | Some (_ :: _) => inst
                         | _ => Gen.fallbackWorley (worleyPointsArray p)
                         end
            | Fault _ => Gen.fallbackWorley (worleyPointsArray p)
            end = Gen.fallbackWorley (worleyPointsArray p)) as ->.
    { destruct (worleyCall p) as [inst|e]; [|done].
      by destruct Hcall as [-> | ->]. }
    split; [done|]. split; [done|].
    intros px py. by apply nearestDistance_finite.
Qed.

(** X12.  The cellular noise never fails outright.  Whatever the package
    does, the object used by the generator has a non-empty list of points.
    When the call of the package's constructor made by the generator
    returns an object with points, that object is used.  When that call
    throws, or yields an object without points, the fallback object is
    used: it has between 128 and 4096 points, whatever [worleyPoints] is,
    and its [getEuclidean] returns a finite distance for every query
    point. *)
Theorem worley_never_fails `{Runtime} `{Gen.NoiseLib} (p : Gen.Params) :
  (exists pts, Gen.points (Gen.initWorley p) = Some pts /\ pts <> [])
  /\ (forall inst pt pts,
        worleyCall p = Ok inst -> Gen.points inst = Some (pt :: pts) ->
        Gen.initWorley p = inst)
  /\ (match worleyCall p with
      | Ok inst => Gen.points inst = None \/ Gen.points inst = Some []
      | Fault _ => True
      end ->
      Gen.initWorley p = Gen.fallbackWorley (worleyPointsArray p)
      /\ (128 <= length (worleyPointsArray p) <= 4096)%nat
      /\ forall px py, exists dist,
           Gen.getEuclidean (Gen.initWorley p) px py = Some dist).
Proof. exact (initWorley_spec p). Qed.

(** ** Smoothing *)

Section SmoothingRange.

Variables lo hi : Q.

Definition inRange (z : Q) : Prop := lo <= z <= hi.

(** The running sum and weight of the neighbour loop describe a weighted
    mean of heights in range. *)
Definition meanInRange (acc : Q * Q) : Prop :=
  0 < snd acc /\ lo * snd acc <= fst acc <= hi * snd acc.

Lemma smoothKernel_weight (k : Z * Z * Q) :
  k ∈ Gen.smoothKernel -> 0 <= snd k.
Proof.
  unfold Gen.smoothKernel, Gen.kernelEntry. intros Hk.
  repeat (apply elem_of_cons in Hk as [->|Hk]; [by vm_compute|]).
  by apply elem_of_nil in Hk.
Qed.

Lemma smoothNeighbour_mean (cur : Float32Array) (mw mh x y : Z)
    (acc : Q * Q) (k : Z * Z * Q) :
  Z.of_nat (length cur) = (mw * mh)%Z -> Forall inRange cur ->
  k ∈ Gen.smoothKernel -> meanInRange acc ->
  exists acc', Gen.smoothNeighbour cur mw mh x y acc k = Ok acc'
               /\ meanInRange acc'.
Proof.
  intros Hlen Hcur Hk%smoothKernel_weight [Htw Hsum].
  unfold Gen.smoothNeighbour. destruct k as [[kx ky] weight]. simpl in Hk.
  destruct (_ && _ && _ && _) eqn:Hg; [|by exists acc].
  repeat rewrite andb_true_iff in Hg.
  rewrite !Z.geb_le, !Z.ltb_lt in Hg.
  assert (inGrid mw mh (x + kx) (y + ky)) as Hin by (unfold inGrid; lia).
  destruct (f32_get_in_range cur ((y + ky) * mw + (x + kx))) as (z & Lz & ->).
  { rewrite Hlen. by apply cell_index_bound. }
  cbn [mbind res_bind]. eexists. split; [done|].
  pose proof (Forall_lookup_1 _ _ _ _ Hcur Lz) as [Hzlo Hzhi].
  unfold meanInRange. cbn [fst snd].
  pose proof (Qmult_le_0_compat (z - lo) weight ltac:(lra) Hk).
  pose proof (Qmult_le_0_compat (hi - z) weight ltac:(lra) Hk).
  assert ((z - lo) * weight == z * weight - lo * weight) as E1 by ring.
  assert ((hi - z) * weight == hi * weight - z * weight) as E2 by ring.
  assert (lo * (snd acc + weight) == lo * snd acc + lo * weight) as E3 by ring.
  assert (hi * (snd acc + weight) == hi * snd acc + hi * weight) as E4 by ring.
  split; [lra|]. rewrite E3, E4. lra.
Qed.

Lemma lerp_in_range (c avg f : Q) :
  inRange c -> inRange avg -> 0 <= f <= 1 -> inRange (Gen.lerp c avg f).
Proof.
  unfold inRange, Gen.lerp. intros Hc Ha Hf.
  pose proof (Qmult_le_0_compat (1 - f) (c - lo) ltac:(lra) ltac:(lra)).
  pose proof (Qmult_le_0_compat f (avg - lo) ltac:(lra) ltac:(lra)).
  pose proof (Qmult_le_0_compat (1 - f) (hi - c) ltac:(lra) ltac:(lra)).
  pose proof (Qmult_le_0_compat f (hi - avg) ltac:(lra) ltac:(lra)).
  assert ((1 - f) * c + f * avg
          == lo + ((1 - f) * (c - lo) + f * (avg - lo))) as E1 by ring.
  assert ((1 - f) * c + f * avg
          == hi - ((1 - f) * (hi - c) + f * (hi - avg))) as E2 by ring.
  split; lra.
Qed.

Lemma mean_in_range (acc : Q * Q) :
  meanInRange acc -> inRange (fst acc / snd acc).
Proof.
  intros [Htw [Hlo Hhi]]. unfold inRange. split.
  - apply Qle_shift_div_l; [done|lra].
  - apply Qle_shift_div_r; [done|lra].
Qed.

Lemma smoothCell_range (cur tmp : Float32Array) (mw mh : Z) (f : Q) (i : Z) :
  (0 < mw)%Z -> Z.of_nat (length cur) = (mw * mh)%Z -> Forall inRange cur ->
  Forall inRange tmp -> 0 <= f <= 1 -> (0 <= i < mw * mh)%Z ->
  exists tmp', Gen.smoothCell cur mw mh f tmp i = Ok tmp'
               /\ length tmp' = length tmp /\ Forall inRange tmp'.
Proof.
  intros Hmw Hlen Hcur Htmp Hf Hi. unfold Gen.smoothCell.
  destruct (f32_get_in_range cur i) as (c & Lc & ->); [lia|].
  pose proof (Forall_lookup_1 _ _ _ _ Hcur Lc) as Hc.
  cbv beta iota delta [mbind res_bind].
  destruct (Z.eqb_spec mw 0); [lia|].
  destruct (foldM_invariant meanInRange
              (Gen.smoothNeighbour cur mw mh (Z.rem i mw) (i / mw)%Z)
              Gen.smoothKernel) with (a := (c, 1)) as (acc & -> & Hacc).
  - intros a k Hk Ha. by apply smoothNeighbour_mean.
  - unfold meanInRange. cbn [fst snd]. unfold inRange in Hc. split; lra.
  - eexists. split; [done|]. split; [apply f32_set_length|].
    unfold f32_set. destruct (i <? 0)%Z; [done|].
    apply Forall_insert; [done|].
    unfold inRange. rewrite Qred_correct.
    apply lerp_in_range; [done| |done]. by apply mean_in_range.
Qed.

Lemma smoothPass_range (tmp : Float32Array) (mw mh : Z) (f : Q) (iter : Z) :
  (0 < mw)%Z -> Z.of_nat (length tmp) = (mw * mh)%Z -> Forall inRange tmp ->
  0 <= f <= 1 ->
  exists tmp', Gen.smoothPass mw mh f tmp iter = Ok tmp'
               /\ length tmp' = length tmp /\ Forall inRange tmp'.
Proof.
  intros Hmw Hlen Htmp Hf. unfold Gen.smoothPass.
  apply (foldM_invariant
           (fun t : Float32Array => length t = length tmp /\ Forall inRange t));
    [|done].
  intros t i Hi%elem_of_seqZ [Ht Hr].
  destruct (smoothCell_range tmp t mw mh f i Hmw Hlen Htmp Hr Hf)
    as (t' & -> & Hlen' & Hr'); [lia|].
  exists t'. split; [done|]. split; [congruence|done].
Qed.

End SmoothingRange.

(** X13.  Smoothing a grid of [mapWidth * mapHeight] vertices with a
    factor in [0, 1] reads no cell outside the arrays and never overshoots:
    if every height lies in [lo, hi] before, every height lies in [lo, hi]
    afterwards, for any number of iterations.  The x and y slots of the
    vertices are left as they are. *)
Theorem smoothing_stays_within_range (vps : Float32Array) (mw mh iters : Z)
    (factor lo hi : Q) :
  (0 < mw)%Z -> (0 <= mh)%Z ->
  Z.of_nat (length vps) = (3 * (mw * mh))%Z ->
  0 <= factor <= 1 ->
  (forall i z, (0 <= i < mw * mh)%Z ->
               vps !! Z.to_nat (i * 3 + 2) = Some z -> lo <= z <= hi) ->
  exists vps',
    Gen.applySmoothingInternal vps mw mh iters factor = Ok vps'
    /\ length vps' = length vps
    /\ (forall i z, (0 <= i < mw * mh)%Z ->
                    vps' !! Z.to_nat (i * 3 + 2) = Some z -> lo <= z <= hi)
    /\ (forall j, (Z.of_nat j mod 3 <> 2)%Z -> vps' !! j = vps !! j).
Proof.
  intros Hmw Hmh Hlen Hf Hin. unfold Gen.applySmoothingInternal.
  assert ((Z.of_nat (length vps) + 2) / 3 = mw * mh)%Z as ->.
  { rewrite Hlen. symmetry. apply Z.div_unique with (r := 2%Z); lia. }
  assert (Z.of_nat (length vps) / 3 = mw * mh)%Z as ->.
  { rewrite Hlen. rewrite Z.mul_comm. apply Z.div_mul. lia. }
  (* the copy of the heights *)
  destruct (foldM_split_invariant
              (fun (pre : list Z) (tmp : Float32Array) =>
                 Z.of_nat (length tmp) = (mw * mh)%Z
                 /\ forall i z, i ∈ pre -> tmp !! Z.to_nat i = Some z ->
                                inRange lo hi z)
              (fun tmp i => z ← f32_get vps (i * 3 + 2); Ok (f32_set tmp i z))
              (seqZ 0 (mw * mh)) (replicate (Z.to_nat (mw * mh)) 0))
    as (tmp0 & -> & Hlen0 & Hr0).
  { split; [rewrite length_replicate; nia|].
    intros i z Hi. by apply elem_of_nil in Hi. }
  { intros pre i suf tmp Hsplit [Hl Hr].
    assert (forall i', i' ∈ pre ++ [i] -> (0 <= i' < mw * mh)%Z) as Hall.
    { intros i' Hi'. apply (elem_of_seqZ 0 (mw * mh)). rewrite Hsplit.
      apply elem_of_app in Hi' as [?|Hi']; apply elem_of_app; [by left|].
      right. apply list_elem_of_singleton in Hi' as ->. left. }
    pose proof (Hall i ltac:(apply elem_of_app; right; left)) as Hi.
    destruct (f32_get_in_range vps (i * 3 + 2)) as (z & Lz & ->); [lia|].
    cbn [mbind res_bind]. eexists. split; [done|].
    split; [by rewrite f32_set_length|].
    intros i' z' Hi' Lz'. unfold f32_set in Lz'.
    destruct (Z.ltb_spec i 0); [lia|].
    destruct (decide (i' = i)) as [->|Hne].
    - rewrite list_lookup_insert_eq in Lz' by lia. injection Lz' as <-.
      unfold inRange. rewrite Qred_correct. by apply (Hin i).
    - pose proof (Hall i' Hi').
      rewrite list_lookup_insert_ne in Lz' by lia.
      apply elem_of_app in Hi' as [Hi'|Hi']; [by apply (Hr i')|].
      apply list_elem_of_singleton in Hi'. done. }
  cbn [mbind res_bind].
  assert (Forall (inRange lo hi) tmp0) as Hrange0.
  { apply Forall_lookup. intros k z Lk.
    apply (Hr0 (Z.of_nat k)); [|by rewrite Nat2Z.id].
    apply elem_of_seqZ. apply lookup_lt_Some in Lk. lia. }
  (* the passes *)
  destruct (foldM_invariant
              (fun t : Float32Array =>
                 Z.of_nat (length t) = (mw * mh)%Z /\ Forall (inRange lo hi) t)
              (Gen.smoothPass mw mh (if Qeq_bool factor 0 then 1 # 2 else factor))
              (seqZ 0 (if (iters =? 0)%Z then 1%Z else iters)))
    with (a := tmp0) as (smoothed & -> & Hlens & Hranges).
  { intros t iter _ [Hl Hr].
    destruct (smoothPass_range lo hi t mw mh
                (if Qeq_bool factor 0 then 1 # 2 else factor) iter Hmw Hl Hr)
      as (t' & -> & Hl' & Hr').
    { destruct (Qeq_bool factor 0); [split; by vm_compute|done]. }
    exists t'. split; [done|]. split; [by rewrite Hl'|done]. }
  { done. }
  cbn [mbind res_bind].
  (* the heights written back *)
  destruct (foldM_invariant
              (fun vp : Float32Array =>
                 length vp = length vps
                 /\ (forall i z, (0 <= i < mw * mh)%Z ->
                                 vp !! Z.to_nat (i * 3 + 2) = Some z ->
                                 inRange lo hi z)
                 /\ forall j, (Z.of_nat j mod 3 <> 2)%Z -> vp !! j = vps !! j)
              (fun vp i => z ← f32_get smoothed i; Ok (f32_set vp (i * 3 + 2) z))
              (seqZ 0 (mw * mh))) with (a := vps) as (vps' & -> & Hres).
  { intros vp i Hi%elem_of_seqZ (Hl & Hz & Hxy).
    destruct (f32_get_in_range smoothed i) as (z & Lz & ->); [lia|].
    pose proof (Forall_lookup_1 _ _ _ _ Hranges Lz) as Hzr.
    cbn [mbind res_bind]. eexists. split; [done|].
    split; [by rewrite f32_set_length|].
    unfold f32_set. destruct (Z.ltb_spec (i * 3 + 2) 0); [lia|]. split.
    - intros i' z' Hi' Lz'.
      destruct (decide (i' = i)) as [->|Hne].
      + rewrite list_lookup_insert_eq in Lz' by lia. injection Lz' as <-.
        unfold inRange. by rewrite Qred_correct.
      + rewrite list_lookup_insert_ne in Lz' by lia. by apply (Hz i').
    - intros j Hj. rewrite list_lookup_insert_ne; [by apply Hxy|].
      intros Heq. apply Hj. rewrite <- Heq.
      rewrite Z2Nat.id by lia. rewrite Z.add_comm, Z.mod_add by lia. done. }
  { split; [done|]. split; [|done]. intros i z Hi Lz. by apply (Hin i). }
  exists vps'. split; [done|]. destruct Hres as (Hl & Hz & Hxy). done.
Qed.

(** ** Slope and curvature maps *)

Section MapInvariant.

(** A property of map values that does not depend on the representation
    of the number. *)
Variable Pv : Q -> Prop.
Hypothesis Pv_red : forall v, Pv v -> Pv (Qred v).

Definition mapKeeps (w h : Z) (m : Float32Array) : Prop :=
  Z.of_nat (length m) = (w * h)%Z /\ Forall Pv m.

Lemma f32_set_keeps (w h : Z) (m : Float32Array) (i : Z) (v : Q) :
  mapKeeps w h m -> Pv v -> mapKeeps w h (f32_set m i v).
Proof using Pv_red.
  intros [Hlen Hall] Hv. split; [by rewrite f32_set_length|].
  unfold f32_set. destruct (i <? 0)%Z; [done|].
  apply Forall_insert; [done|]. by apply Pv_red.
Qed.

Lemma copyCell_keeps (w h : Z) (m : Float32Array) (dst src : Z) :
  mapKeeps w h m -> (0 <= src < w * h)%Z ->
  exists m', copyCell m dst src = Ok m' /\ mapKeeps w h m'.
Proof using Pv_red.
  intros Hm Hsrc. unfold copyCell.
  destruct (f32_get_in_range m src) as (v & Lv & ->); [destruct Hm; lia|].
  cbn [mbind res_bind]. eexists. split; [done|].
  apply f32_set_keeps; [done|].
  destruct Hm as [_ Hall]. by apply (Forall_lookup_1 _ _ _ _ Hall Lv).
Qed.

(** The edge loops only copy: they read inside the map and bring in no
    new value. *)
Lemma copyEdges_keeps (w h : Z) (m : Float32Array) :
  (2 <= w)%Z -> (2 <= h)%Z -> mapKeeps w h m ->
  exists m', copyEdges m w h = Ok m' /\ mapKeeps w h m'.
Proof using Pv_red.
  intros Hw Hh Hm. unfold copyEdges.
  destruct (foldM_invariant (mapKeeps w h)
              (fun m x => m' ← copyCell m x (w + x);
                          copyCell m' ((h - 1) * w + x) ((h - 2) * w + x))
              (seqZ 0 w)) with (a := m) as (m1 & -> & Hm1); [|done|].
  { intros a x Hx%elem_of_seqZ Ha.
    destruct (copyCell_keeps w h a x (w + x) Ha) as (a1 & -> & Ha1); [nia|].
    cbn [mbind res_bind]. apply copyCell_keeps; [done|nia]. }
  cbn [mbind res_bind].
  apply (foldM_invariant (mapKeeps w h)); [|done].
  intros a y Hy%elem_of_seqZ Ha.
  destruct (copyCell_keeps w h a (y * w) (y * w + 1) Ha) as (a1 & -> & Ha1);
    [nia|].
  cbn [mbind res_bind]. apply copyCell_keeps; [done|nia].
Qed.

(** The interior loops, for a cell body that keeps the invariant. *)
Lemma interior_keeps (cell : Z -> Float32Array -> Z -> res Float32Array)
    (w h : Z) (m : Float32Array) :
  (forall x y a, (1 <= x <= w - 2)%Z -> (1 <= y <= h - 2)%Z -> mapKeeps w h a ->
                 exists a', cell y a x = Ok a' /\ mapKeeps w h a') ->
  mapKeeps w h m ->
  exists m',
    foldM (fun a y => foldM (cell y) (seqZ 1 (w - 2)) a) (seqZ 1 (h - 2)) m
    = Ok m' /\ mapKeeps w h m'.
Proof.
  intros Hcell Hm.
  apply (foldM_invariant (mapKeeps w h)); [|done].
  intros a y Hy%elem_of_seqZ Ha.
  apply (foldM_invariant (mapKeeps w h)); [|done].
  intros a' x Hx%elem_of_seqZ Ha'. apply Hcell; [lia|lia|done].
Qed.

End MapInvariant.

(** A heightfield that is an exact plane [a * x + b * y + c]. *)
Definition planar (hm : Float32Array) (w h : Z) (a b c : Q) : Prop :=
  forall x y, inGrid w h x y ->
    exists z, heightAt hm w x y = Some z
              /\ z == a * inject_Z x + b * inject_Z y + c.

(** X14.  The curvature map of a plane is zero in every cell, border
    included: for a heightfield of at least 2 x 2 cells that is an exact
    plane, and a world width other than 0, [computeCurvatureMap] returns a
    map of [width * height] zeros. *)
Theorem curvature_of_plane_is_zero (hm : Float32Array) (w h : Z)
    (worldWidth worldHeight a b c : Q) :
  (2 <= w)%Z -> (2 <= h)%Z -> Z.of_nat (length hm) = (w * h)%Z ->
  ~ worldWidth == 0 -> planar hm w h a b c ->
  exists cm,
    computeCurvatureMap hm w h worldWidth worldHeight = Ok cm
    /\ length cm = length hm
    /\ Forall (fun v => v == 0) cm.
Proof.
  intros Hw Hh Hlen Hww Hplane. unfold computeCurvatureMap, f32_new.
  destruct (Z.ltb_spec (w * h) 0); [nia|]. cbn [mbind res_bind].
  assert (forall v, v == 0 -> Qred v == 0) as Hred.
  { intros v Hv. by rewrite Qred_correct. }
  destruct (interior_keeps (fun v => v == 0)
              (curvatureCell hm w h worldWidth) w h
              (replicate (Z.to_nat (w * h)) 0)) as (m1 & -> & Hm1).
  - intros x y m Hx Hy Hm. unfold curvatureCell, Qdiv_js.
    destruct (Qeq_bool (inject_Z (w - 1)) 0) eqn:Hw1.
    { apply Qeq_bool_iff in Hw1. exfalso.
      assert (inject_Z 2 <= inject_Z (w - 1)) as Hq by (rewrite <- Zle_Qle; lia).
      change (inject_Z 2) with 2 in Hq. lra. }
    cbn [mbind res_bind].
    assert (forall dx dy, (-1 <= dx <= 1)%Z -> (-1 <= dy <= 1)%Z ->
              exists z, f32_get hm ((y + dy) * w + (x + dx)) = Ok z
                        /\ z == a * inject_Z (x + dx) + b * inject_Z (y + dy) + c)
      as Hread.
    { intros dx dy Hdx Hdy.
      assert (inGrid w h (x + dx) (y + dy)) as Hin by (unfold inGrid; lia).
      destruct (Hplane _ _ Hin) as (z & Lz & Hz). exists z. split; [|done].
      unfold heightAt in Lz. unfold f32_get.
      pose proof (cell_index_bound w h _ _ Hin).
      destruct (Z.ltb_spec ((y + dy) * w + (x + dx)) 0); [lia|]. by rewrite Lz. }
    destruct (Hread 0 0)%Z as (zc & Gc & Ec); [lia|lia|].
    destruct (Hread 1 0)%Z as (zx1 & Gx1 & Ex1); [lia|lia|].
    destruct (Hread (-1) 0)%Z as (zx0 & Gx0 & Ex0); [lia|lia|].
    destruct (Hread 0 1)%Z as (zy1 & Gy1 & Ey1); [lia|lia|].
    destruct (Hread 0 (-1))%Z as (zy0 & Gy0 & Ey0); [lia|lia|].
    replace ((y + 0) * w + (x + 0))%Z with (y * w + x)%Z in Gc by lia.
    replace ((y + 0) * w + (x + 1))%Z with (y * w + x + 1)%Z in Gx1 by lia.
    replace ((y + 0) * w + (x + -1))%Z with (y * w + x - 1)%Z in Gx0 by lia.
    replace ((y + 1) * w + (x + 0))%Z with (y * w + x + w)%Z in Gy1 by lia.
    replace ((y + -1) * w + (x + 0))%Z with (y * w + x - w)%Z in Gy0 by lia.
    rewrite Gc, Gx1, Gx0, Gy1, Gy0. cbn [mbind res_bind].
    rewrite !inject_Z_plus in *.
    change (inject_Z 0) with 0 in *. change (inject_Z 1) with 1 in *.
    change (inject_Z (-1)) with (-(1)) in *.
    set (dd := worldWidth / inject_Z (w - 1)).
    destruct (Qeq_bool (dd * dd) 0) eqn:Hdd.
    { apply Qeq_bool_iff in Hdd. exfalso.
      apply Qmult_integral in Hdd. unfold dd in Hdd.
      assert (worldWidth == (worldWidth / inject_Z (w - 1)) * inject_Z (w - 1))
        as Hback.
      { field. intros Hz. apply Qeq_bool_neq in Hw1. done. }
      apply Hww. rewrite Hback. destruct Hdd as [-> | ->]; ring. }
    cbn [mbind res_bind]. eexists. split; [done|].
    apply (f32_set_keeps _ Hred); [done|].
    rewrite Ec, Ex1, Ex0, Ey1, Ey0. field.
    apply Qeq_bool_neq in Hdd. intros Hz. apply Hdd. rewrite Hz. ring.
  - split; [rewrite length_replicate; lia|].
    apply Forall_forall. intros v Hv%elem_of_replicate. by destruct Hv as [-> _].
  - cbn [mbind res_bind].
    destruct (copyEdges_keeps (fun v => v == 0) Hred w h m1 Hw Hh Hm1)
      as (cm & -> & Hlen' & Hall).
    exists cm. split; [done|]. split; [lia|done].
Qed.

Lemma spacing_nonzero (world : Q) (n : Z) :
  (2 <= n)%Z -> ~ world == 0 ->
  Qeq_bool (inject_Z (n - 1)) 0 = false
  /\ Qeq_bool (2 * (world / inject_Z (n - 1))) 0 = false.
Proof.
  intros Hn Hworld.
  assert (~ inject_Z (n - 1) == 0) as Hn1.
  { intros Hz.
    assert (inject_Z 1 <= inject_Z (n - 1)) as Hq by (rewrite <- Zle_Qle; lia).
    change (inject_Z 1) with 1 in Hq. lra. }
  split.
  - destruct (Qeq_bool (inject_Z (n - 1)) 0) eqn:E; [|done].
    by apply Qeq_bool_iff in E.
  - destruct (Qeq_bool (2 * (world / inject_Z (n - 1))) 0) eqn:E; [|done].
    apply Qeq_bool_iff in E. exfalso. apply Hworld.
    assert (world == (2 * (world / inject_Z (n - 1))) * inject_Z (n - 1) / 2)
      as -> by (field; done).
    rewrite E. field.
Qed.

(** X15.  The slope map of a flat heightfield is zero in every cell,
    border included: for a heightfield of at least 2 x 2 cells that all
    hold the same height, world extents other than 0 and a square root that
    maps zero to zero, [computeSlopeMap] returns a map of
    [width * height] zeros. *)
Theorem slope_of_flat_field_is_zero `{Runtime} (c : Q) (w h : Z)
    (worldWidth worldHeight : Q) :
  (forall q, q == 0 -> Math_sqrt q == 0) ->
  (2 <= w)%Z -> (2 <= h)%Z -> ~ worldWidth == 0 -> ~ worldHeight == 0 ->
  exists sm,
    computeSlopeMap (replicate (Z.to_nat (w * h)) c) w h worldWidth worldHeight
    = Ok sm
    /\ length sm = Z.to_nat (w * h)
    /\ Forall (fun v => v == 0) sm.
Proof.
  intros Hsqrt Hw Hh Hww Hwh. unfold computeSlopeMap, f32_new.
  destruct (Z.ltb_spec (w * h) 0); [nia|]. cbn [mbind res_bind].
  assert (forall v, v == 0 -> Qred v == 0) as Hred.
  { intros v Hv. by rewrite Qred_correct. }
  set (hm := replicate (Z.to_nat (w * h)) c).
  destruct (spacing_nonzero worldWidth w Hw Hww) as [Hw1 Hdx].
  destruct (spacing_nonzero worldHeight h Hh Hwh) as [Hh1 Hdy].
  destruct (interior_keeps (fun v => v == 0)
              (slopeCell hm w h worldWidth worldHeight) w h
              (replicate (Z.to_nat (w * h)) 0)) as (m1 & -> & Hm1).
  - intros x y m Hx Hy Hm. unfold slopeCell, Qdiv_js.
    rewrite Hw1, Hh1. cbn [mbind res_bind].
    assert (forall i, (0 <= i < w * h)%Z -> f32_get hm i = Ok c) as Hread.
    { intros i Hi. unfold f32_get, hm.
      destruct (Z.ltb_spec i 0); [lia|].
      rewrite lookup_replicate_2; [done|lia]. }
    rewrite !Hread by nia. cbn [mbind res_bind].
    rewrite Hdx, Hdy. cbn [mbind res_bind].
    eexists. split; [done|].
    apply (f32_set_keeps _ Hred); [done|].
    apply Hsqrt. unfold Qdiv. ring.
  - split; [rewrite length_replicate; lia|].
    apply Forall_forall. intros v Hv%elem_of_replicate. by destruct Hv as [-> _].
  - cbn [mbind res_bind].
    destruct (copyEdges_keeps (fun v => v == 0) Hred w h m1 Hw Hh Hm1)
      as (sm & -> & Hlen' & Hall).
    exists sm. split; [done|]. split; [lia|done].
Qed.

(** ** Border cells copy the nearest interior cell *)

(** Cell [i] of [a] holds the number stored in cell [j] of [m]. *)
Definition cellEq (a : Float32Array) (i : Z) (m : Float32Array) (j : Z) : Prop :=
  exists v t, a !! Z.to_nat i = Some v /\ m !! Z.to_nat j = Some t /\ v == t.

Lemma copyCell_spec (a : Float32Array) (dst src : Z) (t : Q) :
  (0 <= src)%Z -> (0 <= dst)%Z -> a !! Z.to_nat src = Some t ->
  copyCell a dst src = Ok (<[Z.to_nat dst := Qred t]> a).
Proof.
  intros Hsrc Hdst Lt. unfold copyCell, f32_get, f32_set.
  destruct (Z.ltb_spec src 0); [lia|]. rewrite Lt. cbn [mbind res_bind].
  by destruct (Z.ltb_spec dst 0); [lia|].
Qed.

Lemma cellEq_same (m : Float32Array) (i : Z) :
  (0 <= i < Z.of_nat (length m))%Z -> cellEq m i m i.
Proof.
  intros Hi. destruct (lookup_lt_is_Some_2 m (Z.to_nat i)) as [v Lv]; [lia|].
  by exists v, v.
Qed.

(** The first edge loop: the top row copies row 1 and the bottom row
    copies row [h - 2]; the rows between are left alone. *)
Lemma copyRows_spec (m : Float32Array) (w h : Z) :
  (3 <= w)%Z -> (3 <= h)%Z -> Z.of_nat (length m) = (w * h)%Z ->
  exists m1,
    foldM (fun m x => m' ← copyCell m x (w + x);
                      copyCell m' ((h - 1) * w + x) ((h - 2) * w + x))
      (seqZ 0 w) m = Ok m1
    /\ length m1 = length m
    /\ (forall x y, (0 <= x < w)%Z -> (1 <= y <= h - 2)%Z ->
                    m1 !! Z.to_nat (y * w + x) = m !! Z.to_nat (y * w + x))
    /\ (forall x, (0 <= x < w)%Z ->
                  cellEq m1 x m (w + x)
                  /\ cellEq m1 ((h - 1) * w + x) m ((h - 2) * w + x)).
Proof.
  intros Hw Hh Hlen.
  destruct (foldM_split_invariant
              (fun (pre : list Z) (a : Float32Array) =>
                 length a = length m
                 /\ (forall x y, (0 <= x < w)%Z -> (1 <= y <= h - 2)%Z ->
                       a !! Z.to_nat (y * w + x) = m !! Z.to_nat (y * w + x))
                 /\ forall x, x ∈ pre ->
                      cellEq a x m (w + x)
                      /\ cellEq a ((h - 1) * w + x) m ((h - 2) * w + x))
              (fun m x => m' ← copyCell m x (w + x);
                          copyCell m' ((h - 1) * w + x) ((h - 2) * w + x))
              (seqZ 0 w) m) as (m1 & Heq & Hl1 & Hmid & Hcopied).
  - split; [done|]. split; [done|]. intros x Hx. by apply elem_of_nil in Hx.
  - intros pre x suf a Hsplit (Hl & Hmid & Hpre).
    assert (forall x', x' ∈ pre ++ [x] -> (0 <= x' < w)%Z) as Hall.
    { intros x' Hx'. apply (elem_of_seqZ 0 w). rewrite Hsplit.
      apply elem_of_app in Hx' as [?|Hx']; apply elem_of_app; [by left|].
      right. apply list_elem_of_singleton in Hx' as ->. left. }
    pose proof (Hall x ltac:(apply elem_of_app; right; left)) as Hx.
    destruct (lookup_lt_is_Some_2 m (Z.to_nat (w + x))) as [t0 Lt0]; [nia|].
    destruct (lookup_lt_is_Some_2 m (Z.to_nat ((h - 2) * w + x))) as [t1 Lt1];
      [nia|].
    rewrite (copyCell_spec a x (w + x) t0); [|lia|lia|].
    2:{ replace (w + x)%Z with (1 * w + x)%Z in * by lia.
        rewrite Hmid by lia. done. }
    cbn [mbind res_bind].
    rewrite (copyCell_spec _ ((h - 1) * w + x) ((h - 2) * w + x) t1);
      [|nia|nia|].
    2:{ rewrite list_lookup_insert_ne by nia. rewrite Hmid by lia. done. }
    eexists. split; [done|]. split; [by rewrite !length_insert|]. split.
    + intros x' y Hx' Hy. rewrite !list_lookup_insert_ne by nia.
      by apply Hmid.
    + intros x' Hx'. pose proof (Hall x' Hx') as Hr'.
      destruct (decide (x' = x)) as [->|Hne].
      * split.
        -- exists (Qred t0), t0. rewrite list_lookup_insert_ne by nia.
           rewrite list_lookup_insert_eq by nia.
           split; [done|]. split; [done|]. apply Qred_correct.
        -- exists (Qred t1), t1.
           rewrite list_lookup_insert_eq by (rewrite length_insert; nia).
           split; [done|]. split; [done|]. apply Qred_correct.
      * apply elem_of_app in Hx' as [Hx'|Hx'].
        2:{ apply list_elem_of_singleton in Hx'. done. }
        destruct (Hpre x' Hx') as [(v & t & Lv & Lt & Hvt) (v' & t' & Lv' & Lt' & Hvt')].
        split.
        -- exists v, t. rewrite !list_lookup_insert_ne by nia. done.
        -- exists v', t'. rewrite !list_lookup_insert_ne by nia. done.
  - exists m1. split; [done|]. split; [done|]. split; [done|].
    intros x Hx. apply Hcopied. apply elem_of_seqZ. lia.
Qed.

(** The second edge loop: the left column copies column 1 and the right
    column copies column [w - 2]; the columns between are left alone. *)
Lemma copyCols_spec (m : Float32Array) (w h : Z) :
  (3 <= w)%Z -> (3 <= h)%Z -> Z.of_nat (length m) = (w * h)%Z ->
  exists m2,
    foldM (fun m y => m' ← copyCell m (y * w) (y * w + 1);
                      copyCell m' (y * w + (w - 1)) (y * w + (w - 2)))
      (seqZ 0 h) m = Ok m2
    /\ length m2 = length m
    /\ (forall x y, (1 <= x <= w - 2)%Z -> (0 <= y < h)%Z ->
                    m2 !! Z.to_nat (y * w + x) = m !! Z.to_nat (y * w + x))
    /\ (forall y, (0 <= y < h)%Z ->
                  cellEq m2 (y * w) m (y * w + 1)
                  /\ cellEq m2 (y * w + (w - 1)) m (y * w + (w - 2))).
Proof.
  intros Hw Hh Hlen.
  destruct (foldM_split_invariant
              (fun (pre : list Z) (a : Float32Array) =>
                 length a = length m
                 /\ (forall x y, (1 <= x <= w - 2)%Z -> (0 <= y < h)%Z ->
                       a !! Z.to_nat (y * w + x) = m !! Z.to_nat (y * w + x))
                 /\ forall y, y ∈ pre ->
                      cellEq a (y * w) m (y * w + 1)
                      /\ cellEq a (y * w + (w - 1)) m (y * w + (w - 2)))
              (fun m y => m' ← copyCell m (y * w) (y * w + 1);
                          copyCell m' (y * w + (w - 1)) (y * w + (w - 2)))
              (seqZ 0 h) m) as (m2 & Heq & Hl2 & Hmid & Hcopied).
  - split; [done|]. split; [done|]. intros y Hy. by apply elem_of_nil in Hy.
  - intros pre y suf a Hsplit (Hl & Hmid & Hpre).
    assert (forall y', y' ∈ pre ++ [y] -> (0 <= y' < h)%Z) as Hall.
    { intros y' Hy'. apply (elem_of_seqZ 0 h). rewrite Hsplit.
      apply elem_of_app in Hy' as [?|Hy']; apply elem_of_app; [by left|].
      right. apply list_elem_of_singleton in Hy' as ->. left. }
    pose proof (Hall y ltac:(apply elem_of_app; right; left)) as Hy.
    destruct (lookup_lt_is_Some_2 m (Z.to_nat (y * w + 1))) as [t0 Lt0]; [nia|].
    destruct (lookup_lt_is_Some_2 m (Z.to_nat (y * w + (w - 2)))) as [t1 Lt1];
      [nia|].
    rewrite (copyCell_spec a (y * w) (y * w + 1) t0); [|nia|nia|].
    2:{ rewrite Hmid by lia. done. }
    cbn [mbind res_bind].
    rewrite (copyCell_spec _ (y * w + (w - 1)) (y * w + (w - 2)) t1);
      [|nia|nia|].
    2:{ rewrite list_lookup_insert_ne by nia. rewrite Hmid by lia. done. }
    eexists. split; [done|]. split; [by rewrite !length_insert|]. split.
    + intros x y' Hx Hy'.
      rewrite !list_lookup_insert_ne
        by (destruct (Z.lt_trichotomy y y') as [?|[?|?]]; nia).
      by apply Hmid.
    + intros y' Hy'. pose proof (Hall y' Hy') as Hr'.
      destruct (decide (y' = y)) as [->|Hne].
      * split.
        -- exists (Qred t0), t0. rewrite list_lookup_insert_ne by nia.
           rewrite list_lookup_insert_eq by nia.
           split; [done|]. split; [done|]. apply Qred_correct.
        -- exists (Qred t1), t1.
           rewrite list_lookup_insert_eq by (rewrite length_insert; nia).
           split; [done|]. split; [done|]. apply Qred_correct.
      * apply elem_of_app in Hy' as [Hy'|Hy'].
        2:{ apply list_elem_of_singleton in Hy'. done. }
        destruct (Hpre y' Hy') as [(v & t & Lv & Lt & Hvt) (v' & t' & Lv' & Lt' & Hvt')].
        split.
        -- exists v, t.
           rewrite !list_lookup_insert_ne
             by (destruct (Z.lt_trichotomy y y') as [?|[?|?]]; nia).
           done.
        -- exists v', t'.
           rewrite !list_lookup_insert_ne
             by (destruct (Z.lt_trichotomy y y') as [?|[?|?]]; nia).
           done.
  - exists m2. split; [done|]. split; [done|]. split; [done|].
    intros y Hy. apply Hcopied. apply elem_of_seqZ. lia.
Qed.

Lemma cellEq_trans (a b c : Float32Array) (i j k : Z) :
  cellEq a i b j -> cellEq b j c k -> cellEq a i c k.
Proof.
  intros (v & t & Lv & Lt & Hvt) (v' & t' & Lv' & Lt' & Hvt').
  exists v, t'. split; [done|]. split; [done|].
  assert (t = v') as -> by congruence. by rewrite Hvt.
Qed.

Lemma cellEq_lookup (a m : Float32Array) (i : Z) :
  (0 <= i < Z.of_nat (length m))%Z ->
  a !! Z.to_nat i = m !! Z.to_nat i -> cellEq a i m i.
Proof.
  intros Hi Heq. destruct (cellEq_same m i Hi) as (v & t & Lv & Lt & Hvt).
  exists v, t. by rewrite Heq.
Qed.

(** The interior cell nearest to [(x, y)]. *)
Definition nearestInterior (w h x y : Z) : Z * Z :=
  (Z.max 1 (Z.min (w - 2) x), Z.max 1 (Z.min (h - 2) y)).

Lemma copyEdges_spec (m : Float32Array) (w h : Z) :
  (3 <= w)%Z -> (3 <= h)%Z -> Z.of_nat (length m) = (w * h)%Z ->
  exists m',
    copyEdges m w h = Ok m'
    /\ length m' = length m
    /\ forall x y, inGrid w h x y ->
         cellEq m' (y * w + x) m
           (snd (nearestInterior w h x y) * w + fst (nearestInterior w h x y)).
Proof.
  intros Hw Hh Hlen. unfold copyEdges.
  destruct (copyRows_spec m w h Hw Hh Hlen) as (m1 & -> & Hl1 & Hrows & Htopbot).
  cbn [mbind res_bind].
  assert (Z.of_nat (length m1) = (w * h)%Z) as Hlen1 by (by rewrite Hl1).
  destruct (copyCols_spec m1 w h Hw Hh Hlen1) as (m2 & -> & Hl2 & Hcols & Hsides).
  exists m2. split; [done|]. split; [congruence|].
  assert (forall x y, (1 <= x <= w - 2)%Z -> (0 <= y < h)%Z ->
            cellEq m1 (y * w + x) m (Z.max 1 (Z.min (h - 2) y) * w + x)) as Hm1.
  { intros x y Hx Hy.
    destruct (decide (y = 0%Z)) as [->|Hy0].
    { replace (Z.max 1 (Z.min (h - 2) 0)) with 1%Z by lia.
      replace (0 * w + x)%Z with x by lia.
      replace (1 * w + x)%Z with (w + x)%Z by lia.
      apply Htopbot. lia. }
    destruct (decide (y = h - 1)%Z) as [->|Hy1].
    { replace (Z.max 1 (Z.min (h - 2) (h - 1))) with (h - 2)%Z by lia.
      apply Htopbot. lia. }
    replace (Z.max 1 (Z.min (h - 2) y)) with y by lia.
    apply cellEq_lookup; [nia|]. apply Hrows; lia. }
  intros x y [Hx Hy]. unfold nearestInterior. cbn [fst snd].
  destruct (decide (x = 0%Z)) as [->|Hx0].
  { replace (Z.max 1 (Z.min (w - 2) 0)) with 1%Z by lia.
    replace (y * w + 0)%Z with (y * w)%Z by lia.
    eapply cellEq_trans; [apply Hsides; lia|]. apply Hm1; lia. }
  destruct (decide (x = w - 1)%Z) as [->|Hx1].
  { replace (Z.max 1 (Z.min (w - 2) (w - 1))) with (w - 2)%Z by lia.
    eapply cellEq_trans; [apply Hsides; lia|]. apply Hm1; lia. }
  replace (Z.max 1 (Z.min (w - 2) x)) with x by lia.
  eapply cellEq_trans; [|apply Hm1; lia].
  apply cellEq_lookup; [nia|]. apply Hcols; lia.
Qed.

Lemma edges_of_interior (m1 : Float32Array) (w h : Z) :
  (3 <= w)%Z -> (3 <= h)%Z -> mapKeeps (fun _ => True) w h m1 ->
  exists m',
    copyEdges m1 w h = Ok m'
    /\ length m' = length m1
    /\ forall x y, inGrid w h x y ->
         cellEq m' (y * w + x) m'
           (snd (nearestInterior w h x y) * w + fst (nearestInterior w h x y)).
Proof.
  intros Hw Hh [Hlen _].
  destruct (copyEdges_spec m1 w h Hw Hh Hlen) as (m' & Heq & Hlen' & Hcopy).
  exists m'. split; [done|]. split; [done|].
  intros x y Hin.
  destruct (Hcopy x y Hin) as (v & t & Lv & Lt & Hvt).
  assert (inGrid w h (fst (nearestInterior w h x y))
            (snd (nearestInterior w h x y))) as Hin'.
  { unfold nearestInterior, inGrid in *. cbn [fst snd]. lia. }
  destruct (Hcopy _ _ Hin') as (v' & t' & Lv' & Lt' & Hvt').
  assert (nearestInterior w h (fst (nearestInterior w h x y))
            (snd (nearestInterior w h x y)) = nearestInterior w h x y) as Hidem.
  { unfold nearestInterior. cbn [fst snd]. f_equal; lia. }
  rewrite Hidem in Lt'.
  exists v, v'. split; [done|]. split; [done|].
  assert (t' = t) as -> by congruence. by rewrite Hvt, Hvt'.
Qed.

Lemma curvature_interior_total (hm : Float32Array) (w h : Z) (worldWidth : Q) :
  (3 <= w)%Z -> (3 <= h)%Z -> Z.of_nat (length hm) = (w * h)%Z ->
  ~ worldWidth == 0 ->
  exists m1,
    foldM (fun m y => foldM (curvatureCell hm w h worldWidth y)
                        (seqZ 1 (w - 2)) m)
      (seqZ 1 (h - 2)) (replicate (Z.to_nat (w * h)) 0) = Ok m1
    /\ mapKeeps (fun _ => True) w h m1.
Proof.
  intros Hw Hh Hlen Hww.
  destruct (spacing_nonzero worldWidth w ltac:(lia) Hww) as [Hw1 Hdx].
  apply (interior_keeps (fun _ => True)).
  - intros x y m Hx Hy Hm. unfold curvatureCell, Qdiv_js.
    rewrite Hw1. cbn [mbind res_bind].
    destruct (f32_get_in_range hm (y * w + x)) as (zc & _ & ->); [nia|].
    destruct (f32_get_in_range hm (y * w + x + 1)) as (zx1 & _ & ->); [nia|].
    destruct (f32_get_in_range hm (y * w + x - 1)) as (zx0 & _ & ->); [nia|].
    destruct (f32_get_in_range hm (y * w + x + w)) as (zy1 & _ & ->); [nia|].
    destruct (f32_get_in_range hm (y * w + x - w)) as (zy0 & _ & ->); [nia|].
    cbn [mbind res_bind].
    set (dd := worldWidth / inject_Z (w - 1)).
    destruct (Qeq_bool (dd * dd) 0) eqn:Hdd.
    { apply Qeq_bool_iff in Hdd. exfalso.
      apply Qmult_integral in Hdd. unfold dd in Hdd.
      assert (worldWidth == (worldWidth / inject_Z (w - 1)) * inject_Z (w - 1))
        as Hback.
      { field. intros Hz. apply Qeq_bool_neq in Hw1. done. }
      apply Hww. rewrite Hback. destruct Hdd as [-> | ->]; ring. }
    cbn [mbind res_bind]. eexists. split; [done|].
    by apply f32_set_keeps.
  - split; [rewrite length_replicate; nia|]. by apply Forall_forall.
Qed.

Lemma slope_interior_total `{Runtime} (hm : Float32Array) (w h : Z)
    (worldWidth worldHeight : Q) :
  (3 <= w)%Z -> (3 <= h)%Z -> Z.of_nat (length hm) = (w * h)%Z ->
  ~ worldWidth == 0 -> ~ worldHeight == 0 ->
  exists m1,
    foldM (fun m y => foldM (slopeCell hm w h worldWidth worldHeight y)
                        (seqZ 1 (w - 2)) m)
      (seqZ 1 (h - 2)) (replicate (Z.to_nat (w * h)) 0) = Ok m1
    /\ mapKeeps (fun _ => True) w h m1.
Proof.
  intros Hw Hh Hlen Hww Hwh.
  destruct (spacing_nonzero worldWidth w ltac:(lia) Hww) as [Hw1 Hdx].
  destruct (spacing_nonzero worldHeight h ltac:(lia) Hwh) as [Hh1 Hdy].
  apply (interior_keeps (fun _ => True)).
  - intros x y m Hx Hy Hm. unfold slopeCell, Qdiv_js.
    rewrite Hw1, Hh1. cbn [mbind res_bind].
    destruct (f32_get_in_range hm (y * w + x + 1)) as (hE & _ & ->); [nia|].
    destruct (f32_get_in_range hm (y * w + x - 1)) as (hW & _ & ->); [nia|].
    destruct (f32_get_in_range hm (y * w + x - w)) as (hN & _ & ->); [nia|].
    destruct (f32_get_in_range hm (y * w + x + w)) as (hS & _ & ->); [nia|].
    cbn [mbind res_bind]. rewrite Hdx, Hdy. cbn [mbind res_bind].
    eexists. split; [done|]. by apply f32_set_keeps.
  - split; [rewrite length_replicate; nia|]. by apply Forall_forall.
Qed.

(** X16.  Boundary policy of the slope and curvature maps: for a
    heightfield of [width * height] cells, at least 3 x 3, and world
    extents other than 0, both maps are returned with [width * height]
    cells, and in each of them every border cell holds the value of the
    nearest interior cell (a corner that of its diagonal neighbour). *)
Theorem border_cells_copy_nearest_interior `{Runtime} (hm : Float32Array)
    (w h : Z) (worldWidth worldHeight : Q) :
  (3 <= w)%Z -> (3 <= h)%Z -> Z.of_nat (length hm) = (w * h)%Z ->
  ~ worldWidth == 0 -> ~ worldHeight == 0 ->
  (exists cm,
     computeCurvatureMap hm w h worldWidth worldHeight = Ok cm
     /\ length cm = length hm
     /\ forall x y, inGrid w h x y ->
          cellEq cm (y * w + x) cm
            (snd (nearestInterior w h x y) * w + fst (nearestInterior w h x y)))
  /\ (exists sm,
        computeSlopeMap hm w h worldWidth worldHeight = Ok sm
        /\ length sm = length hm
        /\ forall x y, inGrid w h x y ->
             cellEq sm (y * w + x) sm
               (snd (nearestInterior w h x y) * w
                + fst (nearestInterior w h x y))).
Proof.
  intros Hw Hh Hlen Hww Hwh. split.
  - unfold computeCurvatureMap, f32_new.
    destruct (Z.ltb_spec (w * h) 0); [nia|]. cbn [mbind res_bind].
    destruct (curvature_interior_total hm w h worldWidth Hw Hh Hlen Hww)
      as (m1 & -> & Hm1).
    cbn [mbind res_bind].
    destruct (edges_of_interior m1 w h Hw Hh Hm1) as (cm & -> & Hl & Hcopy).
    exists cm. split; [done|]. split; [destruct Hm1; lia|done].
  - unfold computeSlopeMap, f32_new.
    destruct (Z.ltb_spec (w * h) 0); [nia|]. cbn [mbind res_bind].
    destruct (slope_interior_total hm w h worldWidth worldHeight
                Hw Hh Hlen Hww Hwh) as (m1 & -> & Hm1).
    cbn [mbind res_bind].
    destruct (edges_of_interior m1 w h Hw Hh Hm1) as (sm & -> & Hl & Hcopy).
    exists sm. split; [done|]. split; [destruct Hm1; lia|done].
Qed.

(** ** Edge blending *)

Lemma foldM_prefix_post {A B} (P : list B -> A -> Prop) (f : A -> B -> res A)
    (l : list B) (a a' : A) :
  P [] a ->
  (forall pre b a0 a1, b ∈ l -> f a0 b = Ok a1 -> P pre a0 -> P (pre ++ [b]) a1) ->
  foldM f l a = Ok a' -> P l a'.
Proof.
  intros Ha Hf.
  assert (forall suf pre a0, (forall b, b ∈ suf -> b ∈ l) -> P pre a0 ->
            foldM f suf a0 = Ok a' -> P (pre ++ suf) a') as Hgen.
  { induction suf as [|b suf IH]; intros pre a0 Hsub Hp Heq; simpl in Heq.
    - injection Heq as <-. by rewrite app_nil_r.
    - destruct (f a0 b) as [a1|e] eqn:E; cbn [mbind res_bind] in Heq; [|done].
      replace (pre ++ b :: suf) with ((pre ++ [b]) ++ suf)
        by (by rewrite <- app_assoc).
      apply (IH _ a1); [| |done].
      + intros b' Hb'. apply Hsub. by right.
      + apply (Hf pre b a0); [apply Hsub; by left|done|done]. }
  intros Heq. by apply (Hgen l [] a).
Qed.

Lemma f32_get_Ok (a : Float32Array) (i : Z) (v : Q) :
  f32_get a i = Ok v -> (0 <= i)%Z /\ a !! Z.to_nat i = Some v.
Proof.
  unfold f32_get. destruct (Z.ltb_spec i 0); [done|].
  destruct (a !! Z.to_nat i) as [z|]; [|done]. by intros [= ->].
Qed.

(** The slot of [vertexPositionsForSmoothing] that holds the height of
    cell [(x, y)]. *)
Definition heightSlot (gw x y : Z) : Z := ((y * gw + x) * 3 + 2)%Z.

Definition slotZero (a : Float32Array) (gw x y : Z) : Prop :=
  exists z, a !! Z.to_nat (heightSlot gw x y) = Some z /\ z == 0.

Definition onBorder (gw gh x y : Z) : Prop :=
  (x = 0 \/ y = 0 \/ x = gw - 1 \/ y = gh - 1)%Z.

Lemma heightSlot_injective (gw gh x y x' y' : Z) :
  inGrid gw gh x y -> inGrid gw gh x' y' ->
  heightSlot gw x y = heightSlot gw x' y' -> x = x' /\ y = y'.
Proof.
  unfold inGrid, heightSlot. intros Hin Hin' Heq.
  assert (y = y') by (destruct (Z.lt_trichotomy y y') as [?|[?|?]]; nia).
  subst y'. lia.
Qed.

Lemma blendCell_post (gw gh x y : Z) (a a' : Float32Array) :
  inGrid gw gh x y -> Gen.blendCell gw gh y a x = Ok a' ->
  (forall x' y', inGrid gw gh x' y' -> slotZero a gw x' y' -> slotZero a' gw x' y')
  /\ (onBorder gw gh x y -> slotZero a' gw x y).
Proof.
  intros Hin. unfold Gen.blendCell.
  destruct (Z.ltb_spec (Z.min (Z.min x (gw - 1 - x)) (Z.min y (gh - 1 - y))) 1)
    as [Hedge|Hedge].
  - assert (Z.min (Z.min x (gw - 1 - x)) (Z.min y (gh - 1 - y)) = 0%Z) as ->
      by (unfold inGrid in Hin; lia).
    destruct (f32_get a ((y * gw + x) * 3 + 2)) as [z|e] eqn:Hget;
      cbn [mbind res_bind]; [|done].
    apply f32_get_Ok in Hget as [Hpos Hz]. intros [= <-].
    unfold f32_set. destruct (Z.ltb_spec ((y * gw + x) * 3 + 2) 0); [lia|].
    assert (forall v, slotZero (<[Z.to_nat ((y * gw + x) * 3 + 2) := Qred v]> a)
                        gw x y <-> v == 0) as Hhere.
    { intros v. unfold slotZero, heightSlot.
      rewrite list_lookup_insert_eq by (by eapply lookup_lt_Some).
      split.
      - intros (z' & [= <-] & Hz'). by rewrite Qred_correct in Hz'.
      - intros Hv. eexists. split; [done|]. by rewrite Qred_correct. }
    split.
    + intros x' y' Hin' Hold.
      destruct (decide (heightSlot gw x' y' = heightSlot gw x y)) as [Hs|Hs].
      * apply (heightSlot_injective gw gh) in Hs as [-> ->]; [|done|done].
        apply Hhere. unfold Qdiv. ring.
      * destruct Hold as (z' & Hz' & Hzero). exists z'. split; [|done].
        rewrite list_lookup_insert_ne; [done|].
        unfold heightSlot in *. unfold inGrid in Hin'. intros Heq. apply Hs.
        apply Z2Nat.inj in Heq; [lia|lia|nia].
    + intros _. apply Hhere. unfold Qdiv. ring.
  - intros [= <-]. split; [done|].
    unfold onBorder, inGrid in *. lia.
Qed.

(** The edge-blending loops set the height slot of every border cell to
    zero. *)
Lemma blend_post (gw gh : Z) (vps vps' : Float32Array) :
  foldM (fun vps iy => foldM (Gen.blendCell gw gh iy) (seqZ 0 gw) vps)
    (seqZ 0 gh) vps = Ok vps' ->
  forall x y, inGrid gw gh x y -> onBorder gw gh x y -> slotZero vps' gw x y.
Proof.
  intros Hloops.
  assert (forall x y, y ∈ seqZ 0 gh -> inGrid gw gh x y -> onBorder gw gh x y ->
                      slotZero vps' gw x y) as Hall.
  { revert Hloops.
    apply (foldM_prefix_post
             (fun (pre : list Z) (a : Float32Array) =>
                forall x y, y ∈ pre -> inGrid gw gh x y -> onBorder gw gh x y ->
                            slotZero a gw x y)).
    - intros x y Hy. by apply elem_of_nil in Hy.
    - intros rows y a0 a1 Hy%elem_of_seqZ Hrow Hrows.
      assert ((forall x' y', y' ∈ rows -> inGrid gw gh x' y' ->
                             onBorder gw gh x' y' -> slotZero a1 gw x' y')
              /\ forall x', x' ∈ seqZ 0 gw -> inGrid gw gh x' y ->
                            onBorder gw gh x' y -> slotZero a1 gw x' y)
        as [Hrows1 Hcols1].
      { revert Hrow.
        apply (foldM_prefix_post
                 (fun (pre : list Z) (a : Float32Array) =>
                    (forall x' y', y' ∈ rows -> inGrid gw gh x' y' ->
                                   onBorder gw gh x' y' -> slotZero a gw x' y')
                    /\ forall x', x' ∈ pre -> inGrid gw gh x' y ->
                                  onBorder gw gh x' y -> slotZero a gw x' y)).
        - split; [done|]. intros x' Hx'. by apply elem_of_nil in Hx'.
        - intros cols x a2 a3 Hx%elem_of_seqZ Hcell [Hrows2 Hcols2].
          assert (inGrid gw gh x y) as Hin by (unfold inGrid; lia).
          destruct (blendCell_post gw gh x y a2 a3 Hin Hcell) as [Hkeep Hnew].
          split.
          + intros x' y' Hy' Hin' Hb'. apply Hkeep; [done|]. by apply Hrows2.
          + intros x' Hx' Hin' Hb'. apply elem_of_app in Hx' as [Hx'|Hx'].
            * apply Hkeep; [done|]. by apply Hcols2.
            * apply list_elem_of_singleton in Hx' as ->. by apply Hnew. }
      intros x' y' Hy' Hin' Hb'. apply elem_of_app in Hy' as [Hy'|Hy'].
      + by apply Hrows1.
      + apply list_elem_of_singleton in Hy' as ->.
        apply Hcols1; [|done|done]. apply elem_of_seqZ. unfold inGrid in Hin'. lia. }
  intros x y Hin Hb. apply Hall; [|done|done].
  apply elem_of_seqZ. unfold inGrid in Hin. lia.
Qed.

(** The last loop of [generateTerrainInternal] copies the height slot of
    every cell into the heightmap. *)
Lemma extract_post (s hm final : Float32Array) (n : Z) :
  foldM (fun hm i => z ← f32_get s (i * 3 + 2); Ok (f32_set hm i z))
    (seqZ 0 n) hm = Ok final ->
  Z.of_nat (length hm) = n ->
  forall i, (0 <= i < n)%Z ->
    exists z v, s !! Z.to_nat (i * 3 + 2) = Some z
                /\ final !! Z.to_nat i = Some v /\ v == z.
Proof.
  intros Hloop Hlen.
  assert (length final = length hm
          /\ forall i, i ∈ seqZ 0 n ->
               (0 <= i)%Z
               /\ exists z v, s !! Z.to_nat (i * 3 + 2) = Some z
                              /\ final !! Z.to_nat i = Some v /\ v == z)
    as [_ Hall].
  { revert Hloop.
    apply (foldM_prefix_post
             (fun (pre : list Z) (a : Float32Array) =>
                length a = length hm
                /\ forall i, i ∈ pre ->
                     (0 <= i)%Z
                     /\ exists z v, s !! Z.to_nat (i * 3 + 2) = Some z
                                    /\ a !! Z.to_nat i = Some v /\ v == z)).
    - split; [done|]. intros i Hi. by apply elem_of_nil in Hi.
    - intros pre i a0 a1 Hi%elem_of_seqZ Hstep [Hlen0 Hpre].
      destruct (f32_get s (i * 3 + 2)) as [z|e] eqn:Hget;
        cbn [mbind res_bind] in Hstep; [|done].
      injection Hstep as <-. apply f32_get_Ok in Hget as [_ Hz].
      split; [by rewrite f32_set_length|].
      unfold f32_set. destruct (Z.ltb_spec i 0); [lia|].
      intros j Hj. apply elem_of_app in Hj as [Hj|Hj].
      + destruct (Hpre j Hj) as (Hj0 & z' & v' & Hz' & Hv' & Hvz).
        split; [done|].
        destruct (decide (j = i)) as [->|Hne].
        * exists z', (Qred z). split; [done|].
          rewrite list_lookup_insert_eq by lia.
          split; [done|]. rewrite Qred_correct.
          assert (z' = z) as -> by congruence. done.
        * exists z', v'. split; [done|]. split; [|done].
          rewrite list_lookup_insert_ne; [done|]. lia.
      + apply list_elem_of_singleton in Hj as ->. split; [lia|].
        exists z, (Qred z). split; [done|].
        rewrite list_lookup_insert_eq by lia.
        split; [done|]. apply Qred_correct. }
  intros i Hi. apply Hall. apply elem_of_seqZ. lia.
Qed.

(** ** The generated heightfield *)

Lemma smoothNeighbour_total (cur : Float32Array) (mw mh x y : Z) (acc : Q * Q)
    (k : Z * Z * Q) :
  Z.of_nat (length cur) = (mw * mh)%Z ->
  exists acc', Gen.smoothNeighbour cur mw mh x y acc k = Ok acc'.
Proof.
  intros Hlen. unfold Gen.smoothNeighbour. destruct k as [[kx ky] weight].
  destruct (_ && _ && _ && _) eqn:Hg; [|by exists acc].
  repeat rewrite andb_true_iff in Hg.
  rewrite !Z.geb_le, !Z.ltb_lt in Hg.
  assert (inGrid mw mh (x + kx) (y + ky)) as Hin by (unfold inGrid; lia).
  destruct (f32_get_in_range cur ((y + ky) * mw + (x + kx))) as (z & _ & ->).
  { rewrite Hlen. by apply cell_index_bound. }
  cbn [mbind res_bind]. by eexists.
Qed.

Lemma smoothCell_total (cur tmp : Float32Array) (mw mh : Z) (f : Q) (i : Z) :
  Z.of_nat (length cur) = (mw * mh)%Z -> (0 <= i < mw * mh)%Z ->
  exists tmp', Gen.smoothCell cur mw mh f tmp i = Ok tmp'
               /\ length tmp' = length tmp.
Proof.
  intros Hlen Hi. unfold Gen.smoothCell.
  destruct (f32_get_in_range cur i) as (c & _ & ->); [lia|].
  cbv beta iota delta [mbind res_bind].
  destruct (mw =? 0)%Z.
  - eexists. split; [done|]. apply f32_set_length.
  - destruct (foldM_invariant (fun _ : Q * Q => True)
                (Gen.smoothNeighbour cur mw mh (Z.rem i mw) (i / mw)%Z)
                Gen.smoothKernel) with (a := (c, 1)) as (acc & -> & _).
    + intros a k _ _.
      destruct (smoothNeighbour_total cur mw mh (Z.rem i mw) (i / mw)%Z a k Hlen)
        as [a' ->].
      by exists a'.
    + done.
    + eexists. split; [done|]. apply f32_set_length.
Qed.

(** Smoothing an array of [3 * mapWidth * mapHeight] numbers reads no cell
    outside the arrays, whatever the factor and the number of iterations. *)
Lemma applySmoothingInternal_total (vps : Float32Array) (mw mh iters : Z)
    (factor : Q) :
  Z.of_nat (length vps) = (3 * (mw * mh))%Z ->
  exists vps',
    Gen.applySmoothingInternal vps mw mh iters factor = Ok vps'
    /\ length vps' = length vps.
Proof.
  intros Hlen. unfold Gen.applySmoothingInternal.
  assert (0 <= mw * mh)%Z as Hn by lia.
  assert ((Z.of_nat (length vps) + 2) / 3 = mw * mh)%Z as ->.
  { rewrite Hlen. symmetry. apply Z.div_unique with (r := 2%Z); lia. }
  assert (Z.of_nat (length vps) / 3 = mw * mh)%Z as ->.
  { rewrite Hlen. rewrite Z.mul_comm. apply Z.div_mul. lia. }
  edestruct (foldM_invariant
               (fun tmp : Float32Array => Z.of_nat (length tmp) = (mw * mh)%Z)
               (fun tmp i => z ← f32_get vps (i * 3 + 2); Ok (f32_set tmp i z))
               (seqZ 0 (mw * mh))) as (tmp0 & -> & Htmp0).
  { intros tmp i Hi%elem_of_seqZ Htmp.
    destruct (f32_get_in_range vps (i * 3 + 2)) as (z & _ & ->); [lia|].
    cbn [mbind res_bind]. eexists. split; [done|]. by rewrite f32_set_length. }
  { rewrite length_replicate. lia. }
  cbn [mbind res_bind].
  edestruct (foldM_invariant
               (fun tmp : Float32Array => Z.of_nat (length tmp) = (mw * mh)%Z)
               (Gen.smoothPass mw mh
                  (if Qeq_bool factor 0 then 1 # 2 else factor))
               (seqZ 0 (if (iters =? 0)%Z then 1%Z else iters)))
    as (smoothed & -> & Hsm); [|exact Htmp0|].
  { intros cur iter _ Hcur. unfold Gen.smoothPass.
    apply (foldM_invariant
             (fun tmp : Float32Array => Z.of_nat (length tmp) = (mw * mh)%Z));
      [|done].
    intros tmp i Hi%elem_of_seqZ Htmp.
    destruct (smoothCell_total cur tmp mw mh
                (if Qeq_bool factor 0 then 1 # 2 else factor) i Hcur)
      as (tmp' & -> & Hlen'); [lia|].
    exists tmp'. split; [done|]. by rewrite Hlen'. }
  cbn [mbind res_bind].
  apply (foldM_invariant (fun vp : Float32Array => length vp = length vps));
    [|done].
  intros vp i Hi%elem_of_seqZ Hvp.
  destruct (f32_get_in_range smoothed i) as (z & _ & ->); [lia|].
  cbn [mbind res_bind]. eexists. split; [done|]. by rewrite f32_set_length.
Qed.

Lemma blendCell_total (gw gh x y : Z) (a : Float32Array) :
  inGrid gw gh x y -> Z.of_nat (length a) = (gw * gh * 3)%Z ->
  exists a', Gen.blendCell gw gh y a x = Ok a' /\ length a' = length a.
Proof.
  intros Hin Hlen. unfold Gen.blendCell.
  destruct (_ <? _)%Z; [|by exists a].
  pose proof (cell_index_bound gw gh x y Hin).
  destruct (f32_get_in_range a ((y * gw + x) * 3 + 2)) as (z & _ & ->); [lia|].
  cbn [mbind res_bind]. eexists. split; [done|]. apply f32_set_length.
Qed.

Lemma octave_total `{Gen.NoiseLib} (p : Gen.Params) (noiseSeed : Q)
    (worley : Gen.WorleyInstance) (dirX dirY worldX worldY : Q)
    (st : Q * Q * Q) (o : nat) :
  ~ Gen.size p == 0 ->
  (forall px py, exists e, Gen.getEuclidean worley px py = Some e) ->
  exists st', Gen.octave p noiseSeed worley dirX dirY worldX worldY st o = Ok st'.
Proof.
  intros Hsize Hfin. unfold Gen.octave, Qdiv_js. destruct st as [[h amp] freq].
  cbv zeta.
  destruct (Qeq_bool (Gen.size p) 0) eqn:E; [by apply Qeq_bool_iff in E|].
  cbn [mbind res_bind].
  match goal with
  | |- context [Gen.getEuclidean worley ?a ?b] => destruct (Hfin a b) as [e ->]
  end.
  cbn [mbind res_bind]. by eexists.
Qed.

Lemma sampleCell_total `{Gen.NoiseLib} (p : Gen.Params) (noiseSeed : Q)
    (worley : Gen.WorleyInstance) (dirX dirY : Q) (gw gh ix iy : Z)
    (arrays : Float32Array * Float32Array) :
  (2 <= gw)%Z -> (2 <= gh)%Z -> ~ Gen.size p == 0 ->
  (forall px py, exists e, Gen.getEuclidean worley px py = Some e) ->
  inGrid gw gh ix iy ->
  Z.of_nat (length (fst arrays)) = (gw * gh)%Z ->
  exists arrays',
    Gen.sampleCell p noiseSeed worley dirX dirY gw gh iy arrays ix = Ok arrays'
    /\ length (fst arrays') = length (fst arrays)
    /\ length (snd arrays') = length (snd arrays).
Proof.
  intros Hgw Hgh Hsize Hfin Hin Hlen. unfold Gen.sampleCell, Qdiv_js.
  destruct arrays as [hmA vps]. cbn [fst snd] in *.
  destruct (spacing_nonzero 1 gw Hgw ltac:(by vm_compute)) as [-> _].
  destruct (spacing_nonzero 1 gh Hgh ltac:(by vm_compute)) as [-> _].
  cbn [mbind res_bind].
  match goal with
  | |- context [foldM ?f ?l ?st0] =>
      destruct (foldM_invariant (fun _ : Q * Q * Q => True) f l) with (a := st0)
        as (st & -> & _)
  end.
  - intros st o _ _.
    match goal with
    | |- context [Gen.octave p noiseSeed worley dirX dirY ?wx ?wy st o] =>
        destruct (octave_total p noiseSeed worley dirX dirY wx wy st o Hsize Hfin)
          as [st' ->]
    end.
    by exists st'.
  - done.
  - cbn [mbind res_bind].
    pose proof (cell_index_bound gw gh ix iy Hin) as Hidx.
    match goal with
    | |- context [f32_get ?a ?i] =>
        destruct (f32_get_in_range a i) as (z & _ & ->);
          [rewrite f32_set_length; lia|]
    end.
    cbn [mbind res_bind]. eexists. split; [done|]. cbn [fst snd].
    by rewrite !f32_set_length.
Qed.

(** What [generateTerrainInternal] returns for a grid of at least 2 x 2
    vertices that the engine can allocate, a world size other than 0 and a
    cellular noise with finite distances. *)
Lemma generate_spec `{Engine} `{Runtime} `{Gen.Trig} `{Gen.NoiseLib}
    (p : Gen.Params) :
  (1 <= Gen.meshResolution p)%Z ->
  ((Gen.meshResolution p + 1) * (Gen.meshResolution p + 1) * 3
   <= maxTypedArrayLength)%Z ->
  ~ Gen.size p == 0 ->
  (forall px py, exists e,
      Gen.getEuclidean (Gen.initWorley p) px py = Some e) ->
  exists hm,
    Gen.generateTerrainInternal p
    = Ok {| Gen.heightmap := hm;
            Gen.width := Gen.meshResolution p + 1;
            Gen.height := Gen.meshResolution p + 1 |}
    /\ Z.of_nat (length hm)
       = ((Gen.meshResolution p + 1) * (Gen.meshResolution p + 1))%Z
    /\ (Gen.applySmoothing p = false ->
        forall x y,
          inGrid (Gen.meshResolution p + 1) (Gen.meshResolution p + 1) x y ->
          onBorder (Gen.meshResolution p + 1) (Gen.meshResolution p + 1) x y ->
          exists z, hm !! Z.to_nat (y * (Gen.meshResolution p + 1) + x) = Some z
                    /\ z == 0).
Proof.
  intros Hm Hlim Hsize Hfin.
  unfold Gen.generateTerrainInternal, f32_alloc, f32_new.
  set (gw := (Gen.meshResolution p + 1)%Z) in *.
  assert (2 <= gw)%Z as Hgw by (unfold gw; lia).
  pose proof (Z.square_nonneg gw) as Hsq.
  destruct (Z.ltb_spec maxTypedArrayLength (gw * gw)); [lia|].
  destruct (Z.ltb_spec maxTypedArrayLength (gw * gw * 3)); [lia|].
  destruct (Z.ltb_spec (gw * gw) 0); [lia|].
  destruct (Z.ltb_spec (gw * gw * 3) 0); [lia|].
  cbn [mbind res_bind].
  (* the samples *)
  match goal with
  | |- context [foldM ?f (seqZ 0 gw) (?a0, ?v0)] =>
      destruct (foldM_invariant
                  (fun a : Float32Array * Float32Array =>
                     Z.of_nat (length (fst a)) = (gw * gw)%Z
                     /\ Z.of_nat (length (snd a)) = (gw * gw * 3)%Z)
                  f (seqZ 0 gw)) with (a := (a0, v0))
        as (arrays & -> & Hl1 & Hl2)
  end.
  { intros a iy Hiy%elem_of_seqZ Ha.
    apply (foldM_invariant
             (fun a : Float32Array * Float32Array =>
                Z.of_nat (length (fst a)) = (gw * gw)%Z
                /\ Z.of_nat (length (snd a)) = (gw * gw * 3)%Z)); [|done].
    intros a1 ix Hix%elem_of_seqZ [Ha1 Ha2].
    destruct (sampleCell_total p (Gen.Alea (Gen.seed p) 0) (Gen.initWorley p)
                (Gen.Math_cos (Gen.windDirection p))
                (Gen.Math_sin (Gen.windDirection p)) gw gw ix iy a1
                Hgw Hgw Hsize Hfin ltac:(unfold inGrid; lia) Ha1)
      as (a2 & -> & E1 & E2).
    exists a2. split; [done|]. by rewrite E1, E2. }
  { cbn [fst snd]. rewrite !length_replicate. lia. }
  cbn [mbind res_bind].
  (* the blend *)
  match goal with
  | |- context [foldM ?f (seqZ 0 gw) (snd arrays)] =>
      destruct (foldM_invariant
                  (fun a : Float32Array =>
                     Z.of_nat (length a) = (gw * gw * 3)%Z)
                  f (seqZ 0 gw)) with (a := snd arrays)
        as (blended & Hblend & Hlb)
  end.
  { intros a iy Hiy%elem_of_seqZ Ha.
    apply (foldM_invariant
             (fun a : Float32Array => Z.of_nat (length a) = (gw * gw * 3)%Z));
      [|done].
    intros a1 ix Hix%elem_of_seqZ Ha1.
    destruct (blendCell_total gw gw ix iy a1 ltac:(unfold inGrid; lia) Ha1)
      as (a2 & -> & E).
    exists a2. split; [done|]. by rewrite E. }
  { done. }
  rewrite Hblend. cbn [mbind res_bind].
  (* the smoothing *)
  assert (exists smoothed,
            (if Gen.applySmoothing p
             then Gen.applySmoothingInternal blended gw gw
                    (Gen.smoothIterations p) (Gen.smoothFactor p)
             else Ok blended) = Ok smoothed
            /\ Z.of_nat (length smoothed) = (gw * gw * 3)%Z
            /\ (Gen.applySmoothing p = false -> smoothed = blended))
    as (smoothed & -> & Hls & Hsame).
  { destruct (Gen.applySmoothing p); [|by exists blended].
    destruct (applySmoothingInternal_total blended gw gw
                (Gen.smoothIterations p) (Gen.smoothFactor p))
      as (vps' & -> & Hlen'); [lia|].
    exists vps'. split; [done|]. split; [lia|done]. }
  cbn [mbind res_bind].
  (* the heights read back *)
  match goal with
  | |- context [foldM ?f (seqZ 0 (gw * gw)) (fst arrays)] =>
      destruct (foldM_invariant
                  (fun a : Float32Array => Z.of_nat (length a) = (gw * gw)%Z)
                  f (seqZ 0 (gw * gw))) with (a := fst arrays)
        as (final & Hfinal & Hlf)
  end.
  { intros a i Hi%elem_of_seqZ Ha.
    destruct (f32_get_in_range smoothed (i * 3 + 2)) as (z & _ & ->); [lia|].
    cbn [mbind res_bind]. eexists. split; [done|]. by rewrite f32_set_length. }
  { done. }
  rewrite Hfinal. cbn [mbind res_bind].
  exists final. split; [done|]. split; [done|].
  intros Hoff x y Hin Hb. rewrite (Hsame Hoff) in Hfinal.
  pose proof (cell_index_bound gw gw x y Hin) as Hidx.
  destruct (extract_post blended (fst arrays) final (gw * gw) Hfinal Hl1
              (y * gw + x)%Z Hidx) as (z & v & Hz & Hv & Hvz).
  destruct (blend_post gw gw (snd arrays) blended Hblend x y Hin Hb)
    as (z' & Hz' & Hzero).
  unfold heightSlot in Hz'. assert (z' = z) as -> by congruence.
  exists v. split; [done|]. by rewrite Hvz.
Qed.

(** X11.  For a mesh resolution of at least 1, a grid that the engine can
    allocate, a world size other than 0 and a cellular noise that returns
    finite distances, [generateTerrainInternal] returns a heightfield in the
    sense of the data model: its width and height are [meshResolution + 1]
    and its array has [width * height] cells, so that it is a well-formed
    heightfield for an [ErosionSimulator] of these dimensions. *)
Theorem generated_heightfield_is_well_formed `{Engine} `{Runtime} `{Gen.Trig}
    `{Gen.NoiseLib} (p : Gen.Params) (ep : ErosionSimulator.Params) :
  (1 <= Gen.meshResolution p)%Z ->
  ((Gen.meshResolution p + 1) * (Gen.meshResolution p + 1) * 3
   <= maxTypedArrayLength)%Z ->
  ~ Gen.size p == 0 ->
  (forall px py, exists e,
      Gen.getEuclidean (Gen.initWorley p) px py = Some e) ->
  exists hf,
    Gen.generateTerrainInternal p = Ok hf
    /\ Gen.width hf = (Gen.meshResolution p + 1)%Z
    /\ Gen.height hf = (Gen.meshResolution p + 1)%Z
    /\ Z.of_nat (length (Gen.heightmap hf)) = (Gen.width hf * Gen.height hf)%Z
    /\ wellFormed
         (constructor (Gen.width hf) (Gen.height hf) (Gen.heightmap hf) ep)
         (Gen.heightmap hf).
Proof.
  intros Hm Hlim Hsize Hfin.
  destruct (generate_spec p Hm Hlim Hsize Hfin) as (hm & Heq & Hlen & _).
  eexists. split; [exact Heq|]. cbn.
  split; [done|]. split; [done|]. split; [exact Hlen|exact Hlen].
Qed.

(** X17.  Edge blending.  For a mesh resolution of at least 1, a grid that
    the engine can allocate, a world size other than 0 and a cellular noise
    that returns finite distances: when smoothing is switched off, every
    cell on the border of the generated heightfield holds the height 0.
    (The blend margin is one cell, so the blend factor of a border cell is
    0; the sampled heights are finite, the numbers of the model having no
    overflow.) *)
Theorem unsmoothed_border_is_zero `{Engine} `{Runtime} `{Gen.Trig}
    `{Gen.NoiseLib} (p : Gen.Params) :
  (1 <= Gen.meshResolution p)%Z ->
  ((Gen.meshResolution p + 1) * (Gen.meshResolution p + 1) * 3
   <= maxTypedArrayLength)%Z ->
  ~ Gen.size p == 0 ->
  (forall px py, exists e,
      Gen.getEuclidean (Gen.initWorley p) px py = Some e) ->
  Gen.applySmoothing p = false ->
  exists hm,
    Gen.generateTerrainInternal p
    = Ok {| Gen.heightmap := hm;
            Gen.width := Gen.meshResolution p + 1;
            Gen.height := Gen.meshResolution p + 1 |}
    /\ forall x y,
         inGrid (Gen.meshResolution p + 1) (Gen.meshResolution p + 1) x y ->
         onBorder (Gen.meshResolution p + 1) (Gen.meshResolution p + 1) x y ->
         exists z, hm !! Z.to_nat (y * (Gen.meshResolution p + 1) + x) = Some z
                   /\ z == 0.
Proof.
  intros Hm Hlim Hsize Hfin Hoff.
  destruct (generate_spec p Hm Hlim Hsize Hfin) as (hm & Heq & _ & Hborder).
  exists hm. split; [exact Heq|]. by apply Hborder.
Qed.

(** ** The further properties at concrete inputs *)

Lemma Qsqrt_zero (q : Q) : q == 0 -> Qsqrt q == 0.
Proof.
  intros Hq. unfold Qsqrt. by rewrite (Qred_complete _ _ Hq).
Qed.

Lemma stepDroplets_frame_witness :
  exists r this' ds',
    @stepDroplets squareRootRuntime flatSimulator 1 = Ok (r, this')
    /\ droplets this' = Some ds'
    /\ r = existsb alive ds'
    /\ length ds' = 1%nat.
Proof.
  destruct (@stepDroplets_frame squareRootRuntime flatSimulator _ 1
              eq_refl eq_refl)
    as (r & this' & ds' & Heq & _ & _ & _ & _ & _ & Hds & Hr & Hlen & _).
  exists r, this', ds'. split; [exact Heq|]. split; [exact Hds|].
  split; [exact Hr|]. rewrite Hlen. by vm_compute.
Defined.

Lemma survivors_are_inside_and_within_limits_witness :
  exists r this' ds',
    @stepDroplets squareRootRuntime flatSimulator 1 = Ok (r, this')
    /\ droplets this' = Some ds'
    /\ Forall (fun d' => alive d' = true -> 1 # 100 <= speed d') ds'.
Proof.
  destruct (@survivors_are_inside_and_within_limits squareRootRuntime
              flatSimulator _ 1 eq_refl eq_refl)
    as (r & this' & ds' & Heq & Hds & Hall); [by vm_compute|].
  exists r, this', ds'. split; [done|]. split; [done|].
  eapply Forall_impl; [exact Hall|]. intros d Hd Ha. by apply Hd.
Defined.

Lemma all_droplets_dead_after_lifetime_witness :
  exists this' ds',
    @stepMany squareRootRuntime flatSimulator (1 :: replicate 30 1)%Z = Ok this'
    /\ droplets this' = Some ds'
    /\ Forall (fun d => alive d = false) ds'
    /\ exists this'', @stepDroplets squareRootRuntime this' 1 = Ok (false, this'').
Proof.
  eapply (@all_droplets_dead_after_lifetime squareRootRuntime flatSimulator
            _ 1 (replicate 30 1%Z)).
  - reflexivity.
  - reflexivity.
  - repeat constructor. by vm_compute.
  - apply Forall_cons. split; [by vm_compute|].
    apply Forall_replicate. by vm_compute.
  - by vm_compute.
Defined.

Lemma seeded_draws_witness :
  0 < draw (setSeed 42) 3 /\ draw (setSeed (-2147483646)) 3 == 0.
Proof.
  split.
  - apply (proj1 (proj2 (seeded_draws 42 3))). by vm_compute.
  - apply (proj2 (proj2 (seeded_draws (-2147483646) 3))). by vm_compute.
Defined.

Lemma interp_keeps_sign_witness :
  let this := constructor 6 6 checkerboard defaultParams in
  exists v, _bilinearInterp this checkerboard (5 # 2) (7 # 3) = Ok v /\ 0 <= v.
Proof.
  intros this.
  destruct (interp_keeps_sign this checkerboard (5 # 2) (7 # 3) eq_refl)
    as (v & Hv & Hpos & _).
  exists v. split; [exact Hv|]. apply Hpos. exact checkerboard_nonneg.
Defined.

Lemma bilinearMin_is_lowest_corner_witness :
  let this := constructor 6 6 checkerboard defaultParams in
  (exists m, _bilinearMin this checkerboard 2 2 = Ok m
             /\ exists j a, touchedBy this 2 2 j
                             /\ checkerboard !! j = Some a /\ m == a)
  /\ _bilinearMin this checkerboard 5 1 = Ok 0.
Proof.
  intros this. split.
  - destruct (proj1 (bilinearMin_is_lowest_corner this checkerboard 2 2 eq_refl))
      as (m & Hm & _ & Hcorner).
    + split; by vm_compute.
    + by exists m.
  - apply (proj2 (bilinearMin_is_lowest_corner this checkerboard 5 1 eq_refl)).
    intros [Hx _]. vm_compute in Hx. destruct Hx as [_ Hx]. discriminate Hx.
Defined.

Lemma downslope_is_steepest_descent_witness :
  exists ds,
    computeDownslope slopedField 3 3 = Ok ds /\ length ds = 9%nat.
Proof.
  destruct (downslope_is_steepest_descent slopedField 3 3 eq_refl)
    as (ds & Heq & Hlen & _).
  by exists ds.
Defined.

Lemma flow_counts_direct_donors_witness :
  exists ds fm,
    computeDownslope slopedField 3 3 = Ok ds
    /\ computeFlowMap slopedField 3 3 = Ok fm
    /\ exists v, fm !! 0%nat = Some v
                 /\ v == inject_Z (1 + countDonors ds 0 (seqZ 0 9)).
Proof.
  destruct (flow_counts_direct_donors slopedField 3 3)
    as (ds & fm & Hds & Hfm & _ & Hflow); [lia|lia|reflexivity|].
  exists ds, fm. split; [done|]. split; [done|].
  apply (Hflow 0%Z). lia.
Defined.

Lemma plateau_has_unit_flow_witness :
  exists ds fm,
    computeDownslope (replicate 9 5) 3 3 = Ok ds
    /\ computeFlowMap (replicate 9 5) 3 3 = Ok fm
    /\ ds !! 4%nat = Some 4%Z
    /\ exists v, fm !! 4%nat = Some v /\ v == 1.
Proof.
  destruct (plateau_has_unit_flow 5 3 3) as (ds & fm & Hds & Hfm & Hall);
    [lia|lia|].
  exists ds, fm. split; [exact Hds|]. split; [exact Hfm|].
  apply (Hall 4%Z). lia.
Defined.

Lemma stubNoise_distances_finite (p : Gen.Params) (px py : Q) :
  exists dist,
    Gen.getEuclidean (@Gen.initWorley squareRootRuntime stubNoise p) px py
    = Some dist.
Proof.
  apply (proj2 (proj2 (@initWorley_spec squareRootRuntime stubNoise p))).
  exact I.
Qed.

Lemma generated_heightfield_is_well_formed_witness :
  exists hf,
    @Gen.generateTerrainInternal sampleEngine squareRootRuntime taylorTrig
      stubNoise (generationParams 1 2) = Ok hf
    /\ Gen.width hf = 3%Z /\ Gen.height hf = 3%Z
    /\ Z.of_nat (length (Gen.heightmap hf)) = (Gen.width hf * Gen.height hf)%Z.
Proof.
  destruct (@generated_heightfield_is_well_formed sampleEngine squareRootRuntime
              taylorTrig stubNoise (generationParams 1 2) defaultParams)
    as (hf & Heq & Hw & Hh & Hlen & _).
  - by vm_compute.
  - by vm_compute.
  - by vm_compute.
  - apply stubNoise_distances_finite.
  - exists hf. split; [exact Heq|]. split; [exact Hw|]. split; [exact Hh|].
    exact Hlen.
Defined.

Lemma worley_never_fails_witness :
  let p := generationParams 1 2 in
  @Gen.initWorley squareRootRuntime stubNoise p
  = @Gen.fallbackWorley squareRootRuntime (@worleyPointsArray stubNoise p)
  /\ (128 <= length (@worleyPointsArray stubNoise p) <= 4096)%nat
  /\ forall px py, exists dist,
       Gen.getEuclidean (@Gen.initWorley squareRootRuntime stubNoise p) px py
       = Some dist.
Proof.
  intros p.
  apply (proj2 (proj2 (@worley_never_fails squareRootRuntime stubNoise p))).
  exact I.
Defined.

Lemma smoothing_stays_within_range_witness :
  exists vps',
    Gen.applySmoothingInternal sampleVertices 2 2 3 (1 # 2) = Ok vps'
    /\ length vps' = 12%nat
    /\ forall i z, (0 <= i < 4)%Z ->
                   vps' !! Z.to_nat (i * 3 + 2) = Some z -> 0 <= z <= 1.
Proof.
  destruct (smoothing_stays_within_range sampleVertices 2 2 3 (1 # 2) 0 1)
    as (vps' & Heq & Hlen & Hin & _).
  - lia.
  - lia.
  - reflexivity.
  - split; by vm_compute.
  - intros i z Hi Hz.
    assert (i = 0 \/ i = 1 \/ i = 2 \/ i = 3)%Z as [-> | [-> | [-> | ->]]]
      by lia;
      vm_compute in Hz; injection Hz as <-; split; by vm_compute.
  - by exists vps'.
Defined.

Lemma curvature_of_plane_is_zero_witness :
  exists cm,
    computeCurvatureMap slopedField 3 3 10 10 = Ok cm
    /\ length cm = 9%nat
    /\ Forall (fun v => v == 0) cm.
Proof.
  apply (curvature_of_plane_is_zero slopedField 3 3 10 10 1 1 0).
  - lia.
  - lia.
  - reflexivity.
  - by vm_compute.
  - intros x y [Hx Hy].
    assert (x = 0 \/ x = 1 \/ x = 2)%Z as [-> | [-> | ->]] by lia;
      assert (y = 0 \/ y = 1 \/ y = 2)%Z as [-> | [-> | ->]] by lia;
      eexists; (split; [reflexivity|by vm_compute]).
Defined.

Lemma slope_of_flat_field_is_zero_witness :
  exists sm,
    @computeSlopeMap squareRootRuntime (replicate 9 5) 3 3 10 10 = Ok sm
    /\ length sm = 9%nat
    /\ Forall (fun v => v == 0) sm.
Proof.
  apply (@slope_of_flat_field_is_zero squareRootRuntime 5 3 3 10 10).
  - exact Qsqrt_zero.
  - lia.
  - lia.
  - by vm_compute.
  - by vm_compute.
Defined.

Lemma border_cells_copy_nearest_interior_witness :
  exists sm,
    @computeSlopeMap squareRootRuntime slopedField 3 3 10 10 = Ok sm
    /\ length sm = 9%nat
    /\ cellEq sm 0 sm 4.
Proof.
  destruct (proj2 (@border_cells_copy_nearest_interior squareRootRuntime
                     slopedField 3 3 10 10 ltac:(lia) ltac:(lia) eq_refl
                     ltac:(by vm_compute) ltac:(by vm_compute)))
    as (sm & Heq & Hlen & Hcopy).
  exists sm. split; [done|]. split; [done|].
  apply (Hcopy 0%Z 0%Z). unfold inGrid. lia.
Defined.

Lemma unsmoothed_border_is_zero_witness :
  exists hm z,
    @Gen.generateTerrainInternal sampleEngine squareRootRuntime taylorTrig
      stubNoise (unsmoothedParams 2)
    = Ok {| Gen.heightmap := hm; Gen.width := 3; Gen.height := 3 |}
    /\ hm !! 5%nat = Some z /\ z == 0.
Proof.
  destruct (@unsmoothed_border_is_zero sampleEngine squareRootRuntime taylorTrig
              stubNoise (unsmoothedParams 2))
    as (hm & Heq & Hborder).
  - by vm_compute.
  - by vm_compute.
  - by vm_compute.
  - apply stubNoise_distances_finite.
  - reflexivity.
  - destruct (Hborder 2%Z 1%Z) as (z & Hz & Hzero).
    + unfold inGrid. simpl. lia.
    + unfold onBorder. simpl. lia.
    + exists hm, z. split; [exact Heq|]. split; [exact Hz|exact Hzero].
Defined.
